(** * MR.ZPAYTZO: diphone synthesizer and vintage DSP chain

    A shallow embedding of [src/diphone_synthesizer.py],
    [src/vintage_dsp.py], [src/enhanced_vintage_dsp.py],
    [src/audio_output.py] and [src/enhanced_audio_output.py].

    Conventions of the embedding:
    - phonemes, pause markers and diphone names are [string]s, as in the
      Python code (a diphone is the string ["A-B"]);
    - durations are decimal constants and are kept in [Q], so that the sample
      counts [int(duration * sample_rate)] evaluate;
    - audio samples are real numbers ([R]): the floating-point rounding of
      numpy is idealised away, every arithmetic operation is exact;
    - the numpy random generator is an explicit state ([Rng]) threaded
      through every function that draws from it. *)

From Stdlib Require Import List String Ascii Bool Arith ZArith QArith Qround Lia.
From Stdlib Require Import Reals Lra.
Import ListNotations.

Local Open Scope string_scope.
Local Open Scope list_scope.

(** ** The numpy primitives used by the program *)

Module Np.
Local Open Scope R_scope.

(** Element-wise binary operation on two arrays of the same shape. *)
Fixpoint zip_with {A B C : Type} (f : A -> B -> C) (l1 : list A) (l2 : list B) : list C :=
  match l1, l2 with
  | a :: l1', b :: l2' => f a b :: zip_with f l1' l2'
  | _, _ => []
  end.

(** [a[i] = v] on an array (no effect out of range; the program never
    assigns out of range). *)
Fixpoint set_nth (i : nat) (v : R) (l : list R) : list R :=
  match l, i with
  | [], _ => []
  | _ :: l', O => v :: l'
  | x :: l', S i' => x :: set_nth i' v l'
  end.

Definition zeros (n : nat) : list R := repeat 0 n.
Definition ones (n : nat) : list R := repeat 1 n.

Definition sum (l : list R) : R := fold_right Rplus 0 l.

(** [np.sign]. *)
Definition sign (x : R) : R :=
  if Rlt_dec 0 x then 1 else if Rlt_dec x 0 then -1 else 0.

(** [np.clip(x, lo, hi)]. *)
Definition clip (lo hi x : R) : R := Rmin (Rmax x lo) hi.

(** [np.floor]. *)
Definition floor (x : R) : R := IZR (Int_part x).

(** [np.round]: to the nearest integer, ties to the even one. *)
Definition round (x : R) : R :=
  let f := Int_part x in
  let d := x - IZR f in
  if Rlt_dec d (1 / 2) then IZR f
  else if Rlt_dec (1 / 2) d then IZR (f + 1)
  else if Z.even f then IZR f else IZR (f + 1).

(** Python's [int()] on a float: truncation towards zero. *)
Definition int (x : R) : Z :=
  if Rle_dec 0 x then Int_part x else (- Int_part (- x))%Z.

(** [int()] on an exact decimal. *)
Definition int_Q (q : Q) : Z := Z.quot (Qnum q) (Zpos (Qden q)).

(** [np.max(np.abs(a))] (on a non-empty array). *)
Definition max_abs (l : list R) : R := fold_right (fun x m => Rmax (Rabs x) m) 0 l.

(** [np.cumsum]. *)
Fixpoint cumsum_from (acc : R) (l : list R) : list R :=
  match l with
  | [] => []
  | x :: l' => (acc + x) :: cumsum_from (acc + x) l'
  end.
Definition cumsum (l : list R) : list R := cumsum_from 0 l.

(** [np.linspace(start, stop, num)] (end point included): the last element
    is [stop] itself. *)
Definition linspace (start stop : R) (num : nat) : list R :=
  match num with
  | O => []
  | 1%nat => [start]
  | S m => map (fun i => start + INR i * ((stop - start) / INR m)) (seq 0 m) ++ [stop]
  end.

(** [np.linspace(start, stop, num, endpoint=False)]. *)
Definition linspace_open (start stop : R) (num : nat) : list R :=
  map (fun i => start + INR i * ((stop - start) / INR num)) (seq 0 num).

(** Entry [k] of the full discrete convolution of [a] and [v]. *)
Definition conv_full_at (a v : list R) (k : nat) : R :=
  sum (map (fun j => if (j <=? k)%nat then nth j a 0 * nth (k - j) v 0 else 0)
           (seq 0 (List.length a))).

(** [np.convolve(a, v, mode='same')]: [max(M, N)] entries of the full
    convolution, centred.  (numpy raises [ValueError] on an empty argument;
    the program calls it on buffers of two samples or more.) *)
Definition convolve_same (a v : list R) : list R :=
  let n1 := Nat.max (List.length a) (List.length v) in
  let n2 := Nat.min (List.length a) (List.length v) in
  map (fun i => conv_full_at a v (i + (n2 - 1) / 2)) (seq 0 n1).

(** [x.astype(np.uint8)] on a float: truncation, then the low eight bits. *)
Definition to_uint8 (x : R) : Z := (int x mod 256)%Z.

End Np.

(** ** The random generator

    [np.random] is a global generator.  It is modelled by the stream of its
    raw variates and the number of variates consumed so far.  A draw of [n]
    values consumes [n] variates; each distribution scales its raw variate
    (a standard normal variate, a variate of [[0,1)], a variate of [[-1,1]]
    for the symmetric triangular draws of the program). *)

Module Random.
Local Open Scope R_scope.

Record Rng : Type := mkRng { variates : nat -> R; consumed : nat }.

Definition take (n : nat) (g : Rng) : list R * Rng :=
  (map (variates g) (seq (consumed g) n),
   mkRng (variates g) (consumed g + n)).

(** [np.random.normal(mu, sigma, n)]. *)
Definition normal (mu sigma : R) (n : nat) (g : Rng) : list R * Rng :=
  let (zs, g') := take n g in (map (fun z => mu + sigma * z) zs, g').

(** [np.random.uniform(lo, hi, n)]. *)
Definition uniform (lo hi : R) (n : nat) (g : Rng) : list R * Rng :=
  let (us, g') := take n g in (map (fun u => lo + (hi - lo) * u) us, g').

(** [np.random.triangular(left, mode, right, n)], for the symmetric draws
    of the program ([mode] is the middle of [left] and [right]). *)
Definition triangular (left mode right : R) (n : nat) (g : Rng) : list R * Rng :=
  let (ws, g') := take n g in (map (fun w => mode + (right - left) / 2 * w) ws, g').

End Random.

(** ** [src/diphone_synthesizer.py] *)

Module DiphoneSynthesizer.
Import Np Random.

(** *** Strings *)

(** [s.startswith(pre)]. *)
Definition startswith (s pre : string) : bool := String.prefix pre s.

(** [sub in s] on strings. *)
Fixpoint contains (sub s : string) : bool :=
  String.prefix sub s ||
  match s with
  | EmptyString => false
  | String _ s' => contains sub s'
  end.

(** [s.split('-', 1)] when ['-' in s], [None] when there is no dash. *)
Fixpoint split_dash (s : string) : option (string * string) :=
  match s with
  | EmptyString => None
  | String c s' =>
      if Ascii.eqb c "-"%char then Some (EmptyString, s')
      else match split_dash s' with
           | Some (a, b) => Some (String c a, b)
           | None => None
           end
  end.

(** [key in d] and [d.get(key, default)] on a dictionary literal. *)
Fixpoint lookup {V : Type} (key : string) (d : list (string * V)) : option V :=
  match d with
  | [] => None
  | (k, v) :: d' => if String.eqb key k then Some v else lookup key d'
  end.

Definition is_pause (p : string) : bool := startswith p "<PAUSE".

(** *** The diphone sequencer: [_phonemes_to_diphones] *)

(** The loop [for i in range(len(phonemes) - 1)]. *)
Fixpoint adjacent_units (phonemes : list string) : list string :=
  match phonemes with
  | current_phoneme :: ((next_phoneme :: _) as rest) =>
      (if is_pause current_phoneme || is_pause next_phoneme
       then current_phoneme
       else (current_phoneme ++ "-" ++ next_phoneme)%string) :: adjacent_units rest
  | _ => []
  end.

Definition phonemes_to_diphones (phonemes : list string) : list string :=
  (match phonemes with
   | p0 :: _ => if negb (is_pause p0) then [("SIL-" ++ p0)%string] else []
   | [] => []
   end)
  ++ adjacent_units phonemes
  ++ (match phonemes with
      | _ :: _ =>
          let pl := last phonemes "" in
          if negb (is_pause pl) then [(pl ++ "-SIL")%string] else []
      | [] => []
      end).

(** *** Tables *)

Definition phoneme_durations : list (string * Q) :=
  [ ("AA", 0.12); ("AE", 0.10); ("AH", 0.08); ("AO", 0.12); ("AW", 0.14); ("AY", 0.14);
    ("EH", 0.10); ("ER", 0.12); ("EY", 0.14); ("IH", 0.08); ("IY", 0.12); ("OW", 0.14);
    ("OY", 0.14); ("UH", 0.08); ("UW", 0.12);
    ("B", 0.06); ("CH", 0.08); ("D", 0.04); ("DH", 0.06); ("F", 0.08); ("G", 0.06);
    ("HH", 0.06); ("JH", 0.08); ("K", 0.06); ("L", 0.06); ("M", 0.06); ("N", 0.06);
    ("NG", 0.08); ("P", 0.06); ("R", 0.06); ("S", 0.08); ("SH", 0.08); ("T", 0.04);
    ("TH", 0.08); ("V", 0.06); ("W", 0.06); ("Y", 0.06); ("Z", 0.06); ("ZH", 0.08);
    ("SIL", 0.02) ]%Q.

(** [_get_diphone_duration]. *)
Definition get_diphone_duration (start_phoneme end_phoneme : string) : Q :=
  let base_duration := 0.08%Q in
  if String.eqb start_phoneme "SIL" || String.eqb end_phoneme "SIL"
  then (base_duration * 0.5)%Q
  else match lookup start_phoneme phoneme_durations with
       | Some duration => duration
       | None => base_duration
       end.

(** [_get_pause_duration]. *)
Definition get_pause_duration (pause_marker : string) : Q :=
  if contains "LONG" pause_marker then 0.5%Q
  else if contains "MEDIUM" pause_marker then 0.3%Q
  else if contains "SHORT" pause_marker then 0.2%Q
  else 0.3%Q.

Local Open Scope R_scope.

Record Formants : Type := mkFormants
  { F1 : R; F2 : R; F3 : R; A1 : R; A2 : R; A3 : R }.

Definition formant_frequencies : list (string * Formants) :=
  [ ("AA", mkFormants 730 1090 2440 1.0 0.6 0.3);
    ("AE", mkFormants 660 1720 2410 1.0 0.8 0.3);
    ("AH", mkFormants 520 1190 2390 1.0 0.5 0.2);
    ("AO", mkFormants 570 840 2410 1.0 0.4 0.2);
    ("EH", mkFormants 530 1840 2480 1.0 0.7 0.3);
    ("ER", mkFormants 490 1350 1690 1.0 0.6 0.4);
    ("IH", mkFormants 390 1990 2550 1.0 0.8 0.3);
    ("IY", mkFormants 270 2290 3010 1.0 0.9 0.4);
    ("OW", mkFormants 570 840 2410 1.0 0.4 0.2);
    ("UH", mkFormants 440 1020 2240 1.0 0.4 0.2);
    ("UW", mkFormants 300 870 2240 1.0 0.3 0.2);
    ("AY", mkFormants 660 1720 2410 1.0 0.8 0.3);
    ("AW", mkFormants 730 1090 2440 1.0 0.6 0.3);
    ("EY", mkFormants 530 1840 2480 1.0 0.7 0.3);
    ("OY", mkFormants 570 840 2410 1.0 0.4 0.2);
    ("B", mkFormants 200 1000 2500 0.3 0.2 0.1);
    ("D", mkFormants 200 1700 2600 0.3 0.2 0.1);
    ("G", mkFormants 200 1400 2200 0.3 0.2 0.1);
    ("P", mkFormants 200 1000 2500 0.1 0.1 0.05);
    ("T", mkFormants 200 1700 2600 0.1 0.1 0.05);
    ("K", mkFormants 200 1400 2200 0.1 0.1 0.05);
    ("M", mkFormants 250 1000 2200 0.8 0.3 0.2);
    ("N", mkFormants 250 1700 2600 0.8 0.3 0.2);
    ("NG", mkFormants 250 1400 2200 0.8 0.3 0.2);
    ("L", mkFormants 400 1200 2600 0.9 0.5 0.3);
    ("R", mkFormants 300 1300 1600 0.9 0.5 0.4);
    ("W", mkFormants 300 870 2240 0.8 0.3 0.2);
    ("Y", mkFormants 270 2290 3010 0.8 0.7 0.3);
    ("F", mkFormants 200 1000 4000 0.2 0.3 0.8);
    ("V", mkFormants 200 1000 4000 0.4 0.4 0.6);
    ("TH", mkFormants 200 1400 4500 0.2 0.3 0.8);
    ("DH", mkFormants 200 1400 4500 0.4 0.4 0.6);
    ("S", mkFormants 200 2000 6000 0.1 0.5 1.0);
    ("Z", mkFormants 200 2000 6000 0.3 0.6 0.8);
    ("SH", mkFormants 200 1200 4000 0.1 0.3 0.9);
    ("ZH", mkFormants 200 1200 4000 0.3 0.4 0.7);
    ("CH", mkFormants 200 1200 4000 0.1 0.3 0.8);
    ("JH", mkFormants 200 1200 4000 0.3 0.4 0.6);
    ("HH", mkFormants 300 1500 3000 0.3 0.2 0.1);
    ("SIL", mkFormants 0 0 0 0.0 0.0 0.0) ].

Definition get_default_formants : Formants := mkFormants 500 1500 2500 0.5 0.3 0.1.

Definition voiced_phonemes : list string :=
  [ "AA"; "AE"; "AH"; "AO"; "AW"; "AY"; "EH"; "ER"; "EY"; "IH"; "IY"; "OW"; "OY"; "UH"; "UW";
    "B"; "D"; "G"; "V"; "DH"; "Z"; "ZH"; "JH"; "M"; "N"; "NG"; "L"; "R"; "W"; "Y" ]%string.

Definition mem (p : string) (l : list string) : bool := existsb (String.eqb p) l.

Definition is_voiced_phoneme (phoneme : string) : bool := mem phoneme voiced_phonemes.

Definition fundamental_frequency : R := 120.
Definition formant_bandwidth : R := 100.

(** *** Formant synthesis, at a given sample rate *)

Section Synthesis.

Variable sample_rate : Z.

Let sr : R := IZR sample_rate.

(** [_generate_pulse_train]. *)
Definition generate_pulse_train (t f0 voicing : list R) : list R :=
  let dt := if (1 <? List.length t)%nat then nth 1 t 0 - nth 0 t 0 else 1 / sr in
  let phase := 0 :: map (fun c => c * 2 * PI) (cumsum (map (fun f => f * dt) (removelast f0))) in
  let sawtooth := map (fun ph => 2 * (ph / (2 * PI) - floor (ph / (2 * PI) + 0.5))) phase in
  zip_with Rmult sawtooth voicing.

(** [_apply_highpass_filter]: the loop carries [output[i-1]] and
    [signal[i-1]]. *)
Fixpoint highpass_filter_loop (alpha prev_out prev_in : R) (signal : list R) : list R :=
  match signal with
  | [] => []
  | x :: rest =>
      let y := alpha * prev_out + alpha * (x - prev_in) in
      y :: highpass_filter_loop alpha y x rest
  end.

Definition apply_highpass_filter (signal : list R) (cutoff_freq : R) : list R :=
  match signal with
  | [] | [_] => signal
  | x0 :: rest =>
      let omega := 2 * PI * cutoff_freq / sr in
      let alpha := exp (- omega) in
      x0 :: highpass_filter_loop alpha x0 x0 rest
  end.

(** [_apply_burst_shaping]. *)
Definition apply_burst_shaping (noise : list R) : list R :=
  let decay_samples := Nat.min (List.length noise / 4) 100 in
  let envelope := ones (List.length noise) in
  let envelope :=
    if (0 <? decay_samples)%nat
    then map (fun x => exp (- x)) (linspace 0 3 decay_samples) ++ skipn decay_samples envelope
    else envelope in
  zip_with Rmult noise envelope.

(** [_generate_noise]. *)
Definition generate_noise (t : list R) (start_phoneme end_phoneme : string) (g : Rng)
  : list R * Rng :=
  let (noise, g') := normal 0 1 (List.length t) g in
  if mem start_phoneme ["S"; "SH"; "F"; "TH"]%string || mem end_phoneme ["S"; "SH"; "F"; "TH"]%string
  then (apply_highpass_filter noise 2000, g')
  else if mem start_phoneme ["P"; "T"; "K"]%string || mem end_phoneme ["P"; "T"; "K"]%string
  then (apply_burst_shaping noise, g')
  else (noise, g').

(** One iteration of the loop of [_apply_formant_filter]: the body for
    index [i], on the output array filled so far. *)
Definition formant_filter_step (source formant_freq amplitude : list R) (bandwidth : R)
  (output : list R) (i : nat) : list R :=
  let freq := nth i formant_freq 0 in
  let amp := nth i amplitude 0 in
  if Rlt_dec 0 freq then
    let omega := 2 * PI * freq / sr in
    let r := 1 - bandwidth / sr in
    if (2 <=? i)%nat
    then set_nth i (amp * nth i source 0
                    + 2 * r * cos omega * nth (i - 1) output 0
                    - r * r * nth (i - 2) output 0) output
    else set_nth i (amp * nth i source 0) output
  else output.

(** [_apply_formant_filter].  The contours [formant_freq] and [amplitude]
    have the length of [source] at every call of the program. *)
Definition apply_formant_filter (source formant_freq amplitude : list R) (bandwidth : R)
  : list R :=
  match source with
  | [] => source
  | _ => fold_left (formant_filter_step source formant_freq amplitude bandwidth)
                   (seq 0 (List.length source)) (zeros (List.length source))
  end.

(** [_generate_amplitude_envelope]. *)
Definition generate_amplitude_envelope (num_samples : nat) : list R :=
  let envelope := ones num_samples in
  if (num_samples <=? 1)%nat then envelope
  else
    let attack_samples := Nat.min (num_samples / 8) 50 in
    let decay_samples := Nat.min (num_samples / 8) 50 in
    let envelope :=
      if (0 <? attack_samples)%nat
      then linspace 0 1 attack_samples ++ skipn attack_samples envelope
      else envelope in
    if (0 <? decay_samples)%nat
    then firstn (num_samples - decay_samples) envelope ++ linspace 1 0 decay_samples
    else envelope.

Definition float_of_bool (b : bool) : R := if b then 1 else 0.

(** [np.any(a > 0)]. *)
Definition any_positive (a : list R) : bool :=
  existsb (fun v => if Rlt_dec 0 v then true else false) a.

(** [_formant_synthesis]. *)
Definition formant_synthesis (t : list R) (start_formants end_formants : Formants)
  (start_phoneme end_phoneme : string) (g : Rng) : list R * Rng :=
  match t with
  | [] => ([], g)
  | _ =>
      let n := List.length t in
      let is_voiced_start := is_voiced_phoneme start_phoneme in
      let is_voiced_end := is_voiced_phoneme end_phoneme in
      let voicing := linspace (float_of_bool is_voiced_start) (float_of_bool is_voiced_end) n in
      let f0_start := if is_voiced_start then fundamental_frequency else 0 in
      let f0_end := if is_voiced_end then fundamental_frequency else 0 in
      let f0 := linspace f0_start f0_end n in
      let f1 := linspace (F1 start_formants) (F1 end_formants) n in
      let f2 := linspace (F2 start_formants) (F2 end_formants) n in
      let f3 := linspace (F3 start_formants) (F3 end_formants) n in
      let a1 := linspace (A1 start_formants) (A1 end_formants) n in
      let a2 := linspace (A2 start_formants) (A2 end_formants) n in
      let a3 := linspace (A3 start_formants) (A3 end_formants) n in
      let (source, g') :=
        if any_positive voicing
        then (generate_pulse_train t f0 voicing, g)
        else generate_noise t start_phoneme end_phoneme g in
      let formant1 := apply_formant_filter source f1 a1 formant_bandwidth in
      let formant2 := apply_formant_filter source f2 a2 formant_bandwidth in
      let formant3 := apply_formant_filter source f3 a3 formant_bandwidth in
      let audio :=
        zip_with Rplus
          (zip_with Rplus (map (Rmult 0.5) formant1) (map (Rmult 0.3) formant2))
          (map (Rmult 0.2) formant3) in
      let envelope := generate_amplitude_envelope n in
      let audio := zip_with Rmult audio envelope in
      let peak := max_abs audio in
      if Rlt_dec 0 peak
      then (map (fun x => x / peak * 0.8) audio, g')
      else (audio, g')
  end.

(** [_synthesize_diphone]. *)
Definition synthesize_diphone (diphone : string) (g : Rng) : list R * Rng :=
  let (start_phoneme, end_phoneme) :=
    match split_dash diphone with
    | Some parts => parts
    | None => (diphone, diphone)
    end in
  let start_formants :=
    match lookup start_phoneme formant_frequencies with
    | Some f => f | None => get_default_formants end in
  let end_formants :=
    match lookup end_phoneme formant_frequencies with
    | Some f => f | None => get_default_formants end in
  let duration := get_diphone_duration start_phoneme end_phoneme in
  let num_samples := int_Q (duration * inject_Z sample_rate) in
  if (num_samples <=? 0)%Z then ([], g)
  else
    let t := linspace_open 0 (Q2R duration) (Z.to_nat num_samples) in
    formant_synthesis t start_formants end_formants start_phoneme end_phoneme g.

(** [_apply_vintage_processing]: the post-processing of the synthesizer. *)
Definition apply_vintage_processing (audio : list R) : list R :=
  match audio with
  | [] => audio
  | _ =>
      let audio :=
        if (1 <? List.length audio)%nat
        then
          let kernel_size := 3%nat in
          let kernel := map (fun x => x / INR kernel_size) (ones kernel_size) in
          convolve_same audio kernel
        else audio in
      let quantization_levels := 256 in
      map (fun x => round (x * quantization_levels / 2) * 2 / quantization_levels) audio
  end.

(** The body of the loop [for diphone in diphones] of [synthesize]: one
    audio segment per unit.  ([np.zeros] of a negative count raises; the
    pause durations and the sample rate are not negative.) *)
Definition synthesize_unit (diphone : string) (g : Rng) : list R * Rng :=
  if startswith diphone "<PAUSE" then
    let pause_duration := get_pause_duration diphone in
    let silence := zeros (Z.to_nat (int_Q (pause_duration * inject_Z sample_rate))) in
    (silence, g)
  else synthesize_diphone diphone g.

Fixpoint synthesize_units (diphones : list string) (g : Rng) : list (list R) * Rng :=
  match diphones with
  | [] => ([], g)
  | diphone :: rest =>
      let (segment, g1) := synthesize_unit diphone g in
      let (audio_segments, g2) := synthesize_units rest g1 in
      (segment :: audio_segments, g2)
  end.

(** [synthesize]. *)
Definition synthesize (phonemes : list string) (g : Rng) : list R * Rng :=
  match phonemes with
  | [] => ([], g)
  | _ =>
      let diphones := phonemes_to_diphones phonemes in
      let (audio_segments, g') := synthesize_units diphones g in
      let audio := List.concat audio_segments in
      (apply_vintage_processing audio, g')
  end.

End Synthesis.

End DiphoneSynthesizer.

(** ** [src/vintage_dsp.py] *)

Module VintageDSP.
Import Np Random.
Local Open Scope R_scope.

Section Baseline.

Variable sample_rate : Z.
Variable bit_depth : Z.

Let sr : R := IZR sample_rate.

(** [_simulate_analog_frontend]. *)
Definition simulate_analog_frontend (audio : list R) : list R :=
  let audio := map (fun x => x + 0.002 * sign x * x ^ 2) audio in
  let dc_offset := 0.001 in
  map (fun x => x + dc_offset) audio.

(** The one-pole low-pass recurrence
    [y[0] = x[0] * (1 - alpha)], [y[i] = alpha * y[i-1] + (1 - alpha) * x[i]].
    (On an empty array the Python code raises [IndexError]; no stage of
    [process] passes one.) *)
Fixpoint lowpass_loop (alpha prev : R) (audio : list R) : list R :=
  match audio with
  | [] => []
  | x :: rest =>
      let y := alpha * prev + (1 - alpha) * x in
      y :: lowpass_loop alpha y rest
  end.

Definition one_pole_lowpass (alpha : R) (audio : list R) : list R :=
  match audio with
  | [] => []
  | x0 :: rest =>
      let y0 := x0 * (1 - alpha) in
      y0 :: lowpass_loop alpha y0 rest
  end.

(** [_apply_vintage_antialiasing]. *)
Definition apply_vintage_antialiasing (audio : list R) : list R :=
  let cutoff_freq := 10000 in
  let omega := 2 * PI * cutoff_freq / sr in
  let alpha := exp (- omega) in
  if (List.length audio <=? 1)%nat then audio
  else one_pole_lowpass alpha audio.

(** The quantization of one sample, before any noise is added:
    [np.round(x * max_level) / max_level]. *)
Definition quantize (max_level : R) (x : R) : R := round (x * max_level) / max_level.

(** [max_level = 2 ** (bits - 1) - 1], for the bit depths 8, 12 and 16 of a
    valid configuration.  (At [bits = 1] the level is 0 and numpy's division
    gives NaN; at [bits <= 0] Python's power is a float.) *)
Definition max_level_of (bits : Z) : R := IZR (2 ^ (bits - 1) - 1).

(** [_apply_bit_crushing]. *)
Definition apply_bit_crushing (audio : list R) (g : Rng) : list R * Rng :=
  if (16 <=? bit_depth)%Z then (audio, g)
  else
    let max_level := max_level_of bit_depth in
    let quantized := map (quantize max_level) audio in
    let noise_amplitude := 1.0 / IZR (2 ^ bit_depth) * 0.5 in
    let (quantization_noise, g') :=
      uniform (- noise_amplitude) noise_amplitude (List.length audio) g in
    let quantized := zip_with Rplus quantized quantization_noise in
    (map (clip (-1.0) 1.0) quantized, g').

(** [_apply_sample_rate_artifacts]. *)
Definition apply_sample_rate_artifacts (audio : list R) : list R :=
  if (1 <? List.length audio)%nat then
    let t := map (fun i => INR i / sr) (seq 0 (List.length audio)) in
    let alias_freq := sr * 0.7 in
    let aliasing_signal := map (fun ti => 0.001 * sin (2 * PI * alias_freq * ti)) t in
    zip_with Rplus audio aliasing_signal
  else audio.

(** [_apply_vintage_lowpass]: a cascade of two one-pole sections. *)
Definition apply_vintage_lowpass (audio : list R) (cutoff_freq : R) : list R :=
  let omega := 2 * PI * cutoff_freq / sr in
  let alpha := exp (- omega) in
  let y1 := one_pole_lowpass alpha audio in
  let y2 := one_pole_lowpass alpha y1 in
  y2.

(** [_apply_vintage_highpass]. *)
Fixpoint highpass_loop (alpha prev_out prev_in : R) (audio : list R) : list R :=
  match audio with
  | [] => []
  | x :: rest =>
      let y := alpha * prev_out + alpha * (x - prev_in) in
      y :: highpass_loop alpha y x rest
  end.

Definition apply_vintage_highpass (audio : list R) (cutoff_freq : R) : list R :=
  let omega := 2 * PI * cutoff_freq / sr in
  let alpha := exp (- omega) in
  match audio with
  | [] | [_] => audio
  | x0 :: rest => x0 :: highpass_loop alpha x0 x0 rest
  end.

(** The loop of the peaking filters: [y1] and [y2] are [output[i-1]] and
    [output[i-2]]. *)
Fixpoint emphasis_loop (a b cos_omega_c y1 y2 : R) (audio : list R) : list R :=
  match audio with
  | [] => []
  | x :: rest =>
      let resonance := a * cos_omega_c * y1 - a * a * y2 in
      let y := x + b * resonance in
      y :: emphasis_loop a b cos_omega_c y y1 rest
  end.

(** [_apply_speech_emphasis]. *)
Definition apply_speech_emphasis (audio : list R) : list R :=
  let center_freq := 3000 in
  let gain := 1.2 in
  let omega_c := 2 * PI * center_freq / sr in
  match audio with
  | x0 :: x1 :: ((_ :: _) as rest) =>
      let a := 0.9 in
      let b := gain - 1.0 in
      x0 :: x1 :: emphasis_loop a b (cos omega_c) x1 x0 rest
  | _ => map (fun x => x * gain) audio
  end.

(** [_apply_frequency_response_shaping]. *)
Definition apply_frequency_response_shaping (audio : list R) : list R :=
  if (List.length audio <=? 1)%nat then audio
  else
    let audio := apply_vintage_lowpass audio 8000 in
    let audio := apply_vintage_highpass audio 200 in
    apply_speech_emphasis audio.

(** The envelope follower shared by the two compressors. *)
Fixpoint envelope_loop (attack_coef release_coef prev : R) (envelope : list R) : list R :=
  match envelope with
  | [] => []
  | e :: rest =>
      let s := if Rlt_dec prev e
               then attack_coef * e + (1 - attack_coef) * prev
               else release_coef * e + (1 - release_coef) * prev in
      s :: envelope_loop attack_coef release_coef s rest
  end.

Definition smooth_envelope (attack_coef release_coef : R) (envelope : list R) : list R :=
  match envelope with
  | [] => []
  | e0 :: rest => e0 :: envelope_loop attack_coef release_coef e0 rest
  end.

(** The gain of one sample, from its smoothed envelope. *)
Definition gain_reduction (threshold ratio s : R) : R :=
  if Rlt_dec threshold s
  then threshold / s * (1.0 + (s - threshold) / ratio)
  else 1.

(** [_apply_vintage_compression]. *)
Definition apply_vintage_compression (audio : list R) : list R :=
  match audio with
  | [] => audio
  | _ =>
      let threshold := 0.8 in
      let ratio := 4.0 in
      let envelope := map Rabs audio in
      let attack_coef := 0.1 in
      let release_coef := 0.001 in
      let smooth := smooth_envelope attack_coef release_coef envelope in
      zip_with Rmult audio (map (gain_reduction threshold ratio) smooth)
  end.

(** [_apply_output_stage_processing]. *)
Definition apply_output_stage_processing (audio : list R) : list R :=
  let audio := map (fun x => x + 0.001 * x ^ 2) audio in
  let audio :=
    if (1 <? List.length audio)%nat then apply_vintage_highpass audio 20 else audio in
  let audio := map (fun x => x * 0.9) audio in
  map (clip (-1.0) 1.0) audio.

(** [process]: the complete baseline chain. *)
Definition process (audio : list R) (g : Rng) : list R * Rng :=
  match audio with
  | [] => (audio, g)
  | _ =>
      let audio := simulate_analog_frontend audio in
      let audio := apply_vintage_antialiasing audio in
      let (audio, g') := apply_bit_crushing audio g in
      let audio := apply_sample_rate_artifacts audio in
      let audio := apply_frequency_response_shaping audio in
      let audio := apply_vintage_compression audio in
      let audio := apply_output_stage_processing audio in
      (audio, g')
  end.

(** [apply_sound_blaster_characteristics]. *)
Definition apply_sound_blaster_characteristics (audio : list R) (g : Rng) : list R * Rng :=
  let audio :=
    if (bit_depth =? 8)%Z
    then map (fun x => IZR (to_uint8 ((x + 1.0) * 127.5)) / 127.5 - 1.0) audio
    else audio in
  let audio := apply_vintage_lowpass audio 11000 in
  let noise_floor := -48 in
  let noise_amplitude := Rpower 10 (noise_floor / 20) in
  let (sb_noise, g') := normal 0 noise_amplitude (List.length audio) g in
  (zip_with Rplus audio sb_noise, g').

End Baseline.

End VintageDSP.

(** ** [src/enhanced_vintage_dsp.py] *)

Module EnhancedVintageDSP.
Import Np Random.
Local Open Scope R_scope.

(** The attributes set by [__init__] from the configuration dictionary. *)
Record Config : Type := mkConfig
  { sample_rate : Z;
    bit_depth : Z;
    vintage_intensity : R;
    vintage_enabled : bool;
    vintage_preset : string;
    quantization_noise : bool;
    analog_simulation : bool;
    frequency_response_shaping : bool;
    spectral_enhancement : bool;
    harmonic_enrichment : bool;
    noise_reduction : bool;
    temporal_smoothing : bool }.

(** What the configuration collaborator accepts. *)
Definition valid_config (c : Config) : Prop :=
  (8000 <= sample_rate c <= 48000)%Z /\
  (bit_depth c = 8 \/ bit_depth c = 12 \/ bit_depth c = 16)%Z /\
  0 <= vintage_intensity c <= 1.

Section Enhanced.

Variable c : Config.

Let sr : R := IZR (sample_rate c).
Let intensity : R := vintage_intensity c.

(** [max_frequency], as [_setup_quality_parameters] leaves it. *)
Definition max_frequency : R :=
  if Rlt_dec 0.8 intensity then 8000
  else if Rlt_dec 0.5 intensity then 11025
  else IZR (Z.min (sample_rate c / 2) 16000).

(** [_simulate_analog_frontend_enhanced]. *)
Definition simulate_analog_frontend_enhanced (audio : list R) (g : Rng) : list R * Rng :=
  let distortion_amount := 0.002 * intensity in
  let dc_offset := 0.001 * intensity in
  let audio := map (fun x => x + distortion_amount * sign x * x ^ 2) audio in
  let audio := map (fun x => x + dc_offset) audio in
  if (bit_depth c <=? 8)%Z then
    let thermal_noise_level := 0.0001 * intensity in
    let (thermal_noise, g') := normal 0 thermal_noise_level (List.length audio) g in
    (zip_with Rplus audio thermal_noise, g')
  else (audio, g).

(** [_apply_high_quality_lowpass]. *)
Definition apply_high_quality_lowpass (audio : list R) (cutoff_freq : R) : list R :=
  let omega := 2 * PI * cutoff_freq / sr in
  let alpha := exp (- omega) in
  let y1 := VintageDSP.one_pole_lowpass alpha audio in
  let y2 := VintageDSP.one_pole_lowpass alpha y1 in
  y2.

(** [_apply_speech_emphasis_enhanced]. *)
Definition apply_speech_emphasis_enhanced (audio : list R) (gain : R) : list R :=
  match audio with
  | x0 :: x1 :: ((_ :: _) as rest) =>
      let center_freq := 3000 in
      let omega_c := 2 * PI * center_freq / sr in
      let a := 0.95 in
      let b := (gain - 1.0) * 0.5 in
      x0 :: x1 :: VintageDSP.emphasis_loop a b (cos omega_c) x1 x0 rest
  | _ => map (fun x => x * gain) audio
  end.

(** [_apply_frequency_response_shaping_enhanced]. *)
Definition apply_frequency_response_shaping_enhanced (audio : list R) : list R :=
  if (List.length audio <=? 1)%nat then audio
  else
    let cutoff_freq := max_frequency * (1.0 - intensity * 0.3) in
    let audio :=
      if Rlt_dec intensity 0.5
      then apply_high_quality_lowpass audio cutoff_freq
      else VintageDSP.apply_vintage_lowpass (sample_rate c) audio cutoff_freq in
    let bass_cutoff := 200 * (1.0 + intensity * 0.5) in
    let audio := VintageDSP.apply_vintage_highpass (sample_rate c) audio bass_cutoff in
    if Rlt_dec 0.3 intensity then
      let emphasis_gain := 1.0 + 0.2 * intensity in
      apply_speech_emphasis_enhanced audio emphasis_gain
    else audio.

(** [_apply_enhanced_bit_crushing]. *)
Definition apply_enhanced_bit_crushing (audio : list R) (g : Rng) : list R * Rng :=
  if (16 <=? bit_depth c)%Z && (if Rlt_dec intensity 0.3 then true else false)
  then (audio, g)
  else
    let effective_bits :=
      if Rlt_dec intensity 1.0 then
        let max_bits := if (8 <? bit_depth c)%Z then 16%Z else bit_depth c in
        int (IZR (bit_depth c) + IZR (max_bits - bit_depth c) * (1.0 - intensity))
      else bit_depth c in
    let max_level := VintageDSP.max_level_of effective_bits in
    let quantized := map (VintageDSP.quantize max_level) audio in
    let (quantized, g1) :=
      if quantization_noise c && (if Rlt_dec 0 intensity then true else false) then
        let noise_amplitude := 1.0 / IZR (2 ^ effective_bits) * 0.5 * intensity in
        let (noise, g') :=
          uniform (- noise_amplitude) noise_amplitude (List.length audio) g in
        (zip_with Rplus quantized noise, g')
      else (quantized, g) in
    let (quantized, g2) :=
      if (12 <=? bit_depth c)%Z && (if Rlt_dec intensity 0.8 then true else false) then
        let dither_amplitude := 1.0 / IZR (2 ^ (effective_bits + 1)) in
        let (dither, g') :=
          triangular (- dither_amplitude) 0 dither_amplitude (List.length audio) g1 in
        (zip_with Rplus quantized dither, g')
      else (quantized, g1) in
    (map (clip (-1.0) 1.0) quantized, g2).

(** [_apply_vintage_compression_enhanced]. *)
Definition apply_vintage_compression_enhanced (audio : list R) : list R :=
  match audio with
  | [] => audio
  | _ =>
      let threshold := 0.8 - intensity * 0.2 in
      let ratio := 2.0 + intensity * 2.0 in
      let envelope := map Rabs audio in
      let attack_coef := 0.1 * (1.0 + intensity) in
      let release_coef := 0.001 * (1.0 + intensity * 2.0) in
      let smooth := VintageDSP.smooth_envelope attack_coef release_coef envelope in
      zip_with Rmult audio (map (VintageDSP.gain_reduction threshold ratio) smooth)
  end.

(** [_apply_spectral_enhancement]. *)
Definition apply_spectral_enhancement (audio : list R) : list R :=
  if (List.length audio <=? 1)%nat then audio
  else
    let harmonic_gain := 0.05 in
    zip_with Rplus audio
      (map (fun i => harmonic_gain * sin (2 * PI * INR i / sr * 1000))
           (seq 0 (List.length audio))).

(** [_apply_harmonic_enrichment]. *)
Definition apply_harmonic_enrichment (audio : list R) : list R :=
  match audio with
  | [] => audio
  | _ =>
      let harmonic_amount := 0.01 in
      let enriched := map (fun x => x + harmonic_amount * x ^ 2 * sign x) audio in
      map (clip (-1.0) 1.0) enriched
  end.

(** [_apply_noise_reduction]. *)
Definition apply_noise_reduction (audio : list R) : list R :=
  if (List.length audio <=? 1)%nat then audio
  else
    let window_size := Nat.min 512 (List.length audio / 4) in
    if (window_size <? 2)%nat then audio
    else
      let threshold := 0.01 in
      let gate_ratio := 0.5 in
      let windowed_energy :=
        convolve_same (map (fun x => x ^ 2) audio)
                      (map (fun x => x / INR window_size) (ones window_size)) in
      let gate_factor :=
        map (fun e => if Rlt_dec e threshold then gate_ratio else 1.0) windowed_energy in
      zip_with Rmult audio gate_factor.

(** [_apply_temporal_smoothing].  (On a buffer of two samples the smoothed
    array has three entries and numpy refuses the blend.) *)
Definition apply_temporal_smoothing (audio : list R) : list R :=
  if (List.length audio <=? 1)%nat then audio
  else
    let kernel_size := 3%nat in
    let kernel := map (fun x => x / INR kernel_size) (ones kernel_size) in
    let smoothed := convolve_same audio kernel in
    let blend_factor := 0.3 in
    zip_with Rplus (map (Rmult (1.0 - blend_factor)) audio)
                   (map (Rmult blend_factor) smoothed).

(** [_apply_preset_processing]. *)
Definition apply_preset_processing (audio : list R) (g : Rng) : list R * Rng :=
  if String.eqb (vintage_preset c) "dr_sbaitso" then
    VintageDSP.apply_sound_blaster_characteristics (sample_rate c) (bit_depth c) audio g
  else if String.eqb (vintage_preset c) "dr_sbaitso_enhanced" then
    let (audio, g') :=
      VintageDSP.apply_sound_blaster_characteristics (sample_rate c) (bit_depth c) audio g in
    if (12 <=? bit_depth c)%Z
    then (apply_high_quality_lowpass audio 10000, g')
    else (audio, g')
  else if String.eqb (vintage_preset c) "subtle_vintage" then
    let (audio, g') := apply_enhanced_bit_crushing audio g in
    (apply_high_quality_lowpass audio 12000, g')
  else (audio, g).

(** [_apply_vintage_processing_chain]. *)
Definition apply_vintage_processing_chain (audio : list R) (g : Rng) : list R * Rng :=
  let vintage_audio := audio in
  let (vintage_audio, g1) :=
    if analog_simulation c
    then simulate_analog_frontend_enhanced vintage_audio g
    else (vintage_audio, g) in
  let vintage_audio :=
    if frequency_response_shaping c
    then apply_frequency_response_shaping_enhanced vintage_audio
    else vintage_audio in
  let (vintage_audio, g2) := apply_enhanced_bit_crushing vintage_audio g1 in
  let vintage_audio := apply_vintage_compression_enhanced vintage_audio in
  let (vintage_audio, g3) := apply_preset_processing vintage_audio g2 in
  if Rlt_dec intensity 1.0 then
    let clean_ratio := 1.0 - intensity in
    (zip_with Rplus (map (Rmult intensity) vintage_audio) (map (Rmult clean_ratio) audio), g3)
  else (vintage_audio, g3).

(** [process]: the intensity-scalable chain. *)
Definition process (audio : list R) (g : Rng) : list R * Rng :=
  match audio with
  | [] => (audio, g)
  | _ =>
      let processed_audio := audio in
      let processed_audio :=
        if spectral_enhancement c
        then apply_spectral_enhancement processed_audio
        else processed_audio in
      let processed_audio :=
        if harmonic_enrichment c
        then apply_harmonic_enrichment processed_audio
        else processed_audio in
      let (processed_audio, g') :=
        if vintage_enabled c && (if Rlt_dec 0 intensity then true else false)
        then apply_vintage_processing_chain processed_audio g
        else (processed_audio, g) in
      let processed_audio :=
        if noise_reduction c
        then apply_noise_reduction processed_audio
        else processed_audio in
      let processed_audio :=
        if temporal_smoothing c
        then apply_temporal_smoothing processed_audio
        else processed_audio in
      (processed_audio, g')
  end.

End Enhanced.

End EnhancedVintageDSP.

(** ** Statements of the specification that are compared with the code *)

Module Spec.
Import DiphoneSynthesizer.

(** Sequencer, step 2, in the words of the specification: if either
    element of the pair is a pause marker, the pause marker is the unit;
    otherwise the unit is the diphone. *)
Definition pair_unit (cur nxt : string) : string :=
  if is_pause cur then cur
  else if is_pause nxt then nxt
  else (cur ++ "-" ++ nxt)%string.

(** [round] on an exact decimal: the nearest integer, ties to the even one. *)
Definition round_Q (q : Q) : Z :=
  let f := Qfloor q in
  match Qcompare (q - inject_Z f) (1 # 2) with
  | Lt => f
  | Gt => (f + 1)%Z
  | Eq => if Z.even f then f else (f + 1)%Z
  end.

(** The start and end phonemes of a unit that is not a pause. *)
Definition phonemes_of (unit : string) : string * string :=
  match split_dash unit with
  | Some parts => parts
  | None => (unit, unit)
  end.

(** The number of samples the specification gives to a unit:
    [round(duration * sampleRate)] for a diphone, the pause duration for a
    pause. *)
Definition rounded_unit_samples (sample_rate : Z) (unit : string) : nat :=
  if is_pause unit
  then Z.to_nat (round_Q (get_pause_duration unit * inject_Z sample_rate))
  else let (s, e) := phonemes_of unit in
       Z.to_nat (round_Q (get_diphone_duration s e * inject_Z sample_rate)).

(** The resonator recurrence of the specification, at sample [i] of the
    output [y] of a formant filter. *)
Definition resonator (sample_rate : Z) (bandwidth : R)
  (source formant_freq amplitude y : list R) (i : nat) : R :=
  let sr := IZR sample_rate in
  let r := (1 - bandwidth / sr)%R in
  let omega := (2 * PI * nth i formant_freq 0 / sr)%R in
  let amp := nth i amplitude 0%R in
  if (2 <=? i)%nat
  then (amp * nth i source 0 + 2 * r * cos omega * nth (i - 1) y 0
        - r * r * nth (i - 2) y 0)%R
  else (amp * nth i source 0)%R.

End Spec.

(** ** What the code gives to a unit *)

Module Units.
Import DiphoneSynthesizer.

(** The number of samples of the segment of a unit:
    [int(duration * sample_rate)], a truncation. *)
Definition unit_samples (sample_rate : Z) (unit : string) : nat :=
  if is_pause unit
  then Z.to_nat (Np.int_Q (get_pause_duration unit * inject_Z sample_rate))
  else let (s, e) := Spec.phonemes_of unit in
       Z.to_nat (Np.int_Q (get_diphone_duration s e * inject_Z sample_rate)).

(** A generator that has drawn nothing and draws zeros. *)
Definition rng0 : Random.Rng := Random.mkRng (fun _ => 0%R) 0.

(** The samples of the range of the output format. *)
Definition in_range (x : R) : Prop := (-1 <= x <= 1)%R.

(** The normalization step of [_formant_synthesis]: a peak that is not zero
    is brought to 0.8. *)
Definition normalized (audio : list R) : list R :=
  if Rlt_dec 0 (Np.max_abs audio)
  then map (fun x => (x / Np.max_abs audio * 0.8)%R) audio
  else audio.

End Units.

(** ** Configurations used as examples *)

Module Examples.
Import EnhancedVintageDSP.

(** 22050 Hz, 16 bits, intensity 0, every other setting at its default. *)
Definition clean_16bit : Config :=
  mkConfig 22050 16 0 true "dr_sbaitso" true true true false false false false.

(** The same with the harmonic enrichment enabled. *)
Definition enriched_16bit : Config :=
  mkConfig 22050 16 0 true "dr_sbaitso" true true true false true false false.

(** 8000 Hz, 16 bits, intensity 0, the spectral enhancement enabled. *)
Definition spectral_8k : Config :=
  mkConfig 8000 16 0 true "dr_sbaitso" true true true true false false false.

(** 22050 Hz, 8 bits, intensity 0.5, no quantization noise. *)
Definition half_vintage_8bit : Config :=
  mkConfig 22050 8 0.5 true "dr_sbaitso" false true true false false false false.

End Examples.

(** ** [src/enhanced_vintage_dsp.py]: the effective bit depth *)

Module BitDepth.
Import Np EnhancedVintageDSP.
Local Open Scope R_scope.

(** [effective_bits], as [_apply_enhanced_bit_crushing] computes it before
    it quantizes. *)
Definition effective_bits (c : Config) : Z :=
  if Rlt_dec (vintage_intensity c) 1.0 then
    let max_bits := if (8 <? bit_depth c)%Z then 16%Z else bit_depth c in
    int (IZR (bit_depth c) + IZR (max_bits - bit_depth c) * (1.0 - vintage_intensity c))
  else bit_depth c.

End BitDepth.

(** ** [src/audio_output.py] *)

Module AudioOutput.
Import Np.
Local Open Scope R_scope.

(** A buffer handed to the output: a one-dimensional array (mono), or a
    two-dimensional array with one row of samples per instant. *)
Inductive Audio : Type :=
| Mono (samples : list R)
| Frames (rows : list (list R)).

(** [len(audio_data)]. *)
Definition len (audio : Audio) : nat :=
  match audio with
  | Mono samples => List.length samples
  | Frames rows => List.length rows
  end.

(** Every sample of the buffer, row after row. *)
Definition samples_of (audio : Audio) : list R :=
  match audio with
  | Mono samples => samples
  | Frames rows => List.concat rows
  end.

(** An element-wise operation of numpy. *)
Definition elementwise (f : R -> R) (audio : Audio) : Audio :=
  match audio with
  | Mono samples => Mono (map f samples)
  | Frames rows => Frames (map (map f) rows)
  end.

(** [a[1:] = cutoff * a[1:] + (1 - cutoff) * a[:-1]] along the first axis:
    the right-hand side is computed from the old values. *)
Definition rolloff {A : Type} (mix : A -> A -> A) (a : list A) : list A :=
  match a with
  | [] => []
  | first :: rest => first :: zip_with mix rest (removelast a)
  end.

Section Device.

Variable channels : Z.

(** [_prepare_audio_data]. *)
Definition prepare_audio_data (audio_data : Audio) : Audio :=
  let audio_data :=
    match audio_data with
    | Mono samples =>
        if (channels =? 2)%Z
        then Frames (map (fun x => [x; x]) samples)
        else audio_data
    | Frames rows =>
        if (channels =? 1)%Z
        then Mono (map (fun row => sum row / INR (List.length row)) rows)
        else audio_data
    end in
  elementwise (clip (-1.0) 1.0) audio_data.

(** The saturation curve of one sample. *)
Definition saturate (saturation_threshold x : R) : R :=
  let magnitude := Rabs x in
  sign x * (if Rlt_dec saturation_threshold magnitude
            then saturation_threshold + (magnitude - saturation_threshold) * 0.3
            else magnitude).

(** [_simulate_sb_output_stage]. *)
Definition simulate_sb_output_stage (audio_data : Audio) : Audio :=
  let saturation_threshold := 0.8 in
  if existsb (fun x => if Rlt_dec saturation_threshold (Rabs x) then true else false)
             (samples_of audio_data)
  then elementwise (saturate saturation_threshold) audio_data
  else audio_data.

(** [_apply_output_amplifier_simulation]. *)
Definition apply_output_amplifier_simulation (audio_data : Audio) : Audio :=
  let harmonic_amount := 0.0005 in
  let audio_data := elementwise (fun x => x + harmonic_amount * x ^ 2 * sign x) audio_data in
  if (1 <? len audio_data)%nat then
    let cutoff := 0.95 in
    let mix := fun cur prev => cutoff * cur + (1 - cutoff) * prev in
    match audio_data with
    | Mono samples => Mono (rolloff mix samples)
    | Frames rows => Frames (rolloff (zip_with mix) rows)
    end
  else audio_data.

(** [_apply_playback_processing]. *)
Definition apply_playback_processing (audio_data : Audio) : Audio :=
  let audio_data := simulate_sb_output_stage audio_data in
  let audio_data := apply_output_amplifier_simulation audio_data in
  elementwise (clip (-0.95) 0.95) audio_data.

(** [play]: the buffer handed to the sound device, [None] when [play]
    returns without playing. *)
Definition play (audio_data : Audio) : option Audio :=
  if (len audio_data =? 0)%nat then None
  else Some (apply_playback_processing (prepare_audio_data audio_data)).

End Device.

End AudioOutput.

(** ** [src/enhanced_audio_output.py] *)

Module EnhancedAudioOutput.
Import Np AudioOutput.
Local Open Scope R_scope.

Record PaddingConfig : Type := mkPadding
  { start_silence_ms : Q;
    end_silence_ms : Q;
    fade_in_ms : Q;
    fade_out_ms : Q }.

(** The padding of [__init__] when none is given. *)
Definition default_padding : PaddingConfig := mkPadding 150 250 25 50.

Section Device.

Variable sample_rate : Z.
Variable channels : Z.
Variable padding_config : PaddingConfig.

(** [int(ms * self.sample_rate / 1000)]. *)
Definition ms_to_samples (ms : Q) : Z := int_Q (ms * inject_Z sample_rate / 1000).

(** [_add_silence_padding].  ([np.zeros] of a negative count raises; the
    padding durations are not negative.) *)
Definition add_silence_padding (audio_data : Audio) : Audio :=
  if (len audio_data =? 0)%nat then audio_data
  else
    let start_samples := Z.to_nat (ms_to_samples (start_silence_ms padding_config)) in
    let end_samples := Z.to_nat (ms_to_samples (end_silence_ms padding_config)) in
    match audio_data with
    | Mono samples => Mono (zeros start_samples ++ samples ++ zeros end_samples)
    | Frames rows =>
        let channels := List.length (hd [] rows) in
        Frames (repeat (zeros channels) start_samples ++ rows
                  ++ repeat (zeros channels) end_samples)
    end.

(** [a[:n] *= curve] and [a[-n:] *= curve], with [scale] the product of a
    sample or of a row by a scalar. *)
Definition fade_head {A : Type} (scale : A -> R -> A) (n : nat) (curve : list R)
  (a : list A) : list A :=
  zip_with scale (firstn n a) curve ++ skipn n a.

Definition fade_tail {A : Type} (scale : A -> R -> A) (n : nat) (curve : list R)
  (a : list A) : list A :=
  firstn (List.length a - n) a ++ zip_with scale (skipn (List.length a - n) a) curve.

Definition fade_in_curve (n : nat) : list R :=
  map (fun i => 0.5 * (1 - cos (PI * INR i / INR n))) (seq 0 n).

Definition fade_out_curve (n : nat) : list R :=
  map (fun i => 0.5 * (1 + cos (PI * INR i / INR n))) (seq 0 n).

Definition fade {A : Type} (scale : A -> R -> A) (fade_in_samples fade_out_samples : Z)
  (a : list A) : list A :=
  let a := if (0 <? fade_in_samples)%Z
           then fade_head scale (Z.to_nat fade_in_samples)
                          (fade_in_curve (Z.to_nat fade_in_samples)) a
           else a in
  if (0 <? fade_out_samples)%Z
  then fade_tail scale (Z.to_nat fade_out_samples)
                 (fade_out_curve (Z.to_nat fade_out_samples)) a
  else a.

(** [_apply_fades]. *)
Definition apply_fades (audio_data : Audio) : Audio :=
  if (len audio_data =? 0)%nat then audio_data
  else
    let total_samples := Z.of_nat (len audio_data) in
    let fade_in_samples :=
      Z.min (ms_to_samples (fade_in_ms padding_config)) (total_samples / 4) in
    let fade_out_samples :=
      Z.min (ms_to_samples (fade_out_ms padding_config)) (total_samples / 4) in
    match audio_data with
    | Mono samples => Mono (fade Rmult fade_in_samples fade_out_samples samples)
    | Frames rows =>
        Frames (fade (fun row c => map (fun x => x * c) row)
                     fade_in_samples fade_out_samples rows)
    end.

(** [_apply_enhanced_processing]. *)
Definition apply_enhanced_processing (audio_data : Audio) : Audio :=
  let audio_data := prepare_audio_data channels audio_data in
  let padded_audio := add_silence_padding audio_data in
  let faded_audio := apply_fades padded_audio in
  apply_playback_processing faded_audio.

(** [play]: the enhanced buffer goes through [AudioOutput.play]. *)
Definition play (audio_data : Audio) : option Audio :=
  if (len audio_data =? 0)%nat then None
  else AudioOutput.play channels (apply_enhanced_processing audio_data).

End Device.

End EnhancedAudioOutput.

(** * Properties *)

(** ** The diphone sequencer *)

Section Sequencer.
Import DiphoneSynthesizer Random.
Local Open Scope string_scope.
Local Open Scope list_scope.

Lemma prefix_empty (s : string) : String.prefix "" s = true.
Proof. destruct s; reflexivity. Qed.

(** A prefix without a dash that does not start [cur] does not start
    [cur ++ "-" ++ rest] either. *)
Lemma prefix_before_dash (pre : string) :
  split_dash pre = None ->
  forall cur rest,
    String.prefix pre cur = false ->
    String.prefix pre ((cur ++ String "-"%char rest)%string) = false.
Proof.
  induction pre as [|a pre IH]; intros Hdash cur rest Hpre.
  - rewrite prefix_empty in Hpre. discriminate.
  - simpl in Hdash.
    destruct (Ascii.eqb a "-"%char) eqn:Ha; [discriminate|].
    assert (Hdash' : split_dash pre = None)
      by (destruct (split_dash pre) as [[? ?]|]; [discriminate|reflexivity]).
    destruct cur as [|b cur]; simpl in *.
    + destruct (ascii_dec a "-"%char) as [->|]; [|reflexivity].
      rewrite Ascii.eqb_refl in Ha. discriminate.
    + destruct (ascii_dec a b); [|reflexivity].
      now apply IH.
Qed.

Lemma diphone_is_not_pause (cur nxt : string) :
  is_pause cur = false -> is_pause (cur ++ "-" ++ nxt)%string = false.
Proof.
  unfold is_pause, startswith. intros H.
  now apply prefix_before_dash.
Qed.

Lemma from_silence_is_not_pause (p : string) : is_pause ("SIL-" ++ p)%string = false.
Proof. reflexivity. Qed.

(** The unit of the pair at index [i] of the loop. *)
Lemma adjacent_units_nth (phonemes : list string) :
  forall i cur nxt,
    nth_error phonemes i = Some cur ->
    nth_error phonemes (S i) = Some nxt ->
    nth_error (adjacent_units phonemes) i =
      Some (if is_pause cur || is_pause nxt then cur else (cur ++ "-" ++ nxt)%string).
Proof.
  induction phonemes as [|a l IH]; intros i cur nxt Hc Hn.
  - destruct i; discriminate.
  - destruct l as [|b l'].
    + destruct i; simpl in Hn; [discriminate|destruct i; discriminate].
    + destruct i as [|i].
      * simpl in Hc, Hn. injection Hc as <-. injection Hn as <-. reflexivity.
      * change (adjacent_units (a :: b :: l')) with
          ((if is_pause a || is_pause b then a else (a ++ "-" ++ b)%string)
             :: adjacent_units (b :: l')).
        simpl nth_error. apply IH; assumption.
Qed.

Lemma adjacent_units_length (phonemes : list string) :
  List.length (adjacent_units phonemes) = (List.length phonemes - 1)%nat.
Proof.
  induction phonemes as [|a l IH]; [reflexivity|].
  destruct l as [|b l']; [reflexivity|].
  change (adjacent_units (a :: b :: l')) with
    ((if is_pause a || is_pause b then a else (a ++ "-" ++ b)%string)
       :: adjacent_units (b :: l')).
  simpl List.length in *. rewrite IH. lia.
Qed.

(** With a pause marker at the end, the last pair emits the element before
    the pause. *)
Lemma adjacent_units_before_pause (init : list string) (pz : string) :
  is_pause pz = true ->
  adjacent_units (init ++ [pz]) =
    adjacent_units init ++ match init with [] => [] | _ :: _ => [last init ""] end.
Proof.
  intros Hpz. induction init as [|a l IH]; [reflexivity|].
  destruct l as [|b l'].
  - simpl. rewrite Hpz, orb_true_r. reflexivity.
  - change (adjacent_units ((a :: b :: l') ++ [pz])) with
      ((if is_pause a || is_pause b then a else (a ++ "-" ++ b)%string)
         :: adjacent_units ((b :: l') ++ [pz])).
    rewrite IH.
    change (adjacent_units (a :: b :: l')) with
      ((if is_pause a || is_pause b then a else (a ++ "-" ++ b)%string)
         :: adjacent_units (b :: l')).
    reflexivity.
Qed.

(** A unit of the loop is a pause marker exactly when its left element is. *)
Lemma adjacent_units_pauses (phonemes : list string) :
  filter is_pause (adjacent_units phonemes) = filter is_pause (removelast phonemes).
Proof.
  induction phonemes as [|a l IH]; [reflexivity|].
  destruct l as [|b l']; [reflexivity|].
  change (adjacent_units (a :: b :: l')) with
    ((if is_pause a || is_pause b then a else (a ++ "-" ++ b)%string)
       :: adjacent_units (b :: l')).
  change (removelast (a :: b :: l')) with (a :: removelast (b :: l')).
  set (u := if is_pause a || is_pause b then a else (a ++ "-" ++ b)%string).
  assert (Hu : is_pause u = is_pause a).
  { subst u. destruct (is_pause a) eqn:Ha; simpl; [assumption|].
    destruct (is_pause b); [assumption|]. now apply diphone_is_not_pause. }
  change (filter is_pause (u :: adjacent_units (b :: l'))) with
    (if is_pause u then u :: filter is_pause (adjacent_units (b :: l'))
     else filter is_pause (adjacent_units (b :: l'))).
  change (filter is_pause (a :: removelast (b :: l'))) with
    (if is_pause a then a :: filter is_pause (removelast (b :: l'))
     else filter is_pause (removelast (b :: l'))).
  rewrite Hu, IH.
  destruct (is_pause a) eqn:Ha; [|reflexivity].
  subst u. reflexivity.
Qed.

Lemma sequencer_before_pause (init : list string) (pz : string) :
  is_pause pz = true ->
  phonemes_to_diphones (init ++ [pz]) =
    match init with
    | [] => []
    | p0 :: _ =>
        (if is_pause p0 then [] else [("SIL-" ++ p0)%string])
          ++ adjacent_units init ++ [last init ""]
    end.
Proof.
  intros Hpz. unfold phonemes_to_diphones.
  rewrite (adjacent_units_before_pause init pz Hpz).
  destruct init as [|p0 l].
  - simpl. rewrite Hpz. reflexivity.
  - replace (last ((p0 :: l) ++ [pz]) "") with pz by (symmetry; apply last_last).
    rewrite Hpz. simpl negb. cbv iota.
    change ((p0 :: l) ++ [pz]) with (p0 :: (l ++ [pz])). cbv iota.
    destruct (is_pause p0); simpl negb; cbv iota; rewrite app_nil_r; reflexivity.
Qed.

Lemma synthesize_nonempty (sample_rate : Z) (phonemes : list string) (g : Rng) :
  phonemes <> [] ->
  synthesize sample_rate phonemes g =
    (let (audio_segments, g') :=
       synthesize_units sample_rate (phonemes_to_diphones phonemes) g in
     (apply_vintage_processing (List.concat audio_segments), g')).
Proof. destruct phonemes; [congruence|reflexivity]. Qed.

End Sequencer.

Section SequencerClaims.
Import DiphoneSynthesizer Random.
Local Open Scope string_scope.
Local Open Scope list_scope.

(** C6, as the code has it.  For the adjacent pair [(p[i], p[i+1])] the
    sequencer emits one unit, after the leading [SIL-p[0]] diphone when there
    is one: [p[i]] itself when either element is a pause marker (the pause
    marker when [p[i]] is the pause, the bare phoneme [p[i]] when only
    [p[i+1]] is), and the diphone [p[i]-p[i+1]] otherwise. *)
Theorem adjacent_pair_unit (phonemes : list string) (i : nat) (cur nxt : string) :
  nth_error phonemes i = Some cur ->
  nth_error phonemes (S i) = Some nxt ->
  nth_error (phonemes_to_diphones phonemes)
            ((if is_pause (hd "" phonemes) then 0 else 1) + i) =
    Some (if is_pause cur || is_pause nxt then cur else (cur ++ "-" ++ nxt)%string).
Proof.
  intros Hc Hn.
  pose proof (adjacent_units_nth phonemes i cur nxt Hc Hn) as Hunit.
  assert (Hlt : (i < List.length (adjacent_units phonemes))%nat)
    by (apply nth_error_Some; rewrite Hunit; discriminate).
  unfold phonemes_to_diphones.
  destruct phonemes as [|p0 l]; [destruct i; discriminate|].
  cbn [hd].
  destruct (is_pause p0); cbn [negb app Nat.add nth_error].
  - rewrite nth_error_app1 by assumption. exact Hunit.
  - rewrite nth_error_app1 by assumption. exact Hunit.
Qed.

Lemma adjacent_pair_unit_witness :
  nth_error (phonemes_to_diphones ["AE"; "<PAUSE_SHORT>"; "N"]) 1 = Some "AE".
Proof.
  exact (adjacent_pair_unit ["AE"; "<PAUSE_SHORT>"; "N"] 0 "AE" "<PAUSE_SHORT>"
           eq_refl eq_refl).
Defined.

(** C6, as stated, fails: for the pair [("AE", "<PAUSE_SHORT>")] the unit
    emitted is the bare phoneme ["AE"], not the pause marker. *)
Lemma pause_after_phoneme_counterexample :
  ~ nth_error (phonemes_to_diphones ["AE"; "<PAUSE_SHORT>"; "N"]) 1 =
      Some (Spec.pair_unit "AE" "<PAUSE_SHORT>").
Proof. vm_compute. discriminate. Qed.

(** C9.  The sequencer maps the empty sequence to the empty unit sequence,
    the synthesis of the empty sequence is the empty buffer, and a single
    phoneme [p] that is not a pause marker gives the two diphones [SIL-p]
    and [p-SIL]. *)
Theorem sequencer_edge_cases (sample_rate : Z) (g : Rng) (p : string) :
  is_pause p = false ->
  phonemes_to_diphones [] = [] /\
  synthesize sample_rate [] g = ([], g) /\
  phonemes_to_diphones [p] = [("SIL-" ++ p)%string; (p ++ "-SIL")%string].
Proof.
  intros Hp. repeat split.
  unfold phonemes_to_diphones. cbn [last adjacent_units].
  rewrite Hp. reflexivity.
Qed.

Lemma sequencer_edge_cases_witness :
  phonemes_to_diphones [] = [] /\
  synthesize 22050 [] Units.rng0 = ([], Units.rng0) /\
  phonemes_to_diphones ["AE"] = ["SIL-AE"; "AE-SIL"].
Proof. exact (sequencer_edge_cases 22050 Units.rng0 "AE" eq_refl). Defined.

(** C10.  When the last element of the input is a pause marker [pz], the
    units are computed from the elements before it alone: [pz] is not
    emitted, the pause units emitted are as many as the pause markers before
    [pz], and the synthesized audio is the same whatever the trailing pause
    marker is.  A lone pause marker synthesizes to the empty buffer. *)
Theorem trailing_pause_dropped
  (sample_rate : Z) (init : list string) (pz pz' : string) (g : Rng) :
  is_pause pz = true ->
  is_pause pz' = true ->
  phonemes_to_diphones (init ++ [pz]) =
    match init with
    | [] => []
    | p0 :: _ =>
        (if is_pause p0 then [] else [("SIL-" ++ p0)%string])
          ++ adjacent_units init ++ [last init ""]
    end
  /\ List.length (filter is_pause (phonemes_to_diphones (init ++ [pz]))) =
     List.length (filter is_pause init)
  /\ synthesize sample_rate (init ++ [pz]) g = synthesize sample_rate (init ++ [pz']) g
  /\ synthesize sample_rate [pz] g = ([], g).
Proof.
  intros Hpz Hpz'.
  pose proof (sequencer_before_pause init pz Hpz) as Hseq.
  split; [exact Hseq|]. split; [|split].
  - rewrite Hseq. destruct init as [|p0 l]; [reflexivity|].
    rewrite !filter_app, adjacent_units_pauses.
    assert (Hhead : filter is_pause (if is_pause p0 then [] else [("SIL-" ++ p0)%string]) = [])
      by (destruct (is_pause p0); reflexivity).
    rewrite Hhead. cbn [app].
    rewrite <- filter_app, <- app_removelast_last by discriminate.
    reflexivity.
  - rewrite !synthesize_nonempty by (destruct init; discriminate).
    rewrite Hseq, (sequencer_before_pause init pz' Hpz'). reflexivity.
  - change [pz] with ([] ++ [pz]).
    rewrite synthesize_nonempty by discriminate.
    rewrite (sequencer_before_pause [] pz Hpz). reflexivity.
Qed.

Lemma trailing_pause_dropped_witness :
  phonemes_to_diphones (["HH"; "AY"] ++ ["<PAUSE_LONG>"]) = ["SIL-HH"; "HH-AY"; "AY"]
  /\ List.length (filter is_pause (phonemes_to_diphones (["HH"; "AY"] ++ ["<PAUSE_LONG>"]))) = 0%nat
  /\ synthesize 22050 (["HH"; "AY"] ++ ["<PAUSE_LONG>"]) Units.rng0 =
     synthesize 22050 (["HH"; "AY"] ++ ["<PAUSE_SHORT>"]) Units.rng0
  /\ synthesize 22050 ["<PAUSE_LONG>"] Units.rng0 = ([], Units.rng0).
Proof.
  exact (trailing_pause_dropped 22050 ["HH"; "AY"] "<PAUSE_LONG>" "<PAUSE_SHORT>"
           Units.rng0 eq_refl eq_refl).
Defined.

(** C2, as the code has it.  A diphone that touches [SIL] lasts 0.04 s, half
    of the base duration 0.08 s and not half of a table entry; any other
    diphone lasts what the table gives for its start phoneme (0.08 s when
    the start phoneme is not in the table), whatever its end phoneme.  So
    [("AE", "N")] lasts 0.10 s and [("AE", "SIL")] lasts 0.04 s. *)
Theorem diphone_duration_keyed_on_start (start_phoneme end_phoneme : string) :
  (start_phoneme = "SIL" \/ end_phoneme = "SIL" ->
   (get_diphone_duration start_phoneme end_phoneme == 0.04)%Q)
  /\ (start_phoneme <> "SIL" -> end_phoneme <> "SIL" ->
      get_diphone_duration start_phoneme end_phoneme =
        match lookup start_phoneme phoneme_durations with
        | Some duration => duration
        | None => 0.08%Q
        end)
  /\ get_diphone_duration "AE" "N" = 0.10%Q
  /\ (get_diphone_duration "AE" "SIL" == 0.04)%Q.
Proof.
  unfold get_diphone_duration. split; [|split; [|split]].
  - intros [-> | ->].
    + reflexivity.
    + rewrite String.eqb_refl, orb_true_r. reflexivity.
  - intros Hs He.
    apply String.eqb_neq in Hs, He. rewrite Hs, He. reflexivity.
  - reflexivity.
  - reflexivity.
Qed.

Lemma diphone_duration_keyed_on_start_witness :
  (get_diphone_duration "AE" "SIL" == 0.04)%Q /\
  get_diphone_duration "AE" "N" = 0.10%Q /\
  get_diphone_duration "AE" "T" = get_diphone_duration "AE" "N".
Proof.
  split; [|split].
  - apply (proj1 (diphone_duration_keyed_on_start "AE" "SIL")). right. reflexivity.
  - apply (proj1 (proj2 (diphone_duration_keyed_on_start "AE" "N"))); discriminate.
  - rewrite (proj1 (proj2 (diphone_duration_keyed_on_start "AE" "T"))) by discriminate.
    reflexivity.
Defined.

(** C2, as stated, fails: the diphone [("AE", "SIL")] does not last 0.05 s,
    half of the table entry of ["AE"]. *)
Lemma diphone_duration_AE_SIL_counterexample :
  ~ (get_diphone_duration "AE" "SIL" == 0.05)%Q.
Proof. vm_compute. discriminate. Qed.

End SequencerClaims.

(** ** Arithmetic of the numpy primitives *)

Section Primitives.
Import Np.
Local Open Scope R_scope.

Lemma Int_part_eq (x : R) (z : Z) : IZR z <= x < IZR z + 1 -> Int_part x = z.
Proof. intros H. symmetry. apply Int_part_spec. lra. Qed.

(** A tie goes to the even neighbour. *)
Lemma round_tie (x : R) (z : Z) :
  x = IZR z + 1 / 2 -> round x = IZR (if Z.even z then z else z + 1).
Proof.
  intros Hx. unfold round.
  rewrite (Int_part_eq x z) by lra.
  destruct (Rlt_dec (x - IZR z) (1 / 2)) as [H|_]; [lra|].
  destruct (Rlt_dec (1 / 2) (x - IZR z)) as [H|_]; [lra|].
  destruct (Z.even z); reflexivity.
Qed.

Lemma clip_in_range (x : R) : Units.in_range (clip (-1.0) 1.0 x).
Proof.
  unfold Units.in_range, clip, Rmin, Rmax.
  destruct (Rle_dec x (-1.0)); destruct (Rle_dec _ 1.0); lra.
Qed.

Lemma clip_inside (x : R) : -1 <= x <= 1 -> clip (-1.0) 1.0 x = x.
Proof.
  intros H. unfold clip, Rmin, Rmax.
  destruct (Rle_dec x (-1.0)); destruct (Rle_dec _ 1.0); lra.
Qed.

Lemma map_clip_in_range (l : list R) : Forall Units.in_range (map (clip (-1.0) 1.0) l).
Proof. induction l; constructor; auto using clip_in_range. Qed.

Lemma sign_pos (x : R) : 0 < x -> sign x = 1.
Proof. intros H. unfold sign. destruct (Rlt_dec 0 x); [reflexivity|lra]. Qed.

Lemma sign_zero : sign 0 = 0.
Proof. unfold sign. destruct (Rlt_dec 0 0); [lra|reflexivity]. Qed.

Lemma zip_with_length {A B C : Type} (f : A -> B -> C) (l1 : list A) :
  forall l2, List.length l1 = List.length l2 ->
             List.length (zip_with f l1 l2) = List.length l1.
Proof.
  induction l1 as [|a l1 IH]; intros [|b l2] H; simpl in *; try congruence.
  f_equal. apply IH. congruence.
Qed.

End Primitives.

(** ** The vintage processing chains *)

Section ChainClaims.
Import Np Random.
Local Open Scope R_scope.

(** C3, as the code has it.  At [bit_depth = 8] the maximal level is 127 and
    the sample 0.5 is quantized, before the noise is added, to
    [round(63.5) / 127 = 64 / 127], about 0.5039: the tie 63.5 is rounded to
    the even integer 64.  The bit-crushing stage returns that value plus the
    noise drawn, clamped. *)
Theorem bit_crushing_quantizes_half (g : Rng) :
  VintageDSP.max_level_of 8 = 127
  /\ VintageDSP.quantize (VintageDSP.max_level_of 8) 0.5 = 64 / 127
  /\ fst (VintageDSP.apply_bit_crushing 8 [0.5] g) =
     [clip (-1.0) 1.0
        (64 / 127 + nth 0 (fst (uniform (- (1.0 / IZR (2 ^ 8) * 0.5))
                                        (1.0 / IZR (2 ^ 8) * 0.5) 1 g)) 0)].
Proof.
  assert (Hmax : VintageDSP.max_level_of 8 = 127) by reflexivity.
  assert (Hq : VintageDSP.quantize (VintageDSP.max_level_of 8) 0.5 = 64 / 127).
  { rewrite Hmax. unfold VintageDSP.quantize.
    rewrite (round_tie (0.5 * 127) 63) by lra.
    reflexivity. }
  repeat split; [exact Hq|].
  unfold VintageDSP.apply_bit_crushing.
  change (16 <=? 8)%Z with false. cbv iota.
  cbn [map List.length]. rewrite Hq.
  reflexivity.
Qed.

(** C3, as stated, fails: the quantized value is not 0.4961 ([63 / 127]) to
    four decimal places. *)
Lemma bit_crushing_half_counterexample :
  ~ Rabs (VintageDSP.quantize (VintageDSP.max_level_of 8) 0.5 - 0.4961) <= 0.00005.
Proof.
  change (VintageDSP.max_level_of 8) with 127.
  unfold VintageDSP.quantize.
  rewrite (round_tie (0.5 * 127) 63) by lra.
  change (IZR (if Z.even 63 then 63 else 63 + 1)) with 64.
  unfold Rabs. destruct (Rcase_abs (64 / 127 - 0.4961)); lra.
Qed.

End ChainClaims.

Section StageClaims.
Import Np Random.
Local Open Scope R_scope.

(** C8, as the code has it.  Every stage of the baseline chain returns the
    empty buffer unchanged, and so does [process].  A buffer of one sample
    is returned unchanged by the three filter stages (anti-aliasing,
    sample-rate artifacts, frequency-response shaping) and, at 16 bits, by
    the bit-crushing stage; the analog front end, the compressor and the
    output stage apply their sample-wise transformation to it. *)
Theorem stages_on_short_buffers (sample_rate bit_depth : Z) (g : Rng) (x : R) :
  VintageDSP.simulate_analog_frontend [] = []
  /\ VintageDSP.apply_vintage_antialiasing sample_rate [] = []
  /\ VintageDSP.apply_bit_crushing bit_depth [] g = ([], g)
  /\ VintageDSP.apply_sample_rate_artifacts sample_rate [] = []
  /\ VintageDSP.apply_frequency_response_shaping sample_rate [] = []
  /\ VintageDSP.apply_vintage_compression [] = []
  /\ VintageDSP.apply_output_stage_processing sample_rate [] = []
  /\ VintageDSP.process sample_rate bit_depth [] g = ([], g)
  /\ VintageDSP.apply_vintage_antialiasing sample_rate [x] = [x]
  /\ VintageDSP.apply_sample_rate_artifacts sample_rate [x] = [x]
  /\ VintageDSP.apply_frequency_response_shaping sample_rate [x] = [x]
  /\ VintageDSP.apply_bit_crushing 16 [x] g = ([x], g)
  /\ VintageDSP.simulate_analog_frontend [x] = [x + 0.002 * sign x * x ^ 2 + 0.001]
  /\ VintageDSP.apply_vintage_compression [x] =
     [x * VintageDSP.gain_reduction 0.8 4.0 (Rabs x)]
  /\ VintageDSP.apply_output_stage_processing sample_rate [x] =
     [clip (-1.0) 1.0 ((x + 0.001 * x ^ 2) * 0.9)].
Proof.
  repeat split.
  unfold VintageDSP.apply_bit_crushing.
  destruct (16 <=? bit_depth)%Z; [reflexivity|].
  destruct g as [v n]. cbn. rewrite Nat.add_0_r. reflexivity.
Qed.

(** C8, as stated, fails: the analog front end turns the one-sample buffer
    [[0]] into [[0.001]] (the DC offset). *)
Lemma analog_frontend_counterexample :
  VintageDSP.simulate_analog_frontend [0] <> [0].
Proof.
  unfold VintageDSP.simulate_analog_frontend. cbn [map].
  rewrite sign_zero. intros H. injection H as H. lra.
Qed.

Lemma output_stage_in_range (sample_rate : Z) (audio : list R) :
  Forall Units.in_range (VintageDSP.apply_output_stage_processing sample_rate audio).
Proof. unfold VintageDSP.apply_output_stage_processing. apply map_clip_in_range. Qed.

(** C1, for the baseline chain.  Under a valid configuration (a sample rate
    in [[8000, 48000]], a bit depth of 8, 12 or 16), every sample of the
    buffer returned by [VintageDSP.process] lies in [[-1, 1]], for every
    input buffer.  (Outside these bit depths the bound is not stated: at a
    bit depth of 1 the quantization step divides by [max_level = 0].) *)
Theorem baseline_output_in_range (sample_rate bit_depth : Z) (audio : list R) (g : Rng) :
  (8000 <= sample_rate <= 48000)%Z ->
  (bit_depth = 8 \/ bit_depth = 12 \/ bit_depth = 16)%Z ->
  Forall Units.in_range (fst (VintageDSP.process sample_rate bit_depth audio g)).
Proof.
  intros _ _. unfold VintageDSP.process.
  destruct audio as [|x l]; [constructor|].
  destruct (VintageDSP.apply_bit_crushing bit_depth _ g) as [crushed g'].
  cbn [fst]. apply output_stage_in_range.
Qed.

Lemma baseline_output_in_range_witness :
  Forall Units.in_range (fst (VintageDSP.process 22050 8 [0.5; -2; 0.25] Units.rng0)).
Proof.
  apply (baseline_output_in_range 22050 8); [lia|left; reflexivity].
Defined.

(** Under [Examples.spectral_8k], a valid configuration, the input
    [[1; 1; 1]] is in range and its third output sample is
    [1 + 0.05 * sin (pi / 2) = 1.05]. *)
Lemma spectral_enhancement_peak :
  EnhancedVintageDSP.valid_config Examples.spectral_8k
  /\ Forall Units.in_range [1; 1; 1]
  /\ nth 2 (fst (EnhancedVintageDSP.process Examples.spectral_8k [1; 1; 1] Units.rng0)) 0
     = 1.05.
Proof.
  split; [|split].
  - unfold EnhancedVintageDSP.valid_config. cbn. repeat split; try lia; try lra.
  - repeat constructor; unfold Units.in_range; lra.
  - unfold EnhancedVintageDSP.process, Examples.spectral_8k.
    cbn [EnhancedVintageDSP.spectral_enhancement
      EnhancedVintageDSP.harmonic_enrichment EnhancedVintageDSP.vintage_enabled
      EnhancedVintageDSP.noise_reduction EnhancedVintageDSP.temporal_smoothing
      EnhancedVintageDSP.vintage_intensity andb].
    destruct (Rlt_dec 0 0) as [H|_]; [lra|].
    cbn [fst]. unfold EnhancedVintageDSP.apply_spectral_enhancement.
    cbn [List.length Nat.leb seq map zip_with nth EnhancedVintageDSP.sample_rate].
    replace (2 * PI * INR 2 / 8000 * 1000) with (PI / 2) by (simpl INR; field).
    rewrite sin_PI2. lra.
Qed.

(** C1, as stated, fails for the intensity-scalable chain, which has no
    final clamp: under a valid configuration with the spectral enhancement
    enabled, the input [[1; 1; 1]], itself in range, gives a sample 1.05. *)
Lemma enhanced_output_counterexample :
  ~ (forall (c : EnhancedVintageDSP.Config) (audio : list R) (g : Rng),
        EnhancedVintageDSP.valid_config c ->
        Forall Units.in_range (fst (EnhancedVintageDSP.process c audio g)))
  /\ ~ (forall (c : EnhancedVintageDSP.Config) (audio : list R) (g : Rng),
          EnhancedVintageDSP.valid_config c ->
          Forall Units.in_range audio ->
          Forall Units.in_range (fst (EnhancedVintageDSP.process c audio g))).
Proof.
  destruct spectral_enhancement_peak as (Hvalid & Hin & Hpeak).
  set (out := fst (EnhancedVintageDSP.process Examples.spectral_8k [1; 1; 1] Units.rng0))
    in *.
  assert (Hno : ~ Forall Units.in_range out).
  { intros HF. rewrite Forall_forall in HF.
    assert (Hr : Units.in_range 1.05).
    { rewrite <- Hpeak. apply HF. apply nth_In.
      destruct (Nat.lt_ge_cases 2 (List.length out)) as [Hlt|Hge]; [exact Hlt|].
      rewrite nth_overflow in Hpeak by exact Hge. lra. }
    unfold Units.in_range in Hr. lra. }
  split; intros H; apply Hno; apply H; assumption.
Qed.

Lemma within_tolerance_refl (l : list R) :
  Forall2 (fun y x => Rabs (y - x) <= 0.001) l l.
Proof.
  induction l as [|x l IH]; constructor; [|exact IH].
  replace (x - x) with 0 by ring. rewrite Rabs_R0. lra.
Qed.

(** C5, as the code has it.  With intensity 0 and the four optional stages
    (spectral enhancement, harmonic enrichment, noise reduction, temporal
    smoothing) disabled, the intensity-scalable chain returns its input
    exactly, at any bit depth: every sample is within 0.001 of the input. *)
Theorem clean_chain_is_identity (c : EnhancedVintageDSP.Config) (audio : list R) (g : Rng) :
  EnhancedVintageDSP.vintage_intensity c = 0 ->
  EnhancedVintageDSP.spectral_enhancement c = false ->
  EnhancedVintageDSP.harmonic_enrichment c = false ->
  EnhancedVintageDSP.noise_reduction c = false ->
  EnhancedVintageDSP.temporal_smoothing c = false ->
  EnhancedVintageDSP.process c audio g = (audio, g)
  /\ Forall2 (fun y x => Rabs (y - x) <= 0.001)
             (fst (EnhancedVintageDSP.process c audio g)) audio.
Proof.
  intros Hi Hs Hh Hn Ht.
  assert (Hid : EnhancedVintageDSP.process c audio g = (audio, g)).
  { unfold EnhancedVintageDSP.process. rewrite Hi, Hs, Hh, Hn, Ht.
    destruct (Rlt_dec 0 0) as [H|_]; [lra|].
    rewrite andb_false_r. destruct audio; reflexivity. }
  split; [exact Hid|].
  rewrite Hid. cbn [fst]. apply within_tolerance_refl.
Qed.

Lemma clean_chain_is_identity_witness :
  EnhancedVintageDSP.process Examples.clean_16bit [0.5; -0.25] Units.rng0
  = ([0.5; -0.25], Units.rng0)
  /\ Forall2 (fun y x => Rabs (y - x) <= 0.001)
       (fst (EnhancedVintageDSP.process Examples.clean_16bit [0.5; -0.25] Units.rng0))
       [0.5; -0.25].
Proof.
  exact (clean_chain_is_identity Examples.clean_16bit [0.5; -0.25] Units.rng0
           eq_refl eq_refl eq_refl eq_refl eq_refl).
Defined.

(** C5, as stated, fails: at 16 bits and intensity 0, with the harmonic
    enrichment enabled, the input [[0.5]] comes out as [[0.5025]]. *)
Lemma harmonic_enrichment_counterexample :
  EnhancedVintageDSP.bit_depth Examples.enriched_16bit = 16%Z
  /\ EnhancedVintageDSP.vintage_intensity Examples.enriched_16bit = 0
  /\ ~ Forall2 (fun y x => Rabs (y - x) <= 0.001)
         (fst (EnhancedVintageDSP.process Examples.enriched_16bit [0.5] Units.rng0))
         [0.5].
Proof.
  split; [reflexivity|]. split; [reflexivity|].
  unfold EnhancedVintageDSP.process, Examples.enriched_16bit.
  cbn [EnhancedVintageDSP.spectral_enhancement
      EnhancedVintageDSP.harmonic_enrichment EnhancedVintageDSP.vintage_enabled
      EnhancedVintageDSP.noise_reduction EnhancedVintageDSP.temporal_smoothing
      EnhancedVintageDSP.vintage_intensity andb].
  destruct (Rlt_dec 0 0) as [H|_]; [lra|].
  cbn [fst]. unfold EnhancedVintageDSP.apply_harmonic_enrichment. cbn [map].
  rewrite (sign_pos 0.5) by lra.
  rewrite clip_inside by lra.
  intros HF. inversion HF as [|y x l l' Hyx _]; subst.
  unfold Rabs in Hyx.
  match type of Hyx with
  | context [Rcase_abs ?e] => destruct (Rcase_abs e)
  end; lra.
Qed.

End StageClaims.

(** ** The formant filter *)

Section FormantFilter.
Import Np Random DiphoneSynthesizer.
Local Open Scope R_scope.

Lemma set_nth_length (i : nat) (v : R) (l : list R) :
  List.length (set_nth i v l) = List.length l.
Proof.
  revert i. induction l as [|x l IH]; intros [|i]; simpl; auto.
Qed.

Lemma nth_set_nth_same (i : nat) (v d : R) (l : list R) :
  (i < List.length l)%nat -> nth i (set_nth i v l) d = v.
Proof.
  revert i. induction l as [|x l IH]; intros [|i] H; simpl in *; try lia; auto.
  apply IH. lia.
Qed.

Lemma nth_set_nth_other (i j : nat) (v d : R) (l : list R) :
  i <> j -> nth j (set_nth i v l) d = nth j l d.
Proof.
  revert i j. induction l as [|x l IH]; intros [|i] [|j] H; simpl; auto; try lia.
Qed.

Variable sample_rate : Z.
Variables source formant_freq amplitude : list R.
Variable bandwidth : R.

Let step := formant_filter_step sample_rate source formant_freq amplitude bandwidth.

Lemma step_length (output : list R) (i : nat) :
  List.length (step output i) = List.length output.
Proof.
  unfold step, formant_filter_step.
  destruct (Rlt_dec _ _); [|reflexivity].
  destruct (2 <=? i)%nat; apply set_nth_length.
Qed.

Lemma step_other (output : list R) (i j : nat) :
  i <> j -> nth j (step output i) 0 = nth j output 0.
Proof.
  intros H. unfold step, formant_filter_step.
  destruct (Rlt_dec _ _); [|reflexivity].
  destruct (2 <=? i)%nat; now apply nth_set_nth_other.
Qed.

Lemma step_same (output : list R) (i : nat) :
  (i < List.length output)%nat ->
  nth i (step output i) 0 =
    if Rlt_dec 0 (nth i formant_freq 0)
    then Spec.resonator sample_rate bandwidth source formant_freq amplitude output i
    else nth i output 0.
Proof.
  intros H. unfold step, formant_filter_step, Spec.resonator.
  destruct (Rlt_dec _ _); [|reflexivity].
  destruct (2 <=? i)%nat; now apply nth_set_nth_same.
Qed.

Lemma steps_length (indices : list nat) :
  forall output, List.length (fold_left step indices output) = List.length output.
Proof.
  induction indices as [|i l IH]; intros output; simpl; [reflexivity|].
  rewrite IH. apply step_length.
Qed.

Lemma steps_other (indices : list nat) (j : nat) :
  ~ In j indices ->
  forall output, nth j (fold_left step indices output) 0 = nth j output 0.
Proof.
  induction indices as [|i l IH]; intros Hj output; simpl; [reflexivity|].
  rewrite IH by (intros H; apply Hj; now right).
  apply step_other. intros ->. apply Hj. now left.
Qed.

(** The output array after the iterations [0 .. k-1]. *)
Let run (k : nat) : list R :=
  fold_left step (seq 0 k) (zeros (List.length source)).

Lemma run_length (k : nat) : List.length (run k) = List.length source.
Proof. unfold run. rewrite steps_length. apply repeat_length. Qed.

Lemma run_succ (k : nat) : run (S k) = step (run k) k.
Proof. unfold run. rewrite seq_S, fold_left_app. reflexivity. Qed.

(** Iteration [j] is the last one that writes [output[j]]. *)
Lemma run_stable (j k k' : nat) :
  (j < k)%nat -> (k <= k')%nat -> nth j (run k') 0 = nth j (run k) 0.
Proof.
  intros Hj Hk. unfold run.
  replace k' with (k + (k' - k))%nat by lia.
  rewrite seq_app, fold_left_app.
  apply steps_other. rewrite in_seq. lia.
Qed.

Lemma run_untouched (j k : nat) : (k <= j)%nat -> nth j (run k) 0 = 0.
Proof.
  intros H. unfold run. rewrite steps_other by (rewrite in_seq; lia).
  unfold zeros. apply nth_repeat.
Qed.

Lemma resonator_ext (y y' : list R) (i : nat) :
  nth (i - 1) y 0 = nth (i - 1) y' 0 ->
  nth (i - 2) y 0 = nth (i - 2) y' 0 ->
  Spec.resonator sample_rate bandwidth source formant_freq amplitude y i =
  Spec.resonator sample_rate bandwidth source formant_freq amplitude y' i.
Proof. intros H1 H2. unfold Spec.resonator. rewrite H1, H2. reflexivity. Qed.

Lemma formant_filter_is_run :
  apply_formant_filter sample_rate source formant_freq amplitude bandwidth =
  run (List.length source).
Proof.
  unfold apply_formant_filter, run. destruct source; reflexivity.
Qed.

(** Sample [i] of the output, from the two samples before it. *)
Lemma formant_filter_nth (i : nat) :
  (i < List.length source)%nat ->
  let y := apply_formant_filter sample_rate source formant_freq amplitude bandwidth in
  nth i y 0 =
    if Rlt_dec 0 (nth i formant_freq 0)
    then Spec.resonator sample_rate bandwidth source formant_freq amplitude y i
    else 0.
Proof.
  intros Hi y. subst y. rewrite formant_filter_is_run.
  rewrite (run_stable i (S i) (List.length source)) by lia.
  rewrite run_succ, step_same by (rewrite run_length; exact Hi).
  destruct (Rlt_dec 0 (nth i formant_freq 0)).
  - destruct (Nat.ltb_spec i 2) as [Hsmall|Hbig].
    + unfold Spec.resonator.
      replace (2 <=? i)%nat with false by (symmetry; apply Nat.leb_gt; exact Hsmall).
      reflexivity.
    + apply resonator_ext; symmetry; apply run_stable; lia.
  - apply run_untouched. lia.
Qed.

Lemma formant_filter_length :
  List.length (apply_formant_filter sample_rate source formant_freq amplitude bandwidth)
  = List.length source.
Proof. rewrite formant_filter_is_run. apply run_length. Qed.

End FormantFilter.

Section FormantFilterClaims.
Import Np Random DiphoneSynthesizer.
Local Open Scope R_scope.

(** C7, as the code has it.  For every source and contours, the output [y]
    of a formant filter satisfies the resonator recurrence at every sample
    whose instantaneous frequency is positive: [y[n] = amp*x[n] +
    2*r*cos(omega)*y[n-1] - r^2*y[n-2]] for [n >= 2] and [y[n] = amp*x[n]]
    for the first two samples; at a sample whose frequency is not positive
    (the [SIL] end of a contour) the output is 0.  The filter starts from
    zero memory at every call, and only the random generator is carried
    from one unit of the utterance to the next. *)
Theorem formant_filter_recurrence
  (sample_rate : Z) (source formant_freq amplitude : list R) (bandwidth : R)
  (y : list R) (i : nat) (diphone : string) (rest : list string) (g : Rng) :
  y = apply_formant_filter sample_rate source formant_freq amplitude bandwidth ->
  (i < List.length source)%nat ->
  (0 < nth i formant_freq 0 ->
   nth i y 0 = Spec.resonator sample_rate bandwidth source formant_freq amplitude y i)
  /\ (0 < nth i formant_freq 0 -> (i < 2)%nat ->
      nth i y 0 = nth i amplitude 0 * nth i source 0)
  /\ (nth i formant_freq 0 <= 0 -> nth i y 0 = 0)
  /\ apply_formant_filter sample_rate [] formant_freq amplitude bandwidth = []
  /\ fst (synthesize_units sample_rate (diphone :: rest) g) =
     fst (synthesize_unit sample_rate diphone g)
       :: fst (synthesize_units sample_rate rest (snd (synthesize_unit sample_rate diphone g))).
Proof.
  intros -> Hi.
  pose proof (formant_filter_nth sample_rate source formant_freq amplitude bandwidth i Hi)
    as Hnth.
  cbv zeta in Hnth.
  repeat split.
  - intros Hf. rewrite Hnth at 1.
    destruct (Rlt_dec 0 (nth i formant_freq 0)); [reflexivity|lra].
  - intros Hf Hsmall. rewrite Hnth at 1.
    destruct (Rlt_dec 0 (nth i formant_freq 0)); [|lra].
    unfold Spec.resonator.
    replace (2 <=? i)%nat with false by (symmetry; apply Nat.leb_gt; exact Hsmall).
    reflexivity.
  - intros Hf. rewrite Hnth at 1.
    destruct (Rlt_dec 0 (nth i formant_freq 0)); [lra|reflexivity].
  - cbn [synthesize_units].
    destruct (synthesize_unit sample_rate diphone g) as [segment g1].
    cbn [fst snd].
    destruct (synthesize_units sample_rate rest g1) as [segments g2].
    reflexivity.
Qed.

Lemma formant_filter_recurrence_witness :
  nth 1 (apply_formant_filter 22050 [1; 1; 1] [660; 330; 0] [1; 0.5; 0] 100) 0
  = nth 1 [1; 0.5; 0] 0 * nth 1 [1; 1; 1] 0.
Proof.
  refine (proj1 (proj2 (formant_filter_recurrence 22050 [1; 1; 1] [660; 330; 0]
                          [1; 0.5; 0] 100 _ 1 "AE-SIL"%string [] Units.rng0 eq_refl _)) _ _).
  - simpl. lia.
  - simpl. lra.
  - lia.
Defined.

(** C7, as stated, fails at the last sample of a contour that ends on
    [SIL]: on three samples with the first-formant contour of [AE-SIL]
    ([660, 330, 0] Hz, amplitudes [1, 0.5, 0]) the last output is 0, and the
    recurrence would give [r - r^2] with [r = 1 - 100/22050]. *)
Lemma formant_filter_counterexample :
  nth 2 (apply_formant_filter 22050 [1; 1; 1] (linspace 660 0 3) (linspace 1 0 3) 100) 0
  <> Spec.resonator 22050 100 [1; 1; 1] (linspace 660 0 3) (linspace 1 0 3)
       (apply_formant_filter 22050 [1; 1; 1] (linspace 660 0 3) (linspace 1 0 3) 100) 2.
Proof.
  set (f := linspace 660 0 3). set (a := linspace 1 0 3).
  set (y := apply_formant_filter 22050 [1; 1; 1] f a 100).
  assert (Hf0 : nth 0 f 0 = 660) by (subst f; simpl; lra).
  assert (Hf1 : nth 1 f 0 = 330) by (subst f; simpl; lra).
  assert (Hf2 : nth 2 f 0 = 0) by reflexivity.
  assert (Ha0 : nth 0 a 0 = 1) by (subst a; simpl; lra).
  assert (Ha1 : nth 1 a 0 = 0.5) by (subst a; simpl; lra).
  assert (Ha2 : nth 2 a 0 = 0) by reflexivity.
  assert (Hlen : forall k, (k < 3)%nat -> (k < List.length [1; 1; 1])%nat)
    by (intros; simpl; lia).
  pose proof (formant_filter_nth 22050 [1; 1; 1] f a 100 0 (Hlen 0%nat ltac:(lia))) as H0.
  pose proof (formant_filter_nth 22050 [1; 1; 1] f a 100 1 (Hlen 1%nat ltac:(lia))) as H1.
  pose proof (formant_filter_nth 22050 [1; 1; 1] f a 100 2 (Hlen 2%nat ltac:(lia))) as H2.
  cbv zeta in H0, H1, H2. fold y in H0, H1, H2.
  rewrite Hf0 in H0. rewrite Hf1 in H1. rewrite Hf2 in H2.
  destruct (Rlt_dec 0 660) as [_|n]; [|lra].
  destruct (Rlt_dec 0 330) as [_|n]; [|lra].
  destruct (Rlt_dec 0 0) as [Hlt|_]; [lra|].
  unfold Spec.resonator in H0, H1 |- *.
  cbn [Nat.leb Nat.sub nth] in H0, H1 |- *.
  rewrite H2.
  assert (Hy0 : nth 0 y 0 = 1) by (rewrite H0, Ha0; cbn [nth]; lra).
  assert (Hy1 : nth 1 y 0 = 0.5) by (rewrite H1, Ha1; cbn [nth]; lra).
  rewrite Hf2, Ha2, Hy0, Hy1.
  replace (2 * PI * 0 / 22050) with 0 by (field).
  rewrite cos_0. lra.
Qed.

End FormantFilterClaims.

(** ** The length of the synthesized buffer *)

Section Lengths.
Import Np Random DiphoneSynthesizer.
Local Open Scope R_scope.

Lemma linspace_length (start stop : R) (num : nat) :
  List.length (linspace start stop num) = num.
Proof.
  unfold linspace. destruct num as [|[|m]]; try reflexivity.
  rewrite length_app, length_map, length_seq. simpl. lia.
Qed.

Lemma linspace_open_length (start stop : R) (num : nat) :
  List.length (linspace_open start stop num) = num.
Proof. unfold linspace_open. now rewrite length_map, length_seq. Qed.

Lemma cumsum_from_length (l : list R) :
  forall acc, List.length (cumsum_from acc l) = List.length l.
Proof. induction l as [|x l IH]; intros acc; simpl; auto. Qed.

Lemma removelast_length {A : Type} (l : list A) :
  List.length (removelast l) = (List.length l - 1)%nat.
Proof.
  induction l as [|x l IH]; [reflexivity|].
  destruct l as [|y l']; [reflexivity|].
  change (removelast (x :: y :: l')) with (x :: removelast (y :: l')).
  simpl List.length in *. rewrite IH. lia.
Qed.

Lemma take_length (n : nat) (g : Rng) : List.length (fst (take n g)) = n.
Proof. unfold take. cbn [fst]. now rewrite length_map, length_seq. Qed.

Lemma normal_length (mu sigma : R) (n : nat) (g : Rng) :
  List.length (fst (normal mu sigma n g)) = n.
Proof.
  unfold normal. pose proof (take_length n g) as H.
  destruct (take n g) as [zs g']. cbn [fst] in *. now rewrite length_map.
Qed.

Variable sample_rate : Z.

Lemma pulse_train_length (t f0 voicing : list R) (n : nat) :
  (0 < n)%nat -> List.length f0 = n -> List.length voicing = n ->
  List.length (generate_pulse_train sample_rate t f0 voicing) = n.
Proof.
  intros Hn Hf Hv. unfold generate_pulse_train.
  rewrite zip_with_length; rewrite length_map; cbn [List.length];
    rewrite length_map; unfold cumsum; rewrite cumsum_from_length, length_map,
      removelast_length; lia.
Qed.

Lemma highpass_filter_loop_length (alpha : R) (signal : list R) :
  forall prev_out prev_in,
    List.length (highpass_filter_loop alpha prev_out prev_in signal) = List.length signal.
Proof. induction signal as [|x l IH]; intros; simpl; auto. Qed.

Lemma highpass_filter_length (signal : list R) (cutoff_freq : R) :
  List.length (apply_highpass_filter sample_rate signal cutoff_freq) = List.length signal.
Proof.
  unfold apply_highpass_filter.
  destruct signal as [|x0 [|x1 l]]; try reflexivity.
  cbn [List.length]. now rewrite highpass_filter_loop_length.
Qed.

Lemma burst_shaping_length (noise : list R) :
  List.length (apply_burst_shaping noise) = List.length noise.
Proof.
  unfold apply_burst_shaping.
  set (d := Nat.min (List.length noise / 4) 100).
  assert (Hd : (d <= List.length noise)%nat).
  { subst d. pose proof (Nat.Div0.div_le_upper_bound (List.length noise) 4 (List.length noise)).
    lia. }
  apply zip_with_length.
  destruct (0 <? d)%nat.
  - rewrite length_app, length_map, linspace_length, length_skipn.
    unfold ones. rewrite repeat_length. lia.
  - unfold ones. now rewrite repeat_length.
Qed.

Lemma generate_noise_length (t : list R) (start_phoneme end_phoneme : string) (g : Rng) :
  List.length (fst (generate_noise sample_rate t start_phoneme end_phoneme g))
  = List.length t.
Proof.
  unfold generate_noise.
  pose proof (normal_length 0 1 (List.length t) g) as H.
  destruct (normal 0 1 (List.length t) g) as [noise g']. cbn [fst] in H.
  destruct (_ || _); cbn [fst].
  - now rewrite highpass_filter_length.
  - destruct (_ || _); cbn [fst]; [now rewrite burst_shaping_length|assumption].
Qed.

Lemma amplitude_envelope_length (num_samples : nat) :
  List.length (generate_amplitude_envelope num_samples) = num_samples.
Proof.
  unfold generate_amplitude_envelope, ones.
  destruct (num_samples <=? 1)%nat; [apply repeat_length|].
  set (d := Nat.min (num_samples / 8) 50).
  assert (Hd : (d <= num_samples)%nat).
  { subst d. pose proof (Nat.Div0.div_le_upper_bound num_samples 8 num_samples). lia. }
  assert (Hattack : List.length
            (if (0 <? d)%nat
             then linspace 0 1 d ++ skipn d (repeat 1 num_samples)
             else repeat 1 num_samples) = num_samples).
  { destruct (0 <? d)%nat; [|apply repeat_length].
    rewrite length_app, linspace_length, length_skipn, repeat_length. lia. }
  destruct (0 <? d)%nat eqn:Hpos; [|exact Hattack].
  rewrite length_app, length_firstn, linspace_length, Hattack. lia.
Qed.

Lemma formant_synthesis_length (t : list R) (start_formants end_formants : Formants)
  (start_phoneme end_phoneme : string) (g : Rng) :
  List.length (fst (formant_synthesis sample_rate t start_formants end_formants
                      start_phoneme end_phoneme g))
  = List.length t.
Proof.
  unfold formant_synthesis.
  destruct t as [|t0 t']; [reflexivity|].
  set (t := t0 :: t'). set (n := List.length t).
  assert (Hn : (0 < n)%nat) by (subst n t; simpl; lia).
  set (voicing := linspace _ _ n).
  set (f0 := linspace _ _ n).
  assert (Hsrc : forall src_g : list R * Rng,
             src_g = (if any_positive voicing
                      then (generate_pulse_train sample_rate t f0 voicing, g)
                      else generate_noise sample_rate t start_phoneme end_phoneme g) ->
             List.length (fst src_g) = n).
  { intros src_g ->. destruct (any_positive voicing); cbn [fst].
    - apply pulse_train_length; [exact Hn| |]; apply linspace_length.
    - apply generate_noise_length. }
  destruct (if any_positive voicing then _ else _) as [source g'] eqn:Hs.
  specialize (Hsrc _ eq_refl). cbn [fst] in Hsrc.
  set (audio := zip_with Rmult _ (generate_amplitude_envelope n)).
  assert (Haudio : List.length audio = n).
  { subst audio.
    rewrite zip_with_length; rewrite zip_with_length;
      try rewrite zip_with_length;
      rewrite ?length_map, ?formant_filter_length, ?amplitude_envelope_length;
      congruence. }
  destruct (Rlt_dec 0 (max_abs audio)); cbn [fst]; [rewrite length_map|]; exact Haudio.
Qed.

End Lengths.

Section BufferLength.
Import Np Random DiphoneSynthesizer.
Local Open Scope R_scope.

Variable sample_rate : Z.

Lemma synthesize_diphone_length (diphone : string) (g : Rng) :
  List.length (fst (synthesize_diphone sample_rate diphone g)) =
  (let (s, e) := Spec.phonemes_of diphone in
   Z.to_nat (int_Q (get_diphone_duration s e * inject_Z sample_rate))).
Proof.
  unfold synthesize_diphone.
  change (match split_dash diphone with
          | Some parts => parts
          | None => (diphone, diphone)
          end) with (Spec.phonemes_of diphone).
  destruct (Spec.phonemes_of diphone) as [s e].
  destruct (Z.leb_spec (int_Q (get_diphone_duration s e * inject_Z sample_rate)) 0)
    as [Hle|Hgt].
  - cbn [fst List.length]. lia.
  - rewrite formant_synthesis_length. apply linspace_open_length.
Qed.

Lemma synthesize_unit_length (unit : string) (g : Rng) :
  List.length (fst (synthesize_unit sample_rate unit g)) =
  Units.unit_samples sample_rate unit.
Proof.
  unfold synthesize_unit, Units.unit_samples.
  change (startswith unit "<PAUSE") with (is_pause unit).
  destruct (is_pause unit).
  - cbn [fst]. apply repeat_length.
  - apply synthesize_diphone_length.
Qed.

Lemma synthesize_units_length (units : list string) :
  forall g,
    List.length (List.concat (fst (synthesize_units sample_rate units g))) =
    list_sum (map (Units.unit_samples sample_rate) units).
Proof.
  induction units as [|u l IH]; intros g; [reflexivity|].
  cbn [synthesize_units map list_sum].
  pose proof (synthesize_unit_length u g) as Hu.
  destruct (synthesize_unit sample_rate u g) as [segment g1].
  specialize (IH g1).
  destruct (synthesize_units sample_rate l g1) as [segments g2].
  cbn [fst List.concat] in *.
  rewrite length_app, Hu, IH. reflexivity.
Qed.

Lemma convolve_same_length (a v : list R) :
  List.length (convolve_same a v) = Nat.max (List.length a) (List.length v).
Proof. unfold convolve_same. now rewrite length_map, length_seq. Qed.

(** The post-processing keeps the length of the buffer, but for a buffer
    of two samples. *)
Lemma vintage_processing_length (audio : list R) :
  List.length audio <> 2%nat ->
  List.length (apply_vintage_processing audio) = List.length audio.
Proof.
  intros Hlen. unfold apply_vintage_processing.
  destruct audio as [|x l]; [reflexivity|].
  rewrite length_map.
  destruct (Nat.ltb_spec 1 (List.length (x :: l))) as [Hlong|Hshort]; [|reflexivity].
  rewrite convolve_same_length, length_map.
  unfold ones. rewrite repeat_length. lia.
Qed.

Lemma lookup_in {V : Type} (key : string) (d : list (string * V)) (v : V) :
  lookup key d = Some v -> In (key, v) d.
Proof.
  induction d as [|[k w] d IH]; simpl; [discriminate|].
  destruct (String.eqb_spec key k) as [->|Hne].
  - intros [= ->]. now left.
  - intros H. right. now apply IH.
Qed.

Lemma diphone_duration_lower_bound (s e : string) :
  (0.02 <= get_diphone_duration s e)%Q.
Proof.
  unfold get_diphone_duration.
  destruct (_ || _); [discriminate|].
  destruct (lookup s phoneme_durations) as [d|] eqn:Hd; [|discriminate].
  apply lookup_in in Hd.
  assert (Hall : forallb (fun kv => Qle_bool 0.02 (snd kv)) phoneme_durations = true)
    by reflexivity.
  rewrite forallb_forall in Hall.
  apply Qle_bool_iff. exact (Hall _ Hd).
Qed.

Lemma pause_duration_lower_bound (marker : string) :
  (0.02 <= get_pause_duration marker)%Q.
Proof.
  unfold get_pause_duration.
  repeat (destruct (contains _ marker)); discriminate.
Qed.

Lemma samples_lower_bound (d : Q) :
  (8000 <= sample_rate)%Z -> (0.02 <= d)%Q ->
  (3 <= Z.to_nat (int_Q (d * inject_Z sample_rate)))%nat.
Proof.
  intros Hsr Hd. destruct d as [n m].
  unfold Qle in Hd. cbn [Qnum Qden] in Hd.
  unfold int_Q, Qmult, inject_Z. cbn [Qnum Qden].
  assert (3 <= (n * sample_rate) ÷ Z.pos (m * 1))%Z; [|lia].
  apply Z.quot_le_lower_bound; [lia|].
  rewrite Pos.mul_1_r. nia.
Qed.

Lemma unit_samples_lower_bound (unit : string) :
  (8000 <= sample_rate)%Z -> (3 <= Units.unit_samples sample_rate unit)%nat.
Proof.
  intros Hsr. unfold Units.unit_samples.
  destruct (is_pause unit).
  - apply samples_lower_bound; [exact Hsr|apply pause_duration_lower_bound].
  - destruct (Spec.phonemes_of unit) as [s e].
    apply samples_lower_bound; [exact Hsr|apply diphone_duration_lower_bound].
Qed.

Lemma list_sum_not_two (l : list nat) :
  Forall (fun n => (3 <= n)%nat) l -> list_sum l <> 2%nat.
Proof.
  intros H. destruct H as [|n l Hn _]; simpl; [discriminate|lia].
Qed.

(** The length of the buffer returned by [synthesize], from the units of
    the sequencer. *)
Lemma synthesize_length (phonemes : list string) (g : Rng) :
  (8000 <= sample_rate)%Z ->
  List.length (fst (synthesize sample_rate phonemes g)) =
  list_sum (map (Units.unit_samples sample_rate) (phonemes_to_diphones phonemes)).
Proof.
  intros Hsr. destruct phonemes as [|p l]; [reflexivity|].
  rewrite synthesize_nonempty by discriminate.
  pose proof (synthesize_units_length (phonemes_to_diphones (p :: l)) g) as Hunits.
  destruct (synthesize_units sample_rate (phonemes_to_diphones (p :: l)) g)
    as [segments g'].
  cbn [fst] in *.
  rewrite vintage_processing_length; [exact Hunits|].
  rewrite Hunits. apply list_sum_not_two.
  apply Forall_forall. intros n Hn.
  apply in_map_iff in Hn. destruct Hn as (u & <- & _).
  now apply unit_samples_lower_bound.
Qed.

End BufferLength.

Section BufferLengthClaims.
Import Np Random DiphoneSynthesizer.

(** C4, as the code has it.  At a valid sample rate (8000 Hz or more), the
    length of the synthesized buffer is the sum, over the units emitted by
    the sequencer, of [int(duration * sampleRate)] samples per unit: a
    truncation, not a rounding, with the duration of the diphone for a
    diphone or a bare phoneme and the pause duration for a pause marker that
    is emitted. *)
Theorem synthesized_buffer_length (sample_rate : Z) (phonemes : list string) (g : Rng) :
  (8000 <= sample_rate)%Z ->
  List.length (fst (synthesize sample_rate phonemes g)) =
  list_sum (map (Units.unit_samples sample_rate) (phonemes_to_diphones phonemes)).
Proof. apply synthesize_length. Qed.

Lemma synthesized_buffer_length_witness :
  List.length (fst (synthesize 22050 ["HH"; "EH"; "L"; "OW"]%string Units.rng0)) =
  list_sum (map (Units.unit_samples 22050)
                (phonemes_to_diphones ["HH"; "EH"; "L"; "OW"]%string)).
Proof.
  apply (synthesized_buffer_length 22050 ["HH"; "EH"; "L"; "OW"]%string Units.rng0).
  lia.
Defined.

(** C4, as stated, fails: at 11025 Hz the diphone [B-AE] lasts
    [0.06 * 11025 = 661.5] samples, the code keeps 661 of them and the
    buffer of [["B"; "AE"]] has 1543 samples, where the rounded segment
    lengths add up to 1544. *)
Lemma synthesized_buffer_length_counterexample :
  List.length (fst (synthesize 11025 ["B"; "AE"]%string Units.rng0)) <>
  list_sum (map (Spec.rounded_unit_samples 11025) (phonemes_to_diphones ["B"; "AE"]%string)).
Proof.
  rewrite synthesize_length by lia.
  vm_compute. discriminate.
Qed.

End BufferLengthClaims.

(** * Further properties of the synthesizer *)

Section Amplitudes.
Import Np Random DiphoneSynthesizer.
Local Open Scope R_scope.

Lemma Rabs_le_bounds (a b : R) : Rabs a <= b -> - b <= a <= b.
Proof. unfold Rabs. destruct (Rcase_abs a); lra. Qed.

Lemma max_abs_nonneg (l : list R) : 0 <= max_abs l.
Proof.
  induction l as [|x l IH]; simpl; [lra|].
  apply Rle_trans with (Rabs x); [apply Rabs_pos|apply Rmax_l].
Qed.

Lemma max_abs_ge (l : list R) (x : R) : In x l -> Rabs x <= max_abs l.
Proof.
  induction l as [|y l IH]; simpl; [tauto|].
  intros [->|H].
  - apply Rmax_l.
  - apply Rle_trans with (max_abs l); [now apply IH|apply Rmax_r].
Qed.

Lemma max_abs_scale (k : R) (l : list R) :
  0 <= k -> max_abs (map (fun x => x * k) l) = max_abs l * k.
Proof.
  intros Hk. induction l as [|x l IH]; simpl; [ring|].
  rewrite IH, Rabs_mult, (Rabs_right k) by lra.
  rewrite !(Rmult_comm _ k). apply RmaxRmult. exact Hk.
Qed.

Lemma Forall_zip_with {A B C : Type} (f : A -> B -> C) (P : C -> Prop) (Q : B -> Prop)
  (l1 : list A) :
  (forall a b, Q b -> P (f a b)) ->
  forall l2, Forall Q l2 -> Forall P (zip_with f l1 l2).
Proof.
  intros Hf. induction l1 as [|a l1 IH]; intros [|b l2] H; simpl; constructor;
    inversion H; subst; auto.
Qed.

Lemma zip_with_nth (f : R -> R -> R) (l1 : list R) :
  forall l2 i,
    (i < List.length l1)%nat -> (i < List.length l2)%nat ->
    nth i (zip_with f l1 l2) 0 = f (nth i l1 0) (nth i l2 0).
Proof.
  induction l1 as [|a l1 IH]; intros [|b l2] [|i] H1 H2; simpl in *; try lia; auto.
  apply IH; lia.
Qed.

(** Every contour of the synthesizer stays between its two targets. *)
Lemma linspace_between (start stop : R) (num : nat) :
  Forall (fun x => Rmin start stop <= x <= Rmax start stop) (linspace start stop num).
Proof.
  assert (Hmin1 := Rmin_l start stop). assert (Hmin2 := Rmin_r start stop).
  assert (Hmax1 := Rmax_l start stop). assert (Hmax2 := Rmax_r start stop).
  unfold linspace. destruct num as [|[|m]].
  - constructor.
  - constructor; [lra|constructor].
  - apply Forall_app. split.
    + apply Forall_forall. intros x Hx.
      apply in_map_iff in Hx. destruct Hx as (i & <- & Hi).
      apply in_seq in Hi.
      assert (Hm : 0 < INR (S m)) by (apply lt_0_INR; lia).
      assert (Hi0 : 0 <= INR i) by apply pos_INR.
      assert (Him : INR i <= INR (S m)) by (apply le_INR; lia).
      set (t := INR i / INR (S m)).
      assert (Ht : 0 <= t <= 1).
      { subst t. split.
        - apply Rmult_le_pos; [exact Hi0|]. left. now apply Rinv_0_lt_compat.
        - apply Rmult_le_reg_r with (INR (S m)); [exact Hm|].
          unfold Rdiv. rewrite Rmult_assoc, Rinv_l by lra. lra. }
      replace (start + INR i * ((stop - start) / INR (S m)))
        with (start + t * (stop - start)) by (subst t; field; lra).
      destruct (Rle_dec start stop); nra.
    + constructor; [lra|constructor].
Qed.

Lemma linspace_first (start stop : R) (num : nat) :
  (0 < num)%nat -> nth 0 (linspace start stop num) 0 = start.
Proof.
  intros H. unfold linspace. destruct num as [|[|m]]; [lia|reflexivity|].
  cbn [seq map app nth]. simpl INR. lra.
Qed.

Lemma linspace_last (start stop : R) (num : nat) :
  (2 <= num)%nat -> nth (num - 1) (linspace start stop num) 0 = stop.
Proof.
  intros H. unfold linspace. destruct num as [|[|m]]; try lia.
  rewrite app_nth2; rewrite length_map, length_seq; [|lia].
  replace (S (S m) - 1 - S m)%nat with 0%nat by lia. reflexivity.
Qed.

Lemma float_of_bool_unit (b : bool) : 0 <= float_of_bool b <= 1.
Proof. destruct b; simpl; lra. Qed.

Variable sample_rate : Z.

(** The sawtooth of the voiced source. *)
Lemma sawtooth_in_range (u : R) : -1 <= 2 * (u - floor (u + 0.5)) <= 1.
Proof.
  unfold floor.
  destruct (base_Int_part (u + 0.5)) as [H1 H2]. lra.
Qed.

Lemma pulse_train_in_range (t f0 voicing : list R) :
  Forall (fun v => 0 <= v <= 1) voicing ->
  Forall Units.in_range (generate_pulse_train sample_rate t f0 voicing).
Proof.
  intros Hv. unfold generate_pulse_train.
  set (phase := 0 :: _).
  generalize phase. clear phase. intros phase.
  revert voicing Hv.
  induction phase as [|ph phase IH]; intros [|v voicing] Hv; simpl; constructor.
  - inversion Hv as [|? ? Hv0 _]; subst.
    pose proof (sawtooth_in_range (ph / (2 * PI))) as Hs.
    unfold Units.in_range. nra.
  - apply IH. now inversion Hv.
Qed.

End Amplitudes.

Section Segments.
Import Np Random DiphoneSynthesizer.
Local Open Scope R_scope.

Lemma nth_map_zero (f : R -> R) (l : list R) (i : nat) :
  f 0 = 0 -> nth i (map f l) 0 = f (nth i l 0).
Proof.
  intros Hf. revert i. induction l as [|x l IH]; intros [|i]; simpl; auto.
Qed.

Lemma normalized_bound (audio : list R) :
  Forall (fun x => Rabs x <= 0.8) (Units.normalized audio).
Proof.
  unfold Units.normalized. apply Forall_forall. intros y Hy.
  destruct (Rlt_dec 0 (max_abs audio)) as [Hpos|Hzero].
  - apply in_map_iff in Hy. destruct Hy as (x & <- & Hx).
    pose proof (max_abs_ge audio x Hx) as Hle.
    unfold Rdiv. rewrite !Rabs_mult, (Rabs_right 0.8) by lra.
    rewrite (Rabs_right (/ max_abs audio))
      by (left; now apply Rinv_0_lt_compat).
    assert (Rabs x * / max_abs audio <= 1); [|lra].
    apply Rmult_le_reg_r with (max_abs audio); [exact Hpos|].
    rewrite Rmult_assoc, Rinv_l by lra. lra.
  - pose proof (max_abs_ge audio y Hy). pose proof (max_abs_nonneg audio). lra.
Qed.

Lemma normalized_peak (audio : list R) :
  max_abs (Units.normalized audio) = 0.8 \/ Forall (fun x => x = 0) (Units.normalized audio).
Proof.
  unfold Units.normalized.
  destruct (Rlt_dec 0 (max_abs audio)) as [Hpos|Hzero].
  - left.
    rewrite (map_ext _ (fun x => x * (0.8 / max_abs audio)))
      by (intros; field; lra).
    rewrite max_abs_scale.
    + field. lra.
    + apply Rmult_le_pos; [lra|]. left. now apply Rinv_0_lt_compat.
  - right. apply Forall_forall. intros x Hx.
    pose proof (max_abs_ge audio x Hx). pose proof (max_abs_nonneg audio).
    assert (Hx0 : Rabs x = 0) by (pose proof (Rabs_pos x); lra).
    destruct (Req_dec x 0) as [|Hne]; [assumption|].
    apply Rabs_no_R0 in Hne. contradiction.
Qed.

Lemma normalized_length (audio : list R) :
  List.length (Units.normalized audio) = List.length audio.
Proof. unfold Units.normalized. destruct (Rlt_dec _ _); [apply length_map|reflexivity]. Qed.

Lemma normalized_zero (audio : list R) (i : nat) :
  nth i audio 0 = 0 -> nth i (Units.normalized audio) 0 = 0.
Proof.
  intros H. unfold Units.normalized.
  destruct (Rlt_dec 0 (max_abs audio)) as [Hpos|_]; [|exact H].
  rewrite nth_map_zero by (field; lra).
  rewrite H. field. lra.
Qed.

Variable sample_rate : Z.

(** The segment of [_formant_synthesis]: a mix of the three filtered
    channels, times the envelope, normalized. *)
Lemma formant_synthesis_shape (t : list R) (start_formants end_formants : Formants)
  (start_phoneme end_phoneme : string) (g : Rng) :
  t <> [] ->
  exists mix : list R,
    List.length mix = List.length t /\
    fst (formant_synthesis sample_rate t start_formants end_formants
           start_phoneme end_phoneme g)
    = Units.normalized (zip_with Rmult mix (generate_amplitude_envelope (List.length t))).
Proof.
  intros Ht. unfold formant_synthesis.
  destruct t as [|t0 t']; [congruence|].
  set (t := t0 :: t'). set (n := List.length t).
  assert (Hn : (0 < n)%nat) by (subst n t; simpl; lia).
  set (voicing := linspace _ _ n).
  set (f0 := linspace _ _ n).
  assert (Hsrc : forall src_g : list R * Rng,
             src_g = (if any_positive voicing
                      then (generate_pulse_train sample_rate t f0 voicing, g)
                      else generate_noise sample_rate t start_phoneme end_phoneme g) ->
             List.length (fst src_g) = n).
  { intros src_g ->. destruct (any_positive voicing); cbn [fst].
    - apply pulse_train_length; [exact Hn| |]; apply linspace_length.
    - apply generate_noise_length. }
  destruct (if any_positive voicing then _ else _) as [source g'] eqn:Hs.
  specialize (Hsrc _ eq_refl). cbn [fst] in Hsrc.
  match goal with
  | |- context [zip_with Rmult ?m (generate_amplitude_envelope n)] => exists m
  end.
  split.
  - rewrite zip_with_length; rewrite ?zip_with_length;
      rewrite ?length_map, ?formant_filter_length, ?linspace_length; congruence.
  - unfold Units.normalized. destruct (Rlt_dec 0 _); reflexivity.
Qed.

Lemma formant_synthesis_bound (t : list R) (start_formants end_formants : Formants)
  (start_phoneme end_phoneme : string) (g : Rng) :
  Forall (fun x => Rabs x <= 0.8)
    (fst (formant_synthesis sample_rate t start_formants end_formants
            start_phoneme end_phoneme g)).
Proof.
  destruct t as [|t0 t'] eqn:Ht; [constructor|].
  destruct (formant_synthesis_shape (t0 :: t') start_formants end_formants
              start_phoneme end_phoneme g) as (mix & _ & ->); [discriminate|].
  apply normalized_bound.
Qed.

Lemma synthesize_diphone_bound (diphone : string) (g : Rng) :
  Forall (fun x => Rabs x <= 0.8) (fst (synthesize_diphone sample_rate diphone g)).
Proof.
  unfold synthesize_diphone.
  destruct (match split_dash diphone with Some parts => parts | None => _ end) as [s e].
  destruct (_ <=? 0)%Z; [constructor|].
  apply formant_synthesis_bound.
Qed.

Lemma synthesize_unit_bound (unit : string) (g : Rng) :
  Forall (fun x => Rabs x <= 0.8) (fst (synthesize_unit sample_rate unit g)).
Proof.
  unfold synthesize_unit. destruct (startswith unit "<PAUSE").
  - cbn [fst]. unfold zeros. apply Forall_forall. intros x Hx.
    apply repeat_spec in Hx. subst. rewrite Rabs_R0. lra.
  - apply synthesize_diphone_bound.
Qed.

Lemma synthesize_units_bound (units : list string) :
  forall g, Forall (fun x => Rabs x <= 0.8)
              (List.concat (fst (synthesize_units sample_rate units g))).
Proof.
  induction units as [|u l IH]; intros g; [constructor|].
  cbn [synthesize_units].
  pose proof (synthesize_unit_bound u g) as Hu.
  destruct (synthesize_unit sample_rate u g) as [segment g1].
  specialize (IH g1).
  destruct (synthesize_units sample_rate l g1) as [segments g2].
  cbn [fst List.concat] in *. apply Forall_app. split; assumption.
Qed.

End Segments.

Section Envelope.
Import Np Random DiphoneSynthesizer.
Local Open Scope R_scope.

(** With 16 samples or more the envelope starts and ends at 0. *)
Lemma amplitude_envelope_ends (num_samples : nat) :
  (16 <= num_samples)%nat ->
  nth 0 (generate_amplitude_envelope num_samples) 0 = 0
  /\ nth (num_samples - 1) (generate_amplitude_envelope num_samples) 0 = 0.
Proof.
  intros Hn. unfold generate_amplitude_envelope, ones.
  replace (num_samples <=? 1)%nat with false by (symmetry; apply Nat.leb_gt; lia).
  set (d := Nat.min (num_samples / 8) 50).
  assert (Hd : (2 <= d /\ 8 * d <= num_samples)%nat).
  { subst d. pose proof (Nat.Div0.mul_div_le num_samples 8).
    assert (2 <= num_samples / 8)%nat by (apply Nat.div_le_lower_bound; lia). lia. }
  replace (0 <? d)%nat with true by (symmetry; apply Nat.ltb_lt; lia).
  split.
  - rewrite app_nth1
      by (rewrite length_firstn, length_app, linspace_length, length_skipn, repeat_length; lia).
    rewrite nth_firstn.
    replace (0 <? num_samples - d)%nat with true by (symmetry; apply Nat.ltb_lt; lia).
    rewrite app_nth1 by (rewrite linspace_length; lia).
    apply linspace_first. lia.
  - rewrite app_nth2;
      rewrite length_firstn, length_app, linspace_length, length_skipn, repeat_length;
      [|lia].
    replace (num_samples - 1 - Nat.min (num_samples - d) (d + (num_samples - d)))%nat
      with (d - 1)%nat by lia.
    apply linspace_last. lia.
Qed.

Variable sample_rate : Z.

Lemma formant_synthesis_ends (t : list R) (start_formants end_formants : Formants)
  (start_phoneme end_phoneme : string) (g : Rng) :
  (16 <= List.length t)%nat ->
  let segment := fst (formant_synthesis sample_rate t start_formants end_formants
                        start_phoneme end_phoneme g) in
  nth 0 segment 0 = 0 /\ nth (List.length t - 1) segment 0 = 0.
Proof.
  intros Hn segment. subst segment.
  destruct (formant_synthesis_shape sample_rate t start_formants end_formants
              start_phoneme end_phoneme g) as (mix & Hmix & ->).
  { destruct t; [simpl in Hn; lia|discriminate]. }
  destruct (amplitude_envelope_ends (List.length t) Hn) as [H0 H1].
  split; apply normalized_zero;
    rewrite zip_with_nth by (rewrite ?amplitude_envelope_length; lia).
  - rewrite H0. ring.
  - rewrite H1. ring.
Qed.

End Envelope.

Section Smoothing.
Import Np.
Local Open Scope R_scope.

Lemma sum_abs (l : list R) : Rabs (sum l) <= sum (map Rabs l).
Proof.
  induction l as [|x l IH]; simpl.
  - rewrite Rabs_R0. lra.
  - eapply Rle_trans; [apply Rabs_triang|]. lra.
Qed.

Lemma sum_le {A : Type} (f h : A -> R) (l : list A) :
  (forall x, In x l -> f x <= h x) -> sum (map f l) <= sum (map h l).
Proof.
  induction l as [|x l IH]; intros H; simpl; [lra|].
  assert (f x <= h x) by (apply H; now left).
  assert (sum (map f l) <= sum (map h l)) by (apply IH; intros; apply H; now right).
  lra.
Qed.

Lemma sum_scale {A : Type} (k : R) (f : A -> R) (l : list A) :
  sum (map (fun x => k * f x) l) = k * sum (map f l).
Proof. induction l as [|x l IH]; simpl; [ring|rewrite IH; ring]. Qed.

Lemma nth_abs_bound (a : list R) (M : R) (j : nat) :
  0 <= M -> Forall (fun x => Rabs x <= M) a -> Rabs (nth j a 0) <= M.
Proof.
  intros HM Ha. destruct (Nat.lt_ge_cases j (List.length a)) as [Hlt|Hge].
  - rewrite Forall_forall in Ha. apply Ha. now apply nth_In.
  - rewrite nth_overflow by exact Hge. rewrite Rabs_R0. exact HM.
Qed.

Lemma sum_cons (x : R) (l : list R) : sum (x :: l) = x + sum l.
Proof. reflexivity. Qed.

Lemma sum_app (l1 l2 : list R) : sum (l1 ++ l2) = sum l1 + sum l2.
Proof.
  induction l1 as [|x l1 IH]; [simpl; ring|].
  rewrite <- app_comm_cons, !sum_cons, IH. ring.
Qed.

Lemma sum_nonneg {A : Type} (f : A -> R) (l : list A) :
  (forall x, 0 <= f x) -> 0 <= sum (map f l).
Proof.
  intros Hf. induction l as [|x l IH]; [simpl; lra|].
  cbn [map]. rewrite sum_cons. pose proof (Hf x). lra.
Qed.

(** The weights met by entry [k] of a convolution are weights of the
    kernel, each met once. *)
Lemma kernel_weights_from (w : nat -> R) (k n : nat) :
  (forall i, 0 <= w i) ->
  forall s,
    sum (map (fun j => if (j <=? k)%nat then w (k - j)%nat else 0) (seq s n))
    <= sum (map w (seq 0 (S k - s))).
Proof.
  intros Hw. induction n as [|n IH]; intros s.
  - cbn [seq map]. change (sum []) with 0. now apply sum_nonneg.
  - cbn [seq map]. rewrite sum_cons. specialize (IH (S s)).
    destruct (Nat.leb_spec s k) as [Hle|Hgt].
    + replace (S k - s)%nat with (S (k - s)) by lia.
      rewrite seq_S, map_app, sum_app.
      replace (S k - S s)%nat with (k - s)%nat in IH by lia.
      cbn [map Nat.add]. rewrite sum_cons. change (sum []) with 0. lra.
    + replace (S k - s)%nat with 0%nat by lia.
      replace (S k - S s)%nat with 0%nat in IH by lia.
      cbn [seq map] in *. change (sum []) with 0 in *. lra.
Qed.

Lemma nth_weights (v : list R) (m : nat) :
  sum (map (fun i => Rabs (nth i v 0)) (seq 0 m)) <= sum (map Rabs v).
Proof.
  revert m. induction v as [|x v IH]; intros m.
  - cbn [map]. change (sum []) with 0.
    rewrite (map_ext _ (fun _ => 0)) by (intros [|i]; apply Rabs_R0).
    induction (seq 0 m) as [|i l IHl]; [simpl; lra|].
    cbn [map]. rewrite sum_cons. lra.
  - cbn [map]. rewrite sum_cons.
    destruct m as [|m].
    + cbn [seq map]. change (sum []) with 0.
      pose proof (Rabs_pos x). pose proof (sum_nonneg Rabs v Rabs_pos). lra.
    + cbn [seq map]. rewrite sum_cons, <- seq_shift, map_map.
      specialize (IH m). cbn [nth]. lra.
Qed.

(** A convolution is bounded by the peak of the signal times the weight of
    the kernel. *)
Lemma conv_full_at_bound (a v : list R) (M : R) (k : nat) :
  0 <= M -> Forall (fun x => Rabs x <= M) a ->
  Rabs (conv_full_at a v k) <= M * sum (map Rabs v).
Proof.
  intros HM Ha. unfold conv_full_at.
  eapply Rle_trans; [apply sum_abs|]. rewrite map_map.
  apply Rle_trans with
    (sum (map (fun j => M * (if (j <=? k)%nat then Rabs (nth (k - j) v 0) else 0))
              (seq 0 (List.length a)))).
  - apply sum_le. intros j _.
    destruct (j <=? k)%nat.
    + rewrite Rabs_mult. apply Rmult_le_compat_r; [apply Rabs_pos|].
      now apply nth_abs_bound.
    + rewrite Rabs_R0. lra.
  - rewrite sum_scale. apply Rmult_le_compat_l; [exact HM|].
    eapply Rle_trans.
    + apply (kernel_weights_from (fun i => Rabs (nth i v 0))). intros. apply Rabs_pos.
    + apply nth_weights.
Qed.

(** The length-3 moving average keeps the peak of the signal. *)
Lemma moving_average_bound (audio : list R) (M : R) :
  0 <= M -> Forall (fun x => Rabs x <= M) audio ->
  Forall (fun x => Rabs x <= M)
    (convolve_same audio (map (fun x => x / INR 3) (ones 3))).
Proof.
  intros HM Ha. unfold convolve_same. apply Forall_forall. intros y Hy.
  apply in_map_iff in Hy. destruct Hy as (i & <- & _).
  eapply Rle_trans; [apply conv_full_at_bound; eassumption|].
  simpl. rewrite !Rabs_right by lra. lra.
Qed.

(** [np.round] returns an integer at distance 1/2 at most. *)
Lemma round_nearest (y : R) : exists z : Z, round y = IZR z /\ Rabs (IZR z - y) <= 1 / 2.
Proof.
  unfold round. destruct (base_Int_part y) as [H1 H2].
  set (f := Int_part y) in *.
  destruct (Rlt_dec (y - IZR f) (1 / 2)) as [Hlo|Hlo].
  - exists f. split; [reflexivity|]. apply Rabs_le. lra.
  - assert (Hup : Rabs (IZR (f + 1) - y) <= 1 / 2)
      by (rewrite plus_IZR; apply Rabs_le; lra).
    destruct (Rlt_dec (1 / 2) (y - IZR f)) as [Hhi|Hhi].
    + exists (f + 1)%Z. split; [reflexivity|exact Hup].
    + destruct (Z.even f).
      * exists f. split; [reflexivity|]. apply Rabs_le. lra.
      * exists (f + 1)%Z. split; [reflexivity|exact Hup].
Qed.

End Smoothing.

Section SynthesizerProperties.
Import Np Random DiphoneSynthesizer.
Local Open Scope R_scope.

Lemma samples_lower_bound_160 (sample_rate : Z) (d : Q) :
  (8000 <= sample_rate)%Z -> (0.02 <= d)%Q ->
  (160 <= int_Q (d * inject_Z sample_rate))%Z.
Proof.
  intros Hsr Hd. destruct d as [n m].
  unfold Qle in Hd. cbn [Qnum Qden] in Hd.
  unfold int_Q, Qmult, inject_Z. cbn [Qnum Qden].
  apply Z.quot_le_lower_bound; [lia|].
  rewrite Pos.mul_1_r. nia.
Qed.

(** X1.  Every sample of a diphone segment has magnitude 0.8 at most, and
    the peak of the segment is exactly 0.8 unless the segment is silent. *)
Theorem diphone_segment_peak (sample_rate : Z) (diphone : string) (g : Rng) :
  Forall (fun x => Rabs x <= 0.8) (fst (synthesize_diphone sample_rate diphone g))
  /\ (max_abs (fst (synthesize_diphone sample_rate diphone g)) = 0.8
      \/ Forall (fun x => x = 0) (fst (synthesize_diphone sample_rate diphone g))).
Proof.
  split; [apply synthesize_diphone_bound|].
  unfold synthesize_diphone.
  destruct (match split_dash diphone with Some parts => parts | None => _ end) as [s e].
  destruct (Z.leb_spec (int_Q (get_diphone_duration s e * inject_Z sample_rate)) 0)
    as [Hle|Hgt]; [right; constructor|].
  match goal with
  | |- context [formant_synthesis ?sr ?t ?sf ?ef ?sp ?ep ?g0] =>
      destruct (formant_synthesis_shape sr t sf ef sp ep g0) as (mix & _ & ->)
  end.
  - intros Hnil. apply (f_equal (@List.length R)) in Hnil.
    rewrite linspace_open_length in Hnil. simpl in Hnil. lia.
  - apply normalized_peak.
Qed.

(** X2.  Every sample of the buffer returned by [synthesize] is a multiple
    of 1/128 of magnitude 102/128 at most: the output is on the 8-bit grid
    and inside [[-1, 1]]. *)
Theorem synthesize_on_8bit_grid (sample_rate : Z) (phonemes : list string) (g : Rng) :
  (0 <= sample_rate)%Z ->
  Forall (fun x => exists k : Z, (-102 <= k <= 102)%Z /\ x = IZR k / 128)
         (fst (synthesize sample_rate phonemes g)).
Proof.
  intros _.
  destruct phonemes as [|p l]; [constructor|].
  rewrite synthesize_nonempty by discriminate.
  pose proof (synthesize_units_bound sample_rate (phonemes_to_diphones (p :: l)) g) as Hb.
  destruct (synthesize_units sample_rate (phonemes_to_diphones (p :: l)) g)
    as [segments g'].
  cbn [fst] in *. set (audio := List.concat segments) in *.
  unfold apply_vintage_processing.
  destruct audio as [|x0 rest] eqn:Haudio; [constructor|].
  rewrite <- Haudio in *. clear Haudio.
  assert (Hsmooth : Forall (fun x => Rabs x <= 0.8)
            (if (1 <? List.length audio)%nat
             then convolve_same audio (map (fun x => x / INR 3) (ones 3))
             else audio)).
  { destruct (1 <? List.length audio)%nat; [|exact Hb].
    apply moving_average_bound; [lra|exact Hb]. }
  apply Forall_forall. intros y Hy.
  apply in_map_iff in Hy. destruct Hy as (x & <- & Hx).
  rewrite Forall_forall in Hsmooth. specialize (Hsmooth x Hx).
  destruct (round_nearest (x * 256 / 2)) as (z & -> & Hz).
  exists z. split; [|field].
  apply Rabs_le_bounds in Hz. apply Rabs_le_bounds in Hsmooth.
  split.
  - assert (IZR (-103) < IZR z) by lra. apply lt_IZR in H. lia.
  - assert (IZR z < IZR 103) by lra. apply lt_IZR in H. lia.
Qed.

Lemma synthesize_on_8bit_grid_witness :
  Forall (fun x => exists k : Z, (-102 <= k <= 102)%Z /\ x = IZR k / 128)
         (fst (synthesize 22050 ["HH"; "AY"; "<PAUSE_SHORT>"; "N"]%string Units.rng0)).
Proof. apply (synthesize_on_8bit_grid 22050). lia. Defined.

(** X3.  At a sample rate of 8000 Hz or more every diphone segment has 160
    samples or more, and its first and last samples are exactly 0. *)
Theorem diphone_segment_ends_at_zero (sample_rate : Z) (diphone : string) (g : Rng) :
  (8000 <= sample_rate)%Z ->
  (160 <= List.length (fst (synthesize_diphone sample_rate diphone g)))%nat
  /\ nth 0 (fst (synthesize_diphone sample_rate diphone g)) 0 = 0
  /\ nth (List.length (fst (synthesize_diphone sample_rate diphone g)) - 1)
         (fst (synthesize_diphone sample_rate diphone g)) 0 = 0.
Proof.
  intros Hsr.
  pose proof (synthesize_diphone_length sample_rate diphone g) as Hlen.
  rewrite Hlen. clear Hlen.
  unfold synthesize_diphone.
  change (match split_dash diphone with
          | Some parts => parts
          | None => (diphone, diphone)
          end) with (Spec.phonemes_of diphone).
  destruct (Spec.phonemes_of diphone) as [s e].
  pose proof (samples_lower_bound_160 sample_rate (get_diphone_duration s e) Hsr
                (diphone_duration_lower_bound s e)) as Hbig.
  set (num := int_Q (get_diphone_duration s e * inject_Z sample_rate)) in *.
  replace (num <=? 0)%Z with false by (symmetry; apply Z.leb_gt; lia).
  split; [lia|].
  match goal with
  | |- context [formant_synthesis ?sr ?t ?sf ?ef ?sp ?ep ?g0] =>
      pose proof (formant_synthesis_ends sr t sf ef sp ep g0) as Hends
  end.
  rewrite linspace_open_length in Hends.
  apply Hends. lia.
Qed.

Lemma diphone_segment_ends_at_zero_witness :
  (160 <= List.length (fst (synthesize_diphone 22050 "AE-N" Units.rng0)))%nat
  /\ nth 0 (fst (synthesize_diphone 22050 "AE-N" Units.rng0)) 0 = 0
  /\ nth (List.length (fst (synthesize_diphone 22050 "AE-N" Units.rng0)) - 1)
         (fst (synthesize_diphone 22050 "AE-N" Units.rng0)) 0 = 0.
Proof.
  apply (diphone_segment_ends_at_zero 22050 "AE-N" Units.rng0). lia.
Defined.

(** X4.  For a non-empty input the sequencer emits one unit per adjacent
    pair, plus a leading [SIL-] diphone when the first element is not a
    pause marker and a trailing [-SIL] diphone when the last one is not. *)
Theorem sequencer_unit_count (phonemes : list string) :
  phonemes <> [] ->
  List.length (phonemes_to_diphones phonemes) =
  (List.length phonemes - 1
   + (if is_pause (hd ""%string phonemes) then 0 else 1)
   + (if is_pause (last phonemes ""%string) then 0 else 1))%nat.
Proof.
  intros Hne. unfold phonemes_to_diphones.
  rewrite !length_app, adjacent_units_length.
  destruct phonemes as [|p0 l]; [congruence|].
  cbn [hd]. destruct (is_pause p0); destruct (is_pause (last (p0 :: l) ""%string));
    cbn [negb List.length]; lia.
Qed.

Lemma sequencer_unit_count_witness :
  List.length (phonemes_to_diphones ["HH"; "EH"; "L"; "OW"]%string) = 5%nat.
Proof.
  exact (sequencer_unit_count ["HH"; "EH"; "L"; "OW"]%string ltac:(discriminate)).
Defined.

(** X5.  A diphone name [cur-nxt] built by the sequencer is parsed back
    into [cur] and [nxt] when [cur] holds no dash, and its segment has the
    duration of the diphone [(cur, nxt)]. *)
Theorem diphone_name_round_trip (sample_rate : Z) (cur nxt : string) (g : Rng) :
  split_dash cur = None ->
  split_dash (cur ++ "-" ++ nxt)%string = Some (cur, nxt)
  /\ List.length (fst (synthesize_diphone sample_rate (cur ++ "-" ++ nxt)%string g)) =
     Z.to_nat (int_Q (get_diphone_duration cur nxt * inject_Z sample_rate)).
Proof.
  intros Hcur.
  assert (Hsplit : split_dash (cur ++ "-" ++ nxt)%string = Some (cur, nxt)).
  { clear g. induction cur as [|c cur IH]; [reflexivity|].
    simpl in *. destruct (Ascii.eqb c "-"%char); [discriminate|].
    destruct (split_dash cur) as [[a b]|] eqn:Hs; [discriminate|].
    rewrite IH by reflexivity. reflexivity. }
  split; [exact Hsplit|].
  rewrite synthesize_diphone_length. unfold Spec.phonemes_of.
  rewrite Hsplit. reflexivity.
Qed.

Lemma diphone_name_round_trip_witness :
  split_dash ("AE" ++ "-" ++ "N")%string = Some ("AE", "N")%string
  /\ List.length (fst (synthesize_diphone 22050 ("AE" ++ "-" ++ "N")%string Units.rng0)) =
     Z.to_nat (int_Q (get_diphone_duration "AE" "N" * inject_Z 22050)).
Proof. exact (diphone_name_round_trip 22050 "AE" "N" Units.rng0 eq_refl). Defined.

(** X6.  A contour of [_formant_synthesis] ([np.linspace] between the
    targets of the two phonemes, on two samples or more) starts at the
    start target, ends at the end target and stays between the two: it is
    constant when the targets are equal. *)
Theorem contour_between_targets (start stop : R) (num : nat) :
  (2 <= num)%nat ->
  nth 0 (linspace start stop num) 0 = start
  /\ nth (num - 1) (linspace start stop num) 0 = stop
  /\ Forall (fun x => Rmin start stop <= x <= Rmax start stop) (linspace start stop num)
  /\ Forall (fun x => x = start) (linspace start start num).
Proof.
  intros Hn. split; [apply linspace_first; lia|].
  split; [now apply linspace_last|].
  split; [apply linspace_between|].
  pose proof (linspace_between start start num) as H.
  rewrite Forall_forall in *. intros x Hx. specialize (H x Hx).
  rewrite Rmin_left, Rmax_left in H by lra. lra.
Qed.

Lemma contour_between_targets_witness :
  nth 0 (linspace 660 250 3) 0 = 660
  /\ nth (3 - 1) (linspace 660 250 3) 0 = 250
  /\ Forall (fun x => Rmin 660 250 <= x <= Rmax 660 250) (linspace 660 250 3)
  /\ Forall (fun x => x = 660) (linspace 660 660 3).
Proof. apply (contour_between_targets 660 250 3). lia. Defined.

(** X7.  The voiced source stays in [[-1, 1]] when the voicing weights are
    in [[0, 1]], whatever the pitch contour is. *)
Theorem voiced_source_in_range (sample_rate : Z) (t f0 voicing : list R) :
  sample_rate <> 0%Z ->
  List.length f0 = List.length t ->
  List.length voicing = List.length t ->
  Forall (fun v => 0 <= v <= 1) voicing ->
  Forall Units.in_range (generate_pulse_train sample_rate t f0 voicing).
Proof. intros _ _ _. apply pulse_train_in_range. Qed.

Lemma voiced_source_in_range_witness :
  Forall Units.in_range
    (generate_pulse_train 22050 (linspace_open 0 0.04 3) (linspace 120 0 3) (linspace 1 0 3)).
Proof.
  apply (voiced_source_in_range 22050); [lia|reflexivity|reflexivity|].
  pose proof (linspace_between 1 0 3) as H.
  rewrite Rmin_right, Rmax_left in H by lra. exact H.
Defined.

End SynthesizerProperties.

(** * Further properties of the processing chains *)

Section ChainLengths.
Import Np Random.
Local Open Scope R_scope.

Lemma uniform_length (lo hi : R) (n : nat) (g : Rng) :
  List.length (fst (uniform lo hi n g)) = n.
Proof.
  unfold uniform. pose proof (take_length n g) as H.
  destruct (take n g) as [us g']. cbn [fst] in *. now rewrite length_map.
Qed.

Lemma triangular_length (left mode right : R) (n : nat) (g : Rng) :
  List.length (fst (triangular left mode right n g)) = n.
Proof.
  unfold triangular. pose proof (take_length n g) as H.
  destruct (take n g) as [ws g']. cbn [fst] in *. now rewrite length_map.
Qed.

Lemma lowpass_loop_length (alpha : R) (audio : list R) :
  forall prev, List.length (VintageDSP.lowpass_loop alpha prev audio) = List.length audio.
Proof. induction audio as [|x l IH]; intros; simpl; auto. Qed.

Lemma one_pole_lowpass_length (alpha : R) (audio : list R) :
  List.length (VintageDSP.one_pole_lowpass alpha audio) = List.length audio.
Proof. destruct audio; simpl; [reflexivity|]. now rewrite lowpass_loop_length. Qed.

Lemma vintage_lowpass_length (sample_rate : Z) (audio : list R) (cutoff_freq : R) :
  List.length (VintageDSP.apply_vintage_lowpass sample_rate audio cutoff_freq)
  = List.length audio.
Proof.
  unfold VintageDSP.apply_vintage_lowpass. now rewrite !one_pole_lowpass_length.
Qed.

Lemma high_quality_lowpass_length (c : EnhancedVintageDSP.Config) (audio : list R)
  (cutoff_freq : R) :
  List.length (EnhancedVintageDSP.apply_high_quality_lowpass c audio cutoff_freq)
  = List.length audio.
Proof.
  unfold EnhancedVintageDSP.apply_high_quality_lowpass.
  now rewrite !one_pole_lowpass_length.
Qed.

Lemma vintage_highpass_loop_length (alpha : R) (audio : list R) :
  forall prev_out prev_in,
    List.length (VintageDSP.highpass_loop alpha prev_out prev_in audio) = List.length audio.
Proof. induction audio as [|x l IH]; intros; simpl; auto. Qed.

Lemma vintage_highpass_length (sample_rate : Z) (audio : list R) (cutoff_freq : R) :
  List.length (VintageDSP.apply_vintage_highpass sample_rate audio cutoff_freq)
  = List.length audio.
Proof.
  unfold VintageDSP.apply_vintage_highpass.
  destruct audio as [|x0 [|x1 l]]; try reflexivity.
  cbn [List.length]. now rewrite vintage_highpass_loop_length.
Qed.

Lemma emphasis_loop_length (a b w : R) (audio : list R) :
  forall y1 y2, List.length (VintageDSP.emphasis_loop a b w y1 y2 audio) = List.length audio.
Proof. induction audio as [|x l IH]; intros; simpl; auto. Qed.

Lemma speech_emphasis_length (sample_rate : Z) (audio : list R) :
  List.length (VintageDSP.apply_speech_emphasis sample_rate audio) = List.length audio.
Proof.
  unfold VintageDSP.apply_speech_emphasis.
  destruct audio as [|x0 [|x1 [|x2 l]]]; try (now rewrite length_map).
  cbn [List.length]. now rewrite emphasis_loop_length.
Qed.

Lemma speech_emphasis_enhanced_length (c : EnhancedVintageDSP.Config) (audio : list R)
  (gain : R) :
  List.length (EnhancedVintageDSP.apply_speech_emphasis_enhanced c audio gain)
  = List.length audio.
Proof.
  unfold EnhancedVintageDSP.apply_speech_emphasis_enhanced.
  destruct audio as [|x0 [|x1 [|x2 l]]]; try (now rewrite length_map).
  cbn [List.length]. now rewrite emphasis_loop_length.
Qed.

Lemma envelope_loop_length (a r : R) (envelope : list R) :
  forall prev, List.length (VintageDSP.envelope_loop a r prev envelope) = List.length envelope.
Proof. induction envelope as [|x l IH]; intros; simpl; auto. Qed.

Lemma smooth_envelope_length (a r : R) (envelope : list R) :
  List.length (VintageDSP.smooth_envelope a r envelope) = List.length envelope.
Proof. destruct envelope; simpl; [reflexivity|]. now rewrite envelope_loop_length. Qed.

Lemma compression_length (audio : list R) :
  List.length (VintageDSP.apply_vintage_compression audio) = List.length audio.
Proof.
  unfold VintageDSP.apply_vintage_compression.
  destruct audio as [|x l]; [reflexivity|].
  apply zip_with_length. now rewrite !length_map, smooth_envelope_length, length_map.
Qed.

Lemma compression_enhanced_length (c : EnhancedVintageDSP.Config) (audio : list R) :
  List.length (EnhancedVintageDSP.apply_vintage_compression_enhanced c audio)
  = List.length audio.
Proof.
  unfold EnhancedVintageDSP.apply_vintage_compression_enhanced.
  destruct audio as [|x l]; [reflexivity|].
  apply zip_with_length. now rewrite !length_map, smooth_envelope_length, length_map.
Qed.

Lemma bit_crushing_length (bit_depth : Z) (audio : list R) (g : Rng) :
  List.length (fst (VintageDSP.apply_bit_crushing bit_depth audio g)) = List.length audio.
Proof.
  unfold VintageDSP.apply_bit_crushing.
  destruct (16 <=? bit_depth)%Z; [reflexivity|].
  match goal with
  | |- context [uniform ?lo ?hi ?n g] =>
      pose proof (uniform_length lo hi n g) as Hu; destruct (uniform lo hi n g) as [noise g']
  end.
  cbn [fst] in *. rewrite length_map, zip_with_length; rewrite length_map; congruence.
Qed.

Lemma frequency_response_shaping_length (sample_rate : Z) (audio : list R) :
  List.length (VintageDSP.apply_frequency_response_shaping sample_rate audio)
  = List.length audio.
Proof.
  unfold VintageDSP.apply_frequency_response_shaping.
  destruct (List.length audio <=? 1)%nat; [reflexivity|].
  now rewrite speech_emphasis_length, vintage_highpass_length, vintage_lowpass_length.
Qed.

Lemma sample_rate_artifacts_length (sample_rate : Z) (audio : list R) :
  List.length (VintageDSP.apply_sample_rate_artifacts sample_rate audio)
  = List.length audio.
Proof.
  unfold VintageDSP.apply_sample_rate_artifacts.
  destruct (1 <? List.length audio)%nat; [|reflexivity].
  apply zip_with_length. now rewrite !length_map, length_seq.
Qed.

Lemma output_stage_length (sample_rate : Z) (audio : list R) :
  List.length (VintageDSP.apply_output_stage_processing sample_rate audio)
  = List.length audio.
Proof.
  unfold VintageDSP.apply_output_stage_processing.
  rewrite !length_map.
  destruct (1 <? _)%nat; [rewrite vintage_highpass_length|]; now rewrite length_map.
Qed.

Lemma antialiasing_length (sample_rate : Z) (audio : list R) :
  List.length (VintageDSP.apply_vintage_antialiasing sample_rate audio)
  = List.length audio.
Proof.
  unfold VintageDSP.apply_vintage_antialiasing.
  destruct (_ <=? 1)%nat; [reflexivity|apply one_pole_lowpass_length].
Qed.

Lemma analog_frontend_length (audio : list R) :
  List.length (VintageDSP.simulate_analog_frontend audio) = List.length audio.
Proof. unfold VintageDSP.simulate_analog_frontend. now rewrite !length_map. Qed.

(** X8.  The baseline chain returns a buffer of the length of its input,
    whatever the bit depth and the random draws are. *)
Theorem baseline_preserves_length (sample_rate bit_depth : Z) (audio : list R) (g : Rng) :
  sample_rate <> 0%Z ->
  List.length (fst (VintageDSP.process sample_rate bit_depth audio g))
  = List.length audio.
Proof.
  intros _. unfold VintageDSP.process.
  destruct audio as [|x l]; [reflexivity|].
  set (audio := x :: l).
  pose proof (bit_crushing_length bit_depth
                (VintageDSP.apply_vintage_antialiasing sample_rate
                   (VintageDSP.simulate_analog_frontend audio)) g) as Hc.
  destruct (VintageDSP.apply_bit_crushing bit_depth _ g) as [crushed g'].
  cbn [fst] in *.
  rewrite output_stage_length, compression_length, frequency_response_shaping_length,
    sample_rate_artifacts_length, Hc, antialiasing_length, analog_frontend_length.
  reflexivity.
Qed.

Lemma baseline_preserves_length_witness :
  List.length (fst (VintageDSP.process 22050 8 [0.5; -0.25; 0.125] Units.rng0))
  = List.length [0.5; -0.25; 0.125].
Proof. apply (baseline_preserves_length 22050 8). lia. Defined.

End ChainLengths.

Section Filters.
Import Np Random.
Local Open Scope R_scope.

(** The pole of the one-pole filters lies in (0, 1]. *)
Lemma pole_in_unit (sample_rate : Z) (cutoff_freq : R) :
  (0 < sample_rate)%Z -> 0 <= cutoff_freq ->
  0 < exp (- (2 * PI * cutoff_freq / IZR sample_rate)) <= 1.
Proof.
  intros Hsr Hc. split; [apply exp_pos|].
  assert (Hsr' : 0 < IZR sample_rate) by (apply (IZR_lt 0); exact Hsr).
  assert (Hw : 0 <= 2 * PI * cutoff_freq / IZR sample_rate).
  { apply Rmult_le_pos; [|left; now apply Rinv_0_lt_compat].
    pose proof PI_RGT_0. nra. }
  destruct Hw as [Hpos|Hzero].
  - left. rewrite <- exp_0. apply exp_increasing. lra.
  - rewrite <- Hzero, Ropp_0, exp_0. lra.
Qed.

Lemma lowpass_loop_bound (alpha M : R) (audio : list R) :
  0 <= alpha <= 1 ->
  forall prev,
    Rabs prev <= M -> Forall (fun x => Rabs x <= M) audio ->
    Forall (fun y => Rabs y <= M) (VintageDSP.lowpass_loop alpha prev audio).
Proof.
  intros Ha. induction audio as [|x l IH]; intros prev Hp Hall; simpl; constructor;
    inversion Hall as [|? ? Hx Hl]; subst.
  - apply Rabs_le_bounds in Hp, Hx. apply Rabs_le. nra.
  - apply IH; [|exact Hl].
    apply Rabs_le_bounds in Hp, Hx. apply Rabs_le. nra.
Qed.

Lemma one_pole_lowpass_bound (alpha M : R) (audio : list R) :
  0 <= alpha <= 1 ->
  Forall (fun x => Rabs x <= M) audio ->
  Forall (fun y => Rabs y <= M) (VintageDSP.one_pole_lowpass alpha audio).
Proof.
  intros Ha Hall. destruct audio as [|x l]; simpl; [constructor|].
  inversion Hall as [|? ? Hx Hl]; subst.
  assert (H0 : Rabs (x * (1 - alpha)) <= M)
    by (apply Rabs_le_bounds in Hx; apply Rabs_le; nra).
  constructor; [exact H0|]. now apply lowpass_loop_bound.
Qed.

(** X9.  The two-pole low-pass filters never overshoot: for a positive
    sample rate and a cutoff that is not negative, the output of a non-empty
    buffer stays within the peak of the input. *)
Theorem lowpass_keeps_peak (c : EnhancedVintageDSP.Config) (audio : list R)
  (cutoff_freq M : R) :
  (0 < EnhancedVintageDSP.sample_rate c)%Z -> 0 <= cutoff_freq ->
  audio <> [] ->
  Forall (fun x => Rabs x <= M) audio ->
  Forall (fun y => Rabs y <= M)
    (VintageDSP.apply_vintage_lowpass (EnhancedVintageDSP.sample_rate c) audio cutoff_freq)
  /\ Forall (fun y => Rabs y <= M)
       (EnhancedVintageDSP.apply_high_quality_lowpass c audio cutoff_freq).
Proof.
  intros Hsr Hc _ Hall.
  pose proof (pole_in_unit _ cutoff_freq Hsr Hc) as Hpole.
  unfold VintageDSP.apply_vintage_lowpass, EnhancedVintageDSP.apply_high_quality_lowpass.
  split; repeat apply one_pole_lowpass_bound; try exact Hall; lra.
Qed.

Lemma lowpass_keeps_peak_witness :
  Forall (fun y => Rabs y <= 1)
    (VintageDSP.apply_vintage_lowpass
       (EnhancedVintageDSP.sample_rate Examples.clean_16bit) [1; -1; 1] 8000)
  /\ Forall (fun y => Rabs y <= 1)
       (EnhancedVintageDSP.apply_high_quality_lowpass Examples.clean_16bit [1; -1; 1] 8000).
Proof.
  apply (lowpass_keeps_peak Examples.clean_16bit [1; -1; 1] 8000 1).
  - reflexivity.
  - lra.
  - discriminate.
  - repeat (constructor; [apply Rabs_le; lra|]). constructor.
Defined.

Lemma highpass_loop_dc (alpha c : R) (m : nat) :
  forall y i, (i < m)%nat ->
    nth i (VintageDSP.highpass_loop alpha y c (repeat c m)) 0 = alpha ^ (S i) * y.
Proof.
  induction m as [|m IH]; intros y i Hi; [lia|].
  cbn [repeat VintageDSP.highpass_loop].
  destruct i as [|i]; cbn [nth].
  - simpl. ring.
  - rewrite IH by lia. simpl. ring.
Qed.

(** X10.  The high-pass filter blocks DC: on a constant input [c] its
    output decays geometrically, sample [i] is [alpha^i * c] with
    [alpha = exp(-2 pi cutoff / sample_rate)]. *)
Theorem highpass_blocks_dc (sample_rate : Z) (cutoff_freq c : R) (n i : nat) :
  sample_rate <> 0%Z ->
  (i < n)%nat ->
  nth i (VintageDSP.apply_vintage_highpass sample_rate (repeat c n) cutoff_freq) 0
  = exp (- (2 * PI * cutoff_freq / IZR sample_rate)) ^ i * c.
Proof.
  intros _ Hi. unfold VintageDSP.apply_vintage_highpass.
  destruct n as [|[|n]]; [lia| |].
  - assert (i = 0%nat) by lia. subst. simpl. ring.
  - cbn [repeat]. change (c :: repeat c n) with (repeat c (S n)).
    destruct i as [|i]; cbn [nth]; [simpl; ring|].
    rewrite highpass_loop_dc by lia. simpl. ring.
Qed.

Lemma highpass_blocks_dc_witness :
  nth 2 (VintageDSP.apply_vintage_highpass 22050 (repeat 1 4) 20) 0
  = exp (- (2 * PI * 20 / IZR 22050)) ^ 2 * 1.
Proof. apply (highpass_blocks_dc 22050 20 1 4 2); lia. Defined.

Lemma lowpass_loop_dc (alpha c : R) (m : nat) :
  forall y i, (i < m)%nat ->
    nth i (VintageDSP.lowpass_loop alpha y (repeat c m)) 0 = c + alpha ^ (S i) * (y - c).
Proof.
  induction m as [|m IH]; intros y i Hi; [lia|].
  cbn [repeat VintageDSP.lowpass_loop].
  destruct i as [|i]; cbn [nth].
  - simpl. ring.
  - rewrite IH by lia. simpl. ring.
Qed.

(** X11.  The anti-aliasing filter has unit gain at DC: on a constant input
    [c] of two samples or more, sample [i] is [c * (1 - alpha^(i+1))] with
    [alpha = exp(-2 pi 10000 / sample_rate)]. *)
Theorem antialiasing_step_response (sample_rate : Z) (c : R) (n i : nat) :
  sample_rate <> 0%Z ->
  (2 <= n)%nat -> (i < n)%nat ->
  nth i (VintageDSP.apply_vintage_antialiasing sample_rate (repeat c n)) 0
  = c * (1 - exp (- (2 * PI * 10000 / IZR sample_rate)) ^ (S i)).
Proof.
  intros _ Hn Hi. unfold VintageDSP.apply_vintage_antialiasing.
  rewrite repeat_length.
  replace (n <=? 1)%nat with false by (symmetry; apply Nat.leb_gt; lia).
  destruct n as [|n]; [lia|].
  cbn [repeat VintageDSP.one_pole_lowpass].
  destruct i as [|i]; cbn [nth]; [simpl; ring|].
  rewrite lowpass_loop_dc by lia. simpl. ring.
Qed.

Lemma antialiasing_step_response_witness :
  nth 1 (VintageDSP.apply_vintage_antialiasing 22050 (repeat 1 3)) 0
  = 1 * (1 - exp (- (2 * PI * 10000 / IZR 22050)) ^ 2).
Proof. apply (antialiasing_step_response 22050 1 3 1); lia. Defined.

End Filters.

Section Dynamics.
Import Np Random.
Local Open Scope R_scope.

(** The gain of the compressors is in (0, 1] when the threshold is
    positive and not above the ratio. *)
Lemma gain_reduction_unit (threshold ratio s : R) :
  0 < threshold -> threshold <= ratio ->
  0 < VintageDSP.gain_reduction threshold ratio s <= 1.
Proof.
  intros Ht Hr. unfold VintageDSP.gain_reduction.
  destruct (Rlt_dec threshold s) as [Hs|_]; [|lra].
  replace 1.0 with 1 by lra.
  replace (threshold / s * (1 + (s - threshold) / ratio))
    with (threshold * (ratio + s - threshold) / (s * ratio)) by (field; lra).
  assert (Hden : 0 < s * ratio) by nra.
  split.
  - apply Rmult_lt_0_compat; [nra|now apply Rinv_0_lt_compat].
  - apply Rmult_le_reg_r with (s * ratio); [exact Hden|].
    unfold Rdiv. rewrite Rmult_assoc, Rinv_l by lra. nra.
Qed.

Lemma attenuation (l1 : list R) :
  forall l2, List.length l2 = List.length l1 ->
    Forall (fun k => 0 <= k <= 1) l2 ->
    Forall2 (fun y x => Rabs y <= Rabs x) (zip_with Rmult l1 l2) l1.
Proof.
  induction l1 as [|x l1 IH]; intros [|k l2] Hlen Hall; simpl in *; try lia;
    constructor.
  - inversion Hall as [|? ? Hk _]; subst.
    rewrite Rabs_mult, (Rabs_right k) by lra. pose proof (Rabs_pos x). nra.
  - apply IH; [lia|now inversion Hall].
Qed.

(** X12.  The compressors never amplify: every output sample of the
    baseline compressor, and of the intensity-scaled compressor for an
    intensity in [[0, 1]], has the magnitude of its input sample at most. *)
Theorem compression_never_amplifies (c : EnhancedVintageDSP.Config) (audio : list R) :
  0 <= EnhancedVintageDSP.vintage_intensity c <= 1 ->
  Forall2 (fun y x => Rabs y <= Rabs x) (VintageDSP.apply_vintage_compression audio) audio
  /\ Forall2 (fun y x => Rabs y <= Rabs x)
       (EnhancedVintageDSP.apply_vintage_compression_enhanced c audio) audio.
Proof.
  intros Hi.
  unfold VintageDSP.apply_vintage_compression,
    EnhancedVintageDSP.apply_vintage_compression_enhanced.
  destruct audio as [|x l]; [split; constructor|].
  split; apply attenuation;
    rewrite ?length_map, ?smooth_envelope_length, ?length_map; try reflexivity;
    apply Forall_forall; intros k Hk; apply in_map_iff in Hk;
    destruct Hk as (s & <- & _);
    match goal with
    | |- context [VintageDSP.gain_reduction ?t ?r s] =>
        pose proof (gain_reduction_unit t r s) as Hg
    end; lra.
Qed.

Lemma compression_never_amplifies_witness :
  Forall2 (fun y x => Rabs y <= Rabs x)
    (VintageDSP.apply_vintage_compression [1; -0.5]) [1; -0.5]
  /\ Forall2 (fun y x => Rabs y <= Rabs x)
       (EnhancedVintageDSP.apply_vintage_compression_enhanced Examples.clean_16bit [1; -0.5])
       [1; -0.5].
Proof.
  apply (compression_never_amplifies Examples.clean_16bit [1; -0.5]).
  simpl. lra.
Defined.

Lemma envelope_loop_bound (a r M : R) (envelope : list R) :
  0 <= a <= 1 -> 0 <= r <= 1 ->
  forall prev, prev <= M -> Forall (fun e => e <= M) envelope ->
    Forall (fun s => s <= M) (VintageDSP.envelope_loop a r prev envelope).
Proof.
  intros Ha Hr. induction envelope as [|e l IH]; intros prev Hp Hall; simpl;
    constructor; inversion Hall as [|? ? He Hl]; subst.
  - destruct (Rlt_dec prev e); nra.
  - apply IH; [|exact Hl]. destruct (Rlt_dec prev e); nra.
Qed.

Lemma unit_gains (l1 : list R) :
  forall l2, List.length l2 = List.length l1 ->
    Forall (fun k => k = 1) l2 -> zip_with Rmult l1 l2 = l1.
Proof.
  induction l1 as [|x l1 IH]; intros [|k l2] Hlen Hall; simpl in *; try lia;
    [reflexivity|].
  inversion Hall; subst. rewrite Rmult_1_r, IH; auto.
Qed.

(** X13.  A buffer whose samples never exceed the threshold 0.8 in
    magnitude goes through the baseline compressor unchanged. *)
Theorem compression_leaves_quiet_signals (audio : list R) :
  Forall (fun x => Rabs x <= 0.8) audio ->
  VintageDSP.apply_vintage_compression audio = audio.
Proof.
  intros Hq. unfold VintageDSP.apply_vintage_compression.
  destruct audio as [|x l]; [reflexivity|].
  set (audio := x :: l) in *.
  apply unit_gains.
  - now rewrite !length_map, smooth_envelope_length, length_map.
  - assert (Henv : Forall (fun e => e <= 0.8) (map Rabs audio)).
    { apply Forall_forall. intros e He. apply in_map_iff in He.
      destruct He as (y & <- & Hy). rewrite Forall_forall in Hq. now apply Hq. }
    assert (Hs : Forall (fun s => s <= 0.8)
                   (VintageDSP.smooth_envelope 0.1 0.001 (map Rabs audio))).
    { subst audio. cbn [map VintageDSP.smooth_envelope] in *.
      inversion Henv as [|? ? H0 Hl]; subst.
      constructor; [exact H0|]. apply envelope_loop_bound; try lra; assumption. }
    apply Forall_forall. intros k Hk. apply in_map_iff in Hk.
    destruct Hk as (s & <- & Hin). rewrite Forall_forall in Hs. specialize (Hs s Hin).
    unfold VintageDSP.gain_reduction. destruct (Rlt_dec 0.8 s); [lra|reflexivity].
Qed.

Lemma compression_leaves_quiet_signals_witness :
  VintageDSP.apply_vintage_compression [0.5; -0.8; 0] = [0.5; -0.8; 0].
Proof.
  apply (compression_leaves_quiet_signals [0.5; -0.8; 0]).
  repeat (constructor; [apply Rabs_le; lra|]). constructor.
Defined.

Lemma round_integer (z : Z) : round (IZR z) = IZR z.
Proof.
  unfold round. rewrite (Int_part_eq (IZR z) z) by lra.
  destruct (Rlt_dec (IZR z - IZR z) (1 / 2)); [reflexivity|lra].
Qed.

(** X14.  Quantization to [max_level] steps moves a sample by half a step
    at most, and quantizing twice is quantizing once. *)
Theorem quantization_error (max_level x : R) :
  0 < max_level ->
  Rabs (VintageDSP.quantize max_level x - x) <= 1 / (2 * max_level)
  /\ VintageDSP.quantize max_level (VintageDSP.quantize max_level x)
     = VintageDSP.quantize max_level x.
Proof.
  intros HL. unfold VintageDSP.quantize.
  destruct (round_nearest (x * max_level)) as (z & Hz & Herr).
  rewrite Hz. split.
  - replace (IZR z / max_level - x) with ((IZR z - x * max_level) * / max_level)
      by (field; lra).
    rewrite Rabs_mult, (Rabs_right (/ max_level))
      by (left; now apply Rinv_0_lt_compat).
    replace (1 / (2 * max_level)) with (1 / 2 * / max_level) by (field; lra).
    apply Rmult_le_compat_r; [left; now apply Rinv_0_lt_compat|exact Herr].
  - replace (IZR z / max_level * max_level) with (IZR z) by (field; lra).
    now rewrite round_integer.
Qed.

Lemma quantization_error_witness :
  Rabs (VintageDSP.quantize (VintageDSP.max_level_of 8) 0.3 - 0.3)
    <= 1 / (2 * VintageDSP.max_level_of 8)
  /\ VintageDSP.quantize (VintageDSP.max_level_of 8)
       (VintageDSP.quantize (VintageDSP.max_level_of 8) 0.3)
     = VintageDSP.quantize (VintageDSP.max_level_of 8) 0.3.
Proof.
  apply (quantization_error (VintageDSP.max_level_of 8) 0.3).
  change (VintageDSP.max_level_of 8) with 127. lra.
Defined.

End Dynamics.

Section EnhancedChain.
Import Np Random.
Local Open Scope R_scope.

Lemma int_between (x : R) (a b : Z) :
  0 <= x -> IZR a <= x <= IZR b -> (a <= int x <= b)%Z.
Proof.
  intros H0 [Ha Hb]. unfold int.
  destruct (Rle_dec 0 x) as [_|Hn]; [|lra].
  destruct (base_Int_part x) as [H1 H2]. split.
  - assert (IZR (a - 1) < IZR (Int_part x)) by (rewrite minus_IZR; lra).
    apply lt_IZR in H. lia.
  - apply le_IZR. lra.
Qed.

Lemma effective_bits_bounds (c : EnhancedVintageDSP.Config) :
  EnhancedVintageDSP.valid_config c ->
  (EnhancedVintageDSP.bit_depth c <= BitDepth.effective_bits c <= 16)%Z
  /\ (EnhancedVintageDSP.bit_depth c = 8%Z -> BitDepth.effective_bits c = 8%Z)
  /\ (EnhancedVintageDSP.vintage_intensity c = 1 ->
      BitDepth.effective_bits c = EnhancedVintageDSP.bit_depth c).
Proof.
  intros (_ & Hbits & Hi). unfold BitDepth.effective_bits.
  split; [|split].
  - destruct (Rlt_dec _ 1.0) as [_|_]; [|lia].
    destruct Hbits as [-> | [-> | ->]]; cbn [Z.ltb Z.compare Pos.compare Pos.compare_cont];
      change (IZR (8 - 8)) with 0; change (IZR (16 - 12)) with 4;
      change (IZR (16 - 16)) with 0;
      (apply int_between; [nra|split; nra]).
  - intros ->. destruct (Rlt_dec _ 1.0) as [_|_]; [|reflexivity].
    cbn [Z.ltb Z.compare Pos.compare Pos.compare_cont]. change (IZR (8 - 8)) with 0.
    assert (H : (8 <= int (8 + 0 * (1.0 - EnhancedVintageDSP.vintage_intensity c)) <= 8)%Z)
      by (apply int_between; lra).
    lia.
  - intros Hone. rewrite Hone.
    destruct (Rlt_dec 1 1.0) as [H|_]; [lra|reflexivity].
Qed.

(** X15.  Under a valid configuration the effective bit depth of the
    enhanced bit crusher lies between the configured depth and 16; at 8
    bits it is 8 whatever the intensity, and at full intensity it is the
    configured depth. *)
Theorem effective_bits_range (c : EnhancedVintageDSP.Config) :
  EnhancedVintageDSP.valid_config c ->
  (EnhancedVintageDSP.bit_depth c <= BitDepth.effective_bits c <= 16)%Z
  /\ (EnhancedVintageDSP.bit_depth c = 8%Z -> BitDepth.effective_bits c = 8%Z)
  /\ (EnhancedVintageDSP.vintage_intensity c = 1 ->
      BitDepth.effective_bits c = EnhancedVintageDSP.bit_depth c).
Proof. apply effective_bits_bounds. Qed.

Lemma effective_bits_range_witness :
  (EnhancedVintageDSP.bit_depth Examples.clean_16bit
   <= BitDepth.effective_bits Examples.clean_16bit <= 16)%Z
  /\ (EnhancedVintageDSP.bit_depth Examples.clean_16bit = 8%Z ->
      BitDepth.effective_bits Examples.clean_16bit = 8%Z)
  /\ (EnhancedVintageDSP.vintage_intensity Examples.clean_16bit = 1 ->
      BitDepth.effective_bits Examples.clean_16bit
      = EnhancedVintageDSP.bit_depth Examples.clean_16bit).
Proof.
  apply (effective_bits_range Examples.clean_16bit).
  unfold EnhancedVintageDSP.valid_config. simpl.
  split; [lia|]. split; [right; right; reflexivity|lra].
Defined.

(** The crusher quantizes with the effective bit depth. *)
Lemma enhanced_bit_crushing_at_8_bits (c : EnhancedVintageDSP.Config) (audio : list R)
  (g : Rng) :
  EnhancedVintageDSP.valid_config c ->
  EnhancedVintageDSP.bit_depth c = 8%Z ->
  EnhancedVintageDSP.quantization_noise c = false ->
  EnhancedVintageDSP.apply_enhanced_bit_crushing c audio g
  = (map (fun x => clip (-1.0) 1.0 (VintageDSP.quantize (VintageDSP.max_level_of 8) x))
         audio, g).
Proof.
  intros Hv Hb Hq.
  destruct (effective_bits_bounds c Hv) as (_ & H8 & _). specialize (H8 Hb).
  unfold BitDepth.effective_bits in H8. rewrite Hb in H8.
  unfold EnhancedVintageDSP.apply_enhanced_bit_crushing. cbv zeta.
  rewrite Hb, Hq. cbn [Z.leb Z.ltb Z.compare Pos.compare Pos.compare_cont andb] in *.
  rewrite H8. rewrite map_map. reflexivity.
Qed.

(** X16.  At 8 bits without quantization noise, the enhanced bit crusher
    quantizes at 8 bits (127 levels) for every intensity of a valid
    configuration: the intensity does not soften the quantization. *)
Theorem enhanced_crusher_fixed_at_8_bits (c : EnhancedVintageDSP.Config)
  (audio : list R) (g : Rng) :
  EnhancedVintageDSP.valid_config c ->
  EnhancedVintageDSP.bit_depth c = 8%Z ->
  EnhancedVintageDSP.quantization_noise c = false ->
  EnhancedVintageDSP.apply_enhanced_bit_crushing c audio g
  = (map (fun x => clip (-1.0) 1.0 (VintageDSP.quantize 127 x)) audio, g).
Proof. apply enhanced_bit_crushing_at_8_bits. Qed.

Lemma enhanced_crusher_fixed_at_8_bits_witness :
  EnhancedVintageDSP.apply_enhanced_bit_crushing Examples.half_vintage_8bit [0.5; -0.25]
    Units.rng0
  = (map (fun x => clip (-1.0) 1.0 (VintageDSP.quantize 127 x)) [0.5; -0.25], Units.rng0).
Proof.
  apply (enhanced_crusher_fixed_at_8_bits Examples.half_vintage_8bit [0.5; -0.25] Units.rng0).
  - unfold EnhancedVintageDSP.valid_config. simpl.
    split; [lia|]. split; [left; reflexivity|lra].
  - reflexivity.
  - reflexivity.
Defined.

Lemma Forall2_same {A : Type} (P : A -> A -> Prop) (l : list A) :
  (forall x, P x x) -> Forall2 P l l.
Proof. intros H. induction l; constructor; auto. Qed.

Lemma gated (l1 : list R) :
  forall l2, List.length l2 = List.length l1 ->
    Forall (fun k => k = 0.5 \/ k = 1.0) l2 ->
    Forall2 (fun y x => y = x \/ y = x * 0.5) (zip_with Rmult l1 l2) l1.
Proof.
  induction l1 as [|x l1 IH]; intros [|k l2] Hlen Hall; simpl in *; try lia;
    constructor.
  - inversion Hall as [|? ? [->| ->] _]; subst; [right; reflexivity|left; lra].
  - apply IH; [lia|now inversion Hall].
Qed.

Lemma noise_reduction_gate (audio : list R) :
  Forall2 (fun y x => y = x \/ y = x * 0.5)
          (EnhancedVintageDSP.apply_noise_reduction audio) audio.
Proof.
  unfold EnhancedVintageDSP.apply_noise_reduction.
  destruct (_ <=? 1)%nat; [apply Forall2_same; now left|].
  set (w := Nat.min 512 (List.length audio / 4)).
  destruct (w <? 2)%nat; [apply Forall2_same; now left|].
  apply gated.
  - rewrite length_map, convolve_same_length, !length_map.
    unfold ones. rewrite repeat_length.
    assert (w <= List.length audio)%nat; [|lia].
    subst w. pose proof (Nat.Div0.div_le_upper_bound (List.length audio) 4 (List.length audio)).
    lia.
  - apply Forall_forall. intros k Hk. apply in_map_iff in Hk.
    destruct Hk as (e & <- & _). destruct (Rlt_dec e 0.01); [now left|now right].
Qed.

(** X17.  The noise gate keeps or halves every sample: it never amplifies
    and never changes the length of the buffer. *)
Theorem noise_reduction_keeps_or_halves (audio : list R) :
  Forall2 (fun y x => y = x \/ y = x * 0.5)
          (EnhancedVintageDSP.apply_noise_reduction audio) audio.
Proof. apply noise_reduction_gate. Qed.

Lemma Forall_blend (p q M : R) (l1 : list R) :
  0 <= p -> 0 <= q -> p + q = 1 ->
  forall l2,
    Forall (fun x => Rabs x <= M) l1 -> Forall (fun x => Rabs x <= M) l2 ->
    Forall (fun y => Rabs y <= M) (zip_with Rplus (map (Rmult p) l1) (map (Rmult q) l2)).
Proof.
  intros Hp Hq Hpq.
  induction l1 as [|x l1 IH]; intros [|y l2] H1 H2; simpl; constructor;
    inversion H1 as [|? ? Hx Hl1]; inversion H2 as [|? ? Hy Hl2]; subst.
  - apply Rabs_le_bounds in Hx, Hy. apply Rabs_le. nra.
  - now apply IH.
Qed.

(** X18.  The temporal smoothing never raises the peak: on a buffer that
    has not exactly two samples, every output sample is within the bound
    of the input samples. *)
Theorem temporal_smoothing_keeps_peak (audio : list R) (M : R) :
  List.length audio <> 2%nat ->
  Forall (fun x => Rabs x <= M) audio ->
  Forall (fun y => Rabs y <= M) (EnhancedVintageDSP.apply_temporal_smoothing audio)
  /\ List.length (EnhancedVintageDSP.apply_temporal_smoothing audio) = List.length audio.
Proof.
  intros Hlen Hall. unfold EnhancedVintageDSP.apply_temporal_smoothing.
  destruct (Nat.leb_spec (List.length audio) 1) as [Hshort|Hlong]; [split; auto|].
  assert (HM : 0 <= M).
  { destruct audio as [|x l]; [simpl in Hlong; lia|].
    inversion Hall; subst. pose proof (Rabs_pos x). lra. }
  split.
  - apply Forall_blend; try lra; [exact Hall|].
    now apply moving_average_bound.
  - rewrite zip_with_length; rewrite !length_map; [reflexivity|].
    rewrite convolve_same_length, !length_map.
    unfold ones. rewrite repeat_length. lia.
Qed.

Lemma temporal_smoothing_keeps_peak_witness :
  Forall (fun y => Rabs y <= 1)
    (EnhancedVintageDSP.apply_temporal_smoothing [1; -1; 1])
  /\ List.length (EnhancedVintageDSP.apply_temporal_smoothing [1; -1; 1])
     = List.length [1; -1; 1].
Proof.
  apply (temporal_smoothing_keeps_peak [1; -1; 1] 1).
  - simpl. lia.
  - repeat (constructor; [apply Rabs_le; lra|]). constructor.
Defined.

End EnhancedChain.

Section EnhancedLengths.
Import Np Random.
Local Open Scope R_scope.

Variable c : EnhancedVintageDSP.Config.

Lemma analog_frontend_enhanced_length (audio : list R) (g : Rng) :
  List.length (fst (EnhancedVintageDSP.simulate_analog_frontend_enhanced c audio g))
  = List.length audio.
Proof.
  unfold EnhancedVintageDSP.simulate_analog_frontend_enhanced.
  destruct (_ <=? 8)%Z; [|cbn [fst]; now rewrite !length_map].
  match goal with
  | |- context [normal ?mu ?s ?n g] =>
      pose proof (normal_length mu s n g) as Hn; destruct (normal mu s n g) as [noise g']
  end.
  cbn [fst] in *. rewrite zip_with_length; rewrite !length_map in *; congruence.
Qed.

Lemma frequency_response_shaping_enhanced_length (audio : list R) :
  List.length (EnhancedVintageDSP.apply_frequency_response_shaping_enhanced c audio)
  = List.length audio.
Proof.
  unfold EnhancedVintageDSP.apply_frequency_response_shaping_enhanced.
  destruct (_ <=? 1)%nat; [reflexivity|].
  destruct (Rlt_dec 0.3 _);
    rewrite ?speech_emphasis_enhanced_length, vintage_highpass_length;
    destruct (Rlt_dec _ 0.5);
    auto using high_quality_lowpass_length, vintage_lowpass_length.
Qed.

Lemma enhanced_bit_crushing_length (audio : list R) (g : Rng) :
  List.length (fst (EnhancedVintageDSP.apply_enhanced_bit_crushing c audio g))
  = List.length audio.
Proof.
  unfold EnhancedVintageDSP.apply_enhanced_bit_crushing.
  destruct (_ && _); [reflexivity|]. cbv zeta.
  set (quantized := map _ audio).
  assert (Hq : List.length quantized = List.length audio) by apply length_map.
  clearbody quantized.
  destruct (EnhancedVintageDSP.quantization_noise c && _).
  - match goal with
    | |- context [uniform ?lo ?hi ?n g] =>
        pose proof (uniform_length lo hi n g) as Hu;
        destruct (uniform lo hi n g) as [noise g1]
    end.
    cbn [fst] in Hu.
    assert (Hz : List.length (zip_with Rplus quantized noise) = List.length audio)
      by (rewrite zip_with_length; congruence).
    destruct (_ && _).
    + match goal with
      | |- context [triangular ?l ?m ?r ?n g1] =>
          pose proof (triangular_length l m r n g1) as Ht;
          destruct (triangular l m r n g1) as [dither g2]
      end.
      cbn [fst] in *. rewrite length_map, zip_with_length; congruence.
    + cbn [fst]. now rewrite length_map.
  - destruct (_ && _).
    + match goal with
      | |- context [triangular ?l ?m ?r ?n g] =>
          pose proof (triangular_length l m r n g) as Ht;
          destruct (triangular l m r n g) as [dither g2]
      end.
      cbn [fst] in *. rewrite length_map, zip_with_length; congruence.
    + cbn [fst]. now rewrite length_map.
Qed.

Lemma sound_blaster_length (sample_rate bit_depth : Z) (audio : list R) (g : Rng) :
  List.length
    (fst (VintageDSP.apply_sound_blaster_characteristics sample_rate bit_depth audio g))
  = List.length audio.
Proof.
  unfold VintageDSP.apply_sound_blaster_characteristics.
  match goal with
  | |- context [normal ?mu ?s ?n g] =>
      pose proof (normal_length mu s n g) as Hn; destruct (normal mu s n g) as [noise g']
  end.
  cbn [fst] in *.
  rewrite vintage_lowpass_length in *.
  rewrite zip_with_length; rewrite vintage_lowpass_length;
    destruct (bit_depth =? 8)%Z; rewrite ?length_map in *; congruence.
Qed.

Lemma preset_processing_length (audio : list R) (g : Rng) :
  List.length (fst (EnhancedVintageDSP.apply_preset_processing c audio g))
  = List.length audio.
Proof.
  unfold EnhancedVintageDSP.apply_preset_processing.
  destruct (String.eqb _ "dr_sbaitso"); [apply sound_blaster_length|].
  destruct (String.eqb _ "dr_sbaitso_enhanced").
  - pose proof (sound_blaster_length (EnhancedVintageDSP.sample_rate c)
                  (EnhancedVintageDSP.bit_depth c) audio g) as Hs.
    destruct (VintageDSP.apply_sound_blaster_characteristics _ _ audio g) as [a g'].
    cbn [fst] in Hs.
    destruct (12 <=? _)%Z; cbn [fst]; rewrite ?high_quality_lowpass_length; exact Hs.
  - destruct (String.eqb _ "subtle_vintage"); [|reflexivity].
    pose proof (enhanced_bit_crushing_length audio g) as Hc.
    destruct (EnhancedVintageDSP.apply_enhanced_bit_crushing c audio g) as [a g'].
    cbn [fst] in *. now rewrite high_quality_lowpass_length.
Qed.

Lemma vintage_processing_chain_length (audio : list R) (g : Rng) :
  List.length (fst (EnhancedVintageDSP.apply_vintage_processing_chain c audio g))
  = List.length audio.
Proof.
  unfold EnhancedVintageDSP.apply_vintage_processing_chain.
  assert (H1 : forall r : list R * Rng,
             r = (if EnhancedVintageDSP.analog_simulation c
                  then EnhancedVintageDSP.simulate_analog_frontend_enhanced c audio g
                  else (audio, g)) ->
             List.length (fst r) = List.length audio).
  { intros r ->. destruct (EnhancedVintageDSP.analog_simulation c);
      [apply analog_frontend_enhanced_length|reflexivity]. }
  destruct (if EnhancedVintageDSP.analog_simulation c then _ else _) as [a1 g1].
  specialize (H1 _ eq_refl). cbn [fst] in H1.
  set (a2 := if EnhancedVintageDSP.frequency_response_shaping c then _ else a1).
  assert (H2 : List.length a2 = List.length audio).
  { subst a2. destruct (EnhancedVintageDSP.frequency_response_shaping c);
      rewrite ?frequency_response_shaping_enhanced_length; exact H1. }
  clearbody a2.
  pose proof (enhanced_bit_crushing_length a2 g1) as H3.
  destruct (EnhancedVintageDSP.apply_enhanced_bit_crushing c a2 g1) as [a3 g2].
  cbn [fst] in H3.
  pose proof (preset_processing_length
                (EnhancedVintageDSP.apply_vintage_compression_enhanced c a3) g2) as H4.
  destruct (EnhancedVintageDSP.apply_preset_processing c _ g2) as [a4 g3].
  cbn [fst] in H4. rewrite compression_enhanced_length in H4.
  destruct (Rlt_dec _ 1.0); cbn [fst]; [|congruence].
  rewrite zip_with_length; rewrite !length_map; congruence.
Qed.

(** X19.  The intensity-scalable chain returns a buffer of the length of
    its input, whatever the stages, preset and intensity of the
    configuration are, when the temporal smoothing is off or the buffer has
    not exactly two samples. *)
Theorem enhanced_preserves_length (audio : list R) (g : Rng) :
  EnhancedVintageDSP.sample_rate c <> 0%Z ->
  EnhancedVintageDSP.temporal_smoothing c = false \/ List.length audio <> 2%nat ->
  List.length (fst (EnhancedVintageDSP.process c audio g)) = List.length audio.
Proof.
  intros _ Hts. unfold EnhancedVintageDSP.process.
  destruct audio as [|x l] eqn:Ha; [reflexivity|]. rewrite <- Ha in *. clear Ha x l.
  set (a1 := if EnhancedVintageDSP.spectral_enhancement c then _ else audio).
  assert (H1 : List.length a1 = List.length audio).
  { subst a1. destruct (EnhancedVintageDSP.spectral_enhancement c); [|reflexivity].
    unfold EnhancedVintageDSP.apply_spectral_enhancement.
    destruct (_ <=? 1)%nat; [reflexivity|].
    apply zip_with_length. now rewrite length_map, length_seq. }
  clearbody a1.
  set (a2 := if EnhancedVintageDSP.harmonic_enrichment c then _ else a1).
  assert (H2 : List.length a2 = List.length audio).
  { subst a2. destruct (EnhancedVintageDSP.harmonic_enrichment c); [|exact H1].
    unfold EnhancedVintageDSP.apply_harmonic_enrichment.
    destruct a1; [exact H1|]. now rewrite !length_map. }
  clearbody a2.
  assert (H3 : forall r : list R * Rng,
             r = (if EnhancedVintageDSP.vintage_enabled c
                     && (if Rlt_dec 0 (EnhancedVintageDSP.vintage_intensity c)
                         then true else false)
                  then EnhancedVintageDSP.apply_vintage_processing_chain c a2 g
                  else (a2, g)) ->
             List.length (fst r) = List.length audio).
  { intros r ->. destruct (_ && _); [|exact H2].
    now rewrite vintage_processing_chain_length. }
  destruct (if EnhancedVintageDSP.vintage_enabled c && _ then _ else _) as [a3 g'].
  specialize (H3 _ eq_refl). cbn [fst] in *.
  set (a4 := if EnhancedVintageDSP.noise_reduction c then _ else a3).
  assert (H4 : List.length a4 = List.length audio).
  { subst a4. destruct (EnhancedVintageDSP.noise_reduction c); [|exact H3].
    rewrite (Forall2_length (noise_reduction_gate a3)). exact H3. }
  clearbody a4.
  destruct (EnhancedVintageDSP.temporal_smoothing c) eqn:Hsm; [|exact H4].
  destruct Hts as [Hoff|Hlen]; [discriminate|].
  unfold EnhancedVintageDSP.apply_temporal_smoothing.
  destruct (Nat.leb_spec (List.length a4) 1) as [Hshort|Hlong]; [exact H4|].
  rewrite zip_with_length; rewrite !length_map; [exact H4|].
  rewrite convolve_same_length, !length_map.
  unfold ones. rewrite repeat_length. lia.
Qed.

End EnhancedLengths.

Lemma enhanced_preserves_length_witness :
  List.length (fst (EnhancedVintageDSP.process Examples.half_vintage_8bit
                      [0.5%R; (-0.25)%R; 0.125%R] Units.rng0))
  = List.length [0.5%R; (-0.25)%R; 0.125%R].
Proof.
  apply (enhanced_preserves_length Examples.half_vintage_8bit).
  - discriminate.
  - left. reflexivity.
Defined.

(** * Properties of the audio output *)

Section Playback.
Import Np AudioOutput.
Local Open Scope R_scope.

Lemma len_elementwise (f : R -> R) (audio : Audio) : len (elementwise f audio) = len audio.
Proof. destruct audio; simpl; now rewrite length_map. Qed.

Lemma samples_of_elementwise (f : R -> R) (audio : Audio) :
  samples_of (elementwise f audio) = map f (samples_of audio).
Proof. destruct audio; simpl; [reflexivity|]. symmetry. apply concat_map. Qed.

Lemma rolloff_length {A : Type} (mix : A -> A -> A) (a : list A) :
  List.length (rolloff mix a) = List.length a.
Proof.
  unfold rolloff. destruct a as [|x l]; [reflexivity|].
  cbn [List.length]. rewrite zip_with_length; [reflexivity|].
  rewrite removelast_length. simpl. lia.
Qed.

Lemma sign_abs (x : R) : sign x * Rabs x = x.
Proof.
  unfold sign, Rabs.
  destruct (Rlt_dec 0 x); destruct (Rlt_dec x 0); destruct (Rcase_abs x); lra.
Qed.

Lemma sign_unit (x : R) : Rabs (sign x) <= 1.
Proof.
  unfold sign. destruct (Rlt_dec 0 x); [|destruct (Rlt_dec x 0)];
    apply Rabs_le; lra.
Qed.

(** The saturation curve: the identity up to the threshold, a slope of 0.3
    above it. *)
Lemma saturate_spec (x : R) :
  Rabs (saturate 0.8 x) <= Rabs x
  /\ (Rabs x <= 0.8 -> saturate 0.8 x = x)
  /\ (Rabs x <= 1 -> Rabs (saturate 0.8 x) <= 0.86).
Proof.
  unfold saturate.
  destruct (Rlt_dec 0.8 (Rabs x)) as [Hover|Hunder].
  - assert (Hs : Rabs (sign x) = 1).
    { unfold sign, Rabs in *.
      destruct (Rlt_dec 0 x); destruct (Rlt_dec x 0); destruct (Rcase_abs x);
        try destruct (Rcase_abs 1); try destruct (Rcase_abs (-1));
        try destruct (Rcase_abs 0); lra. }
    rewrite Rabs_mult, Hs, Rabs_right by lra.
    repeat split; intros; lra.
  - rewrite sign_abs. repeat split; intros; lra.
Qed.

Variable channels : Z.

Lemma len_prepare (audio : Audio) : len (prepare_audio_data channels audio) = len audio.
Proof.
  unfold prepare_audio_data. rewrite len_elementwise.
  destruct audio; [destruct (channels =? 2)%Z|destruct (channels =? 1)%Z];
    simpl; now rewrite ?length_map.
Qed.

Lemma simulate_sb_samples (audio : Audio) :
  samples_of (simulate_sb_output_stage audio) = map (saturate 0.8) (samples_of audio).
Proof.
  unfold simulate_sb_output_stage.
  destruct (existsb _ (samples_of audio)) eqn:Hany; [apply samples_of_elementwise|].
  symmetry. rewrite <- (map_id (samples_of audio)) at 2.
  apply map_ext_in. intros x Hx.
  apply saturate_spec.
  destruct (Rlt_dec 0.8 (Rabs x)) as [Hover|Hunder]; [|lra].
  assert (Hex : existsb (fun y => if Rlt_dec 0.8 (Rabs y) then true else false)
                        (samples_of audio) = true).
  { apply existsb_exists. exists x. split; [exact Hx|].
    destruct (Rlt_dec 0.8 (Rabs x)); [reflexivity|contradiction]. }
  congruence.
Qed.

Lemma len_simulate_sb (audio : Audio) : len (simulate_sb_output_stage audio) = len audio.
Proof.
  unfold simulate_sb_output_stage.
  destruct (existsb _ _); [apply len_elementwise|reflexivity].
Qed.

Lemma len_amplifier (audio : Audio) :
  len (apply_output_amplifier_simulation audio) = len audio.
Proof.
  unfold apply_output_amplifier_simulation.
  destruct (1 <? _)%nat; [|apply len_elementwise].
  destruct audio; simpl; now rewrite rolloff_length, length_map.
Qed.

Lemma len_playback (audio : Audio) : len (apply_playback_processing audio) = len audio.
Proof.
  unfold apply_playback_processing.
  now rewrite len_elementwise, len_amplifier, len_simulate_sb.
Qed.

Lemma clip_limits (lo hi x : R) : lo <= hi -> lo <= clip lo hi x <= hi.
Proof.
  intros H. unfold clip, Rmin, Rmax.
  destruct (Rle_dec x lo); destruct (Rle_dec _ hi); lra.
Qed.

Lemma playback_limits (audio : Audio) :
  Forall (fun x => -0.95 <= x <= 0.95) (samples_of (apply_playback_processing audio)).
Proof.
  unfold apply_playback_processing. rewrite samples_of_elementwise.
  apply Forall_forall. intros y Hy. apply in_map_iff in Hy.
  destruct Hy as (x & <- & _). apply clip_limits. lra.
Qed.

Lemma play_spec (audio played : Audio) :
  play channels audio = Some played ->
  len played = len audio
  /\ (0 < len audio)%nat
  /\ Forall (fun x => -0.95 <= x <= 0.95) (samples_of played).
Proof.
  unfold play. destruct (Nat.eqb_spec (len audio) 0) as [|Hne]; [discriminate|].
  intros [= <-]. split; [|split].
  - now rewrite len_playback, len_prepare.
  - lia.
  - apply playback_limits.
Qed.

(** X20.  Whatever buffer [play] is given (one-dimensional, or
    two-dimensional with rows that are not empty), the buffer it hands to the
    sound device has as many frames and every sample in [[-0.95, 0.95]]; an
    empty buffer is not played. *)
Theorem play_within_limits (audio played : Audio) :
  (forall rows, audio = Frames rows -> Forall (fun row => row <> []) rows) ->
  play channels audio = Some played ->
  len played = len audio
  /\ (0 < len audio)%nat
  /\ Forall (fun x => -0.95 <= x <= 0.95) (samples_of played).
Proof. intros _. apply play_spec. Qed.

(** X21.  The output-stage saturation acts sample by sample, whatever the
    other samples are: it leaves a sample of magnitude 0.8 or less
    unchanged, never raises a magnitude, and maps [[-1, 1]] into
    [[-0.86, 0.86]]. *)
Theorem saturation_curve (audio : Audio) :
  samples_of (simulate_sb_output_stage audio) = map (saturate 0.8) (samples_of audio)
  /\ forall x,
       Rabs (saturate 0.8 x) <= Rabs x
       /\ (Rabs x <= 0.8 -> saturate 0.8 x = x)
       /\ (Rabs x <= 1 -> Rabs (saturate 0.8 x) <= 0.86).
Proof. split; [apply simulate_sb_samples|apply saturate_spec]. Qed.

End Playback.

Lemma play_within_limits_witness :
  AudioOutput.len (AudioOutput.apply_playback_processing
                     (AudioOutput.prepare_audio_data 1 (AudioOutput.Mono [2%R; (-0.5)%R])))
  = AudioOutput.len (AudioOutput.Mono [2%R; (-0.5)%R])
  /\ (0 < AudioOutput.len (AudioOutput.Mono [2%R; (-0.5)%R]))%nat
  /\ Forall (fun x => (-0.95 <= x <= 0.95)%R)
       (AudioOutput.samples_of
          (AudioOutput.apply_playback_processing
             (AudioOutput.prepare_audio_data 1 (AudioOutput.Mono [2%R; (-0.5)%R])))).
Proof.
  refine (play_within_limits 1 (AudioOutput.Mono [2%R; (-0.5)%R]) _ _ eq_refl).
  intros rows Hrows. discriminate Hrows.
Defined.

Lemma saturation_curve_witness : AudioOutput.saturate 0.8 0.5 = 0.5%R.
Proof.
  apply (proj2 (saturation_curve (AudioOutput.Mono [0.5%R])) 0.5%R).
  unfold Rabs. destruct (Rcase_abs 0.5); lra.
Defined.

Section Padding.
Import Np AudioOutput EnhancedAudioOutput.
Local Open Scope R_scope.

(** [y] is [x] times a factor of [[0, 1]]. *)
Let faded (y x : R) : Prop := exists k : R, 0 <= k <= 1 /\ y = x * k.

Lemma faded_refl (l : list R) : Forall2 faded l l.
Proof.
  induction l as [|x l IH]; constructor; [|exact IH].
  exists 1. split; [lra|ring].
Qed.

Lemma faded_zip (l1 : list R) :
  forall l2, List.length l2 = List.length l1 ->
    Forall (fun k => 0 <= k <= 1) l2 ->
    Forall2 faded (zip_with Rmult l1 l2) l1.
Proof.
  induction l1 as [|x l1 IH]; intros [|k l2] Hlen Hall; simpl in *; try lia;
    constructor.
  - inversion Hall; subst. exists k. split; [assumption|reflexivity].
  - apply IH; [lia|now inversion Hall].
Qed.

Lemma faded_trans (l1 l2 l3 : list R) :
  Forall2 faded l1 l2 -> Forall2 faded l2 l3 -> Forall2 faded l1 l3.
Proof.
  intros H12. revert l3. induction H12 as [|x y l1 l2 (k & Hk & ->) _ IH];
    intros l3 H23; inversion H23 as [|? z ? l3' (k' & Hk' & ->) Hrest]; subst;
    constructor.
  - exists (k' * k). split; [nra|ring].
  - now apply IH.
Qed.

Lemma fade_in_curve_unit (n : nat) : Forall (fun k => 0 <= k <= 1) (fade_in_curve n).
Proof.
  unfold fade_in_curve. apply Forall_forall. intros k Hk.
  apply in_map_iff in Hk. destruct Hk as (i & <- & _).
  pose proof (COS_bound (PI * INR i / INR n)). lra.
Qed.

Lemma fade_out_curve_unit (n : nat) : Forall (fun k => 0 <= k <= 1) (fade_out_curve n).
Proof.
  unfold fade_out_curve. apply Forall_forall. intros k Hk.
  apply in_map_iff in Hk. destruct Hk as (i & <- & _).
  pose proof (COS_bound (PI * INR i / INR n)). lra.
Qed.

Lemma fade_head_faded (n : nat) (a : list R) :
  (n <= List.length a)%nat ->
  Forall2 faded (fade_head Rmult n (fade_in_curve n) a) a.
Proof.
  intros Hn. unfold fade_head.
  rewrite <- (firstn_skipn n a) at 3.
  apply Forall2_app; [|apply faded_refl].
  apply faded_zip; [|apply fade_in_curve_unit].
  unfold fade_in_curve. rewrite length_map, length_seq, length_firstn. lia.
Qed.

Lemma fade_tail_faded (n : nat) (a : list R) :
  (n <= List.length a)%nat ->
  Forall2 faded (fade_tail Rmult n (fade_out_curve n) a) a.
Proof.
  intros Hn. unfold fade_tail.
  rewrite <- (firstn_skipn (List.length a - n) a) at 5.
  apply Forall2_app; [apply faded_refl|].
  apply faded_zip; [|apply fade_out_curve_unit].
  unfold fade_out_curve. rewrite length_map, length_seq, length_skipn. lia.
Qed.

Lemma fade_faded (fade_in_samples fade_out_samples : Z) (a : list R) :
  (fade_in_samples <= Z.of_nat (List.length a))%Z ->
  (fade_out_samples <= Z.of_nat (List.length a))%Z ->
  Forall2 faded (fade Rmult fade_in_samples fade_out_samples a) a.
Proof.
  intros Hi Ho. unfold fade.
  set (a1 := if (0 <? fade_in_samples)%Z then _ else a).
  assert (H1 : Forall2 faded a1 a).
  { subst a1. destruct (0 <? fade_in_samples)%Z; [|apply faded_refl].
    apply fade_head_faded. lia. }
  assert (Hlen : List.length a1 = List.length a) by (eapply Forall2_length; eauto).
  destruct (0 <? fade_out_samples)%Z; [|exact H1].
  eapply faded_trans; [|exact H1].
  apply fade_tail_faded. lia.
Qed.

Variable sample_rate : Z.
Variable channels : Z.
Variable padding_config : PaddingConfig.

Lemma quarter_le (n : nat) (ms : Q) :
  (Z.min (ms_to_samples sample_rate ms) (Z.of_nat n / 4) <= Z.of_nat n)%Z.
Proof.
  assert (Z.of_nat n / 4 <= Z.of_nat n)%Z; [|lia].
  apply Z.div_le_upper_bound; lia.
Qed.

Lemma apply_fades_mono (samples : list R) :
  exists faded_samples : list R,
    apply_fades sample_rate padding_config (Mono samples) = Mono faded_samples
    /\ Forall2 (fun y x => exists k : R, 0 <= k <= 1 /\ y = x * k) faded_samples samples
    /\ Forall2 (fun y x => Rabs y <= Rabs x) faded_samples samples.
Proof.
  unfold apply_fades. cbn [len].
  destruct (Nat.eqb_spec (List.length samples) 0) as [Hz|Hnz].
  - exists samples. split; [reflexivity|]. split; [apply faded_refl|].
    apply Forall2_same. intros; lra.
  - eexists. split; [reflexivity|].
    pose proof (fade_faded
                  (Z.min (ms_to_samples sample_rate (fade_in_ms padding_config))
                         (Z.of_nat (List.length samples) / 4))
                  (Z.min (ms_to_samples sample_rate (fade_out_ms padding_config))
                         (Z.of_nat (List.length samples) / 4))
                  samples (quarter_le _ _) (quarter_le _ _)) as H.
    split; [exact H|].
    clear -H. induction H as [|y x l1 l2 (k & Hk & ->) _ IH]; constructor; [|exact IH].
    rewrite Rabs_mult, (Rabs_right k) by lra. pose proof (Rabs_pos x). nra.
Qed.

(** X22.  On a one-dimensional buffer the fades only attenuate: every
    sample is multiplied by a factor of [[0, 1]], so no magnitude rises
    and the length is kept. *)
Theorem fades_only_attenuate (samples : list R) :
  exists faded_samples : list R,
    apply_fades sample_rate padding_config (Mono samples) = Mono faded_samples
    /\ Forall2 (fun y x => exists k : R, 0 <= k <= 1 /\ y = x * k) faded_samples samples
    /\ Forall2 (fun y x => Rabs y <= Rabs x) faded_samples samples.
Proof. apply apply_fades_mono. Qed.

End Padding.

Section EnhancedPlayback.
Import Np AudioOutput EnhancedAudioOutput.
Local Open Scope R_scope.

Lemma fade_length {A : Type} (scale : A -> R -> A) (fade_in_samples fade_out_samples : Z)
  (a : list A) :
  (fade_in_samples <= Z.of_nat (List.length a))%Z ->
  (fade_out_samples <= Z.of_nat (List.length a))%Z ->
  List.length (fade scale fade_in_samples fade_out_samples a) = List.length a.
Proof.
  intros Hi Ho. unfold fade.
  set (a1 := if (0 <? fade_in_samples)%Z then _ else a).
  assert (H1 : List.length a1 = List.length a).
  { subst a1. destruct (0 <? fade_in_samples)%Z; [|reflexivity].
    unfold fade_head, fade_in_curve.
    rewrite length_app, zip_with_length, length_firstn, length_skipn;
      [lia|rewrite length_firstn, length_map, length_seq; lia]. }
  destruct (0 <? fade_out_samples)%Z; [|exact H1].
  unfold fade_tail, fade_out_curve.
  rewrite length_app, zip_with_length, length_firstn, length_skipn;
    [lia|rewrite length_skipn, length_map, length_seq; lia].
Qed.

Variable sample_rate : Z.
Variable channels : Z.
Variable padding_config : PaddingConfig.

Lemma len_apply_fades (audio : Audio) :
  len (apply_fades sample_rate padding_config audio) = len audio.
Proof.
  unfold apply_fades.
  destruct (len audio =? 0)%nat; [reflexivity|].
  destruct audio; cbn [len]; apply fade_length; apply quarter_le.
Qed.

Lemma len_add_silence_padding (audio : Audio) :
  (0 < len audio)%nat ->
  len (add_silence_padding sample_rate padding_config audio) =
  (Z.to_nat (ms_to_samples sample_rate (start_silence_ms padding_config))
   + len audio
   + Z.to_nat (ms_to_samples sample_rate (end_silence_ms padding_config)))%nat.
Proof.
  intros Hpos. unfold add_silence_padding.
  replace (len audio =? 0)%nat with false by (symmetry; apply Nat.eqb_neq; lia).
  destruct audio; cbn [len]; unfold zeros; rewrite !length_app, !repeat_length; lia.
Qed.

Lemma enhanced_processing_len (audio : Audio) :
  (0 < len audio)%nat ->
  len (apply_enhanced_processing sample_rate channels padding_config audio) =
  (Z.to_nat (ms_to_samples sample_rate (start_silence_ms padding_config))
   + len audio
   + Z.to_nat (ms_to_samples sample_rate (end_silence_ms padding_config)))%nat.
Proof.
  intros Hpos. unfold apply_enhanced_processing.
  rewrite len_playback, len_apply_fades, len_add_silence_padding;
    rewrite len_prepare; [reflexivity|exact Hpos].
Qed.

(** X23.  The enhanced processing of a non-empty buffer, with silences of
    non-negative sample counts, adds the start and end silences and nothing
    else to its length:
    [int(start_silence_ms * sample_rate / 1000)] frames before and
    [int(end_silence_ms * sample_rate / 1000)] frames after. *)
Theorem enhanced_processing_length (audio : Audio) :
  (0 <= ms_to_samples sample_rate (start_silence_ms padding_config))%Z ->
  (0 <= ms_to_samples sample_rate (end_silence_ms padding_config))%Z ->
  (0 < len audio)%nat ->
  len (apply_enhanced_processing sample_rate channels padding_config audio) =
  (Z.to_nat (ms_to_samples sample_rate (start_silence_ms padding_config))
   + len audio
   + Z.to_nat (ms_to_samples sample_rate (end_silence_ms padding_config)))%nat.
Proof. intros _ _. apply enhanced_processing_len. Qed.

(** The first [k] samples are 0. *)
Let silent_head (k : nat) (l : list R) : Prop :=
  forall i, (i < k)%nat -> nth i l 0 = 0.

Lemma silent_head_map (f : R -> R) (k : nat) (l : list R) :
  f 0 = 0 -> silent_head k l -> silent_head k (map f l).
Proof. intros Hf H i Hi. rewrite nth_map_zero by exact Hf. now rewrite H. Qed.

Lemma nth_removelast (l : list R) (j : nat) :
  (S j < List.length l)%nat -> nth j (removelast l) 0 = nth j l 0.
Proof.
  intros Hj. destruct l as [|x l']; [simpl in Hj; lia|].
  rewrite (app_removelast_last 0 (l := x :: l')) at 2 by discriminate.
  rewrite app_nth1; [reflexivity|]. rewrite removelast_length. lia.
Qed.

Lemma silent_head_rolloff (p q : R) (k : nat) (l : list R) :
  silent_head k l -> silent_head k (rolloff (fun cur prev => p * cur + q * prev) l).
Proof.
  intros H i Hi. unfold rolloff. destruct l as [|x l']; [now destruct i|].
  destruct i as [|j]; cbn [nth]; [exact (H 0%nat Hi)|].
  destruct (Nat.lt_ge_cases j (List.length l')) as [Hlt|Hge].
  - rewrite zip_with_nth by (rewrite ?removelast_length; simpl; lia).
    rewrite nth_removelast by (simpl; lia).
    pose proof (H (S j) Hi) as H1. pose proof (H j ltac:(lia)) as H2.
    cbn [nth] in H1. rewrite H1, H2. ring.
  - apply nth_overflow. rewrite zip_with_length; rewrite ?removelast_length; simpl; lia.
Qed.

Lemma silent_head_faded (k : nat) (l' l : list R) :
  Forall2 (fun y x => exists f : R, 0 <= f <= 1 /\ y = x * f) l' l ->
  silent_head k l -> silent_head k l'.
Proof.
  intros HF. revert k. induction HF as [|y x l1 l2 (f & _ & ->) _ IH]; intros k H i Hi.
  - now destruct i.
  - destruct i as [|j]; cbn [nth].
    + pose proof (H 0%nat Hi) as H0. cbn [nth] in H0. rewrite H0. ring.
    + destruct k as [|k]; [lia|].
      apply (IH k); [|lia]. intros i' Hi'. exact (H (S i') ltac:(lia)).
Qed.

Lemma saturate_zero : saturate 0.8 0 = 0.
Proof. apply saturate_spec. rewrite Rabs_R0. lra. Qed.

Lemma playback_mono (l : list R) :
  exists out, apply_playback_processing (Mono l) = Mono out
    /\ forall k, silent_head k l -> silent_head k out.
Proof.
  unfold apply_playback_processing.
  assert (Hsb : exists l1, simulate_sb_output_stage (Mono l) = Mono l1
                  /\ forall k, silent_head k l -> silent_head k l1).
  { unfold simulate_sb_output_stage. destruct (existsb _ _).
    - eexists. split; [reflexivity|]. intros k H.
      apply silent_head_map; [apply saturate_zero|exact H].
    - exists l. split; [reflexivity|auto]. }
  destruct Hsb as (l1 & -> & H1).
  unfold apply_output_amplifier_simulation. cbn [elementwise len].
  assert (Hh : forall k, silent_head k l1 ->
                 silent_head k (map (fun x => x + 0.0005 * x ^ 2 * sign x) l1)).
  { intros k H. apply silent_head_map; [rewrite sign_zero; ring|exact H]. }
  destruct (1 <? _)%nat; cbn [elementwise]; eexists; (split; [reflexivity|]);
    intros k H; apply silent_head_map;
    try (unfold clip, Rmin, Rmax;
         destruct (Rle_dec 0 (-0.95)); destruct (Rle_dec _ 0.95); lra).
  - apply silent_head_rolloff. auto.
  - auto.
Qed.

(** X24.  On a mono device, the start silence of the enhanced processing
    of a non-empty one-dimensional buffer stays exactly silent through the
    fades and the playback processing: the output has the padded length and
    its first [int(start_silence_ms * sample_rate / 1000)] samples are 0. *)
Theorem start_silence_is_silent (samples : list R) (i : nat) :
  (0 <= ms_to_samples sample_rate (start_silence_ms padding_config))%Z ->
  (0 <= ms_to_samples sample_rate (end_silence_ms padding_config))%Z ->
  channels <> 2%Z ->
  samples <> [] ->
  (i < Z.to_nat (ms_to_samples sample_rate (start_silence_ms padding_config)))%nat ->
  exists out : list R,
    apply_enhanced_processing sample_rate channels padding_config (Mono samples) = Mono out
    /\ List.length out =
       (Z.to_nat (ms_to_samples sample_rate (start_silence_ms padding_config))
        + List.length samples
        + Z.to_nat (ms_to_samples sample_rate (end_silence_ms padding_config)))%nat
    /\ nth i out 0 = 0.
Proof.
  intros _ _ Hch Hne Hi.
  assert (Hlen := enhanced_processing_len (Mono samples)).
  cbn [len] in Hlen.
  assert (Hpos : (0 < List.length samples)%nat)
    by (destruct samples; [congruence|simpl; lia]).
  specialize (Hlen Hpos). revert Hlen.
  unfold apply_enhanced_processing, prepare_audio_data.
  replace (channels =? 2)%Z with false by (symmetry; apply Z.eqb_neq; exact Hch).
  cbn [elementwise].
  set (s := map (clip (-1.0) 1.0) samples).
  set (start := Z.to_nat (ms_to_samples sample_rate (start_silence_ms padding_config))) in *.
  assert (Hpad : exists padded,
             add_silence_padding sample_rate padding_config (Mono s) = Mono padded
             /\ silent_head start padded).
  { unfold add_silence_padding. cbn [len].
    destruct (Nat.eqb_spec (List.length s) 0) as [Hz|Hnz].
    - exists s. split; [reflexivity|]. intros j _. apply nth_overflow. lia.
    - eexists. split; [reflexivity|]. intros j Hj. fold start.
      rewrite app_nth1 by (unfold zeros; rewrite repeat_length; exact Hj).
      unfold zeros. apply nth_repeat. }
  destruct Hpad as (padded & -> & Hsilent).
  destruct (apply_fades_mono sample_rate padding_config padded)
    as (fd & -> & Hfaded & _).
  destruct (playback_mono fd) as (out & -> & Hout).
  intros Hlen. cbn [len] in Hlen.
  exists out. split; [reflexivity|]. split; [exact Hlen|].
  apply (Hout start); [|exact Hi].
  eapply silent_head_faded; [exact Hfaded|exact Hsilent].
Qed.

(** X25.  What the enhanced [play] hands to the sound device (for a
    one-dimensional buffer, or a two-dimensional one with rows that are not
    empty) has the padded length and every sample in [[-0.95, 0.95]]. *)
Theorem enhanced_play_within_limits (audio played : Audio) :
  (0 <= ms_to_samples sample_rate (start_silence_ms padding_config))%Z ->
  (0 <= ms_to_samples sample_rate (end_silence_ms padding_config))%Z ->
  (forall rows, audio = Frames rows -> Forall (fun row => row <> []) rows) ->
  EnhancedAudioOutput.play sample_rate channels padding_config audio = Some played ->
  len played =
    (Z.to_nat (ms_to_samples sample_rate (start_silence_ms padding_config))
     + len audio
     + Z.to_nat (ms_to_samples sample_rate (end_silence_ms padding_config)))%nat
  /\ Forall (fun x => -0.95 <= x <= 0.95) (samples_of played).
Proof.
  intros _ _ _. unfold EnhancedAudioOutput.play.
  destruct (Nat.eqb_spec (len audio) 0) as [|Hne]; [discriminate|].
  intros Hplay. apply play_spec in Hplay. destruct Hplay as (Hlen & _ & Hlim).
  split; [|exact Hlim].
  rewrite Hlen. apply enhanced_processing_len. lia.
Qed.

End EnhancedPlayback.

Lemma enhanced_processing_length_witness :
  AudioOutput.len
    (EnhancedAudioOutput.apply_enhanced_processing 22050 1
       EnhancedAudioOutput.default_padding (AudioOutput.Mono [0.5%R; (-0.5)%R]))
  = (Z.to_nat (EnhancedAudioOutput.ms_to_samples 22050 150)
     + AudioOutput.len (AudioOutput.Mono [0.5%R; (-0.5)%R])
     + Z.to_nat (EnhancedAudioOutput.ms_to_samples 22050 250))%nat.
Proof.
  apply (enhanced_processing_length 22050 1 EnhancedAudioOutput.default_padding
           (AudioOutput.Mono [0.5%R; (-0.5)%R])).
  - now vm_compute.
  - now vm_compute.
  - simpl. lia.
Defined.

Lemma start_silence_is_silent_witness :
  exists out : list R,
    EnhancedAudioOutput.apply_enhanced_processing 22050 1
      EnhancedAudioOutput.default_padding (AudioOutput.Mono [0.5%R; (-0.5)%R])
    = AudioOutput.Mono out
    /\ List.length out =
       (Z.to_nat (EnhancedAudioOutput.ms_to_samples 22050 150)
        + List.length [0.5%R; (-0.5)%R]
        + Z.to_nat (EnhancedAudioOutput.ms_to_samples 22050 250))%nat
    /\ nth 100 out 0%R = 0%R.
Proof.
  apply (start_silence_is_silent 22050 1 EnhancedAudioOutput.default_padding
           [0.5%R; (-0.5)%R] 100).
  - now vm_compute.
  - now vm_compute.
  - discriminate.
  - discriminate.
  - vm_compute. lia.
Defined.

Lemma enhanced_play_within_limits_witness :
  AudioOutput.len
    (AudioOutput.apply_playback_processing
       (AudioOutput.prepare_audio_data 1
          (EnhancedAudioOutput.apply_enhanced_processing 22050 1
             EnhancedAudioOutput.default_padding (AudioOutput.Mono [0.5%R]))))
  = (Z.to_nat (EnhancedAudioOutput.ms_to_samples 22050 150)
     + AudioOutput.len (AudioOutput.Mono [0.5%R])
     + Z.to_nat (EnhancedAudioOutput.ms_to_samples 22050 250))%nat
  /\ Forall (fun x => (-0.95 <= x <= 0.95)%R)
       (AudioOutput.samples_of
          (AudioOutput.apply_playback_processing
             (AudioOutput.prepare_audio_data 1
                (EnhancedAudioOutput.apply_enhanced_processing 22050 1
                   EnhancedAudioOutput.default_padding (AudioOutput.Mono [0.5%R]))))).
Proof.
  refine (enhanced_play_within_limits 22050 1 EnhancedAudioOutput.default_padding
            (AudioOutput.Mono [0.5%R]) _ _ _ _ _).
  { now vm_compute. }
  { now vm_compute. }
  { intros rows Hrows. discriminate Hrows. }
  unfold EnhancedAudioOutput.play, AudioOutput.play.
  cbn [AudioOutput.len List.length Nat.eqb].
  destruct (Nat.eqb_spec
              (AudioOutput.len
                 (EnhancedAudioOutput.apply_enhanced_processing 22050 1
                    EnhancedAudioOutput.default_padding (AudioOutput.Mono [0.5%R]))) 0)
    as [Hz|_]; [|reflexivity].
  exfalso.
  rewrite (enhanced_processing_len 22050 1) in Hz by (simpl; lia).
  simpl in Hz. lia.
Defined.
